(** * nft-holder-exporter: the batch-fetch-with-retry engine

    A shallow embedding of the two scripts of the repository,

    - [get_nft_owners_by_id.mjs], which appends every (owner, token id) row
      to the CSV file as soon as the owner is known, and
    - [get_nft_holders_web3.mjs], which pushes the rows to an in-memory
      array, sorts it by token id and writes it once at the end,

    together with the part of the [retry] package they call.  JavaScript
    runs the fetchers of a batch on one event loop: every callback runs to
    completion, and the order in which the pending remote calls, timers and
    file writes complete is not fixed by the program.  The model is a step
    function over an explicit state; a schedule (a list of choices) says
    which pending completion is delivered next. *)

From Stdlib Require Import ZArith List String Ascii Bool Lia Arith.
From Stdlib Require Import Sorting.Sorted Sorting.Permutation.
From Stdlib Require Import DecimalString.
Import ListNotations.
Open Scope Z_scope.

(** ** JavaScript built-ins used by the scripts *)

Module JS.

(** The values taken by [j] in [for (let j = lo; j <= hi; j++)]. *)
Definition range (lo hi : Z) : list Z :=
  map (fun k => lo + Z.of_nat k) (seq 0 (Z.to_nat (hi - lo + 1))).

(** [`${n}`] for an integer [n]. *)
Definition numberToString (n : Z) : string :=
  NilZero.string_of_int (Z.to_int n).

(** [s.startsWith(p)] *)
Fixpoint startsWith (s p : string) : bool :=
  match p, s with
  | EmptyString, _ => true
  | String a p', String b s' => Ascii.eqb a b && startsWith s' p'
  | String _ _, EmptyString => false
  end.

(** [s.includes(sub)] *)
Fixpoint includes (s sub : string) : bool :=
  startsWith s sub ||
  match s with
  | EmptyString => false
  | String _ s' => includes s' sub
  end.

(** [arr.sort((a, b) => key(a) - key(b))]: the sort of the language is
    stable; it is modelled by insertion from the right. *)
Fixpoint insert {A : Type} (key : A -> Z) (x : A) (l : list A) : list A :=
  match l with
  | [] => [x]
  | y :: l' => if key x <=? key y then x :: l else y :: insert key x l'
  end.

Fixpoint sort {A : Type} (key : A -> Z) (l : list A) : list A :=
  match l with
  | [] => []
  | x :: l' => insert key x (sort key l')
  end.

End JS.

(** ** The [retry] package

    [retry] is a dependency (imported on line 7, resp. 8), not a file of the
    repository.  The definitions below follow its [lib/retry.js] and
    [lib/retry_operation.js] for the options the scripts pass
    ([retries], [factor], [minTimeout], [maxTimeout]; [randomize] is off, so
    the random factor is 1 and [Math.round] acts on an integer). *)

Module Retry.

Record Options := {
  retries : nat;
  factor : Z;
  minTimeout : Z;
  maxTimeout : Z
}.

(** [retry.timeouts] throws when [minTimeout > maxTimeout]; the run is
    modelled for options that pass this guard. *)
Definition accepted (opts : Options) : bool :=
  minTimeout opts <=? maxTimeout opts.

(** [createTimeout(attempt, opts)], [attempt] counted from 0. *)
Definition createTimeout (attempt : nat) (opts : Options) : Z :=
  Z.min (Z.max (minTimeout opts) 1 * factor opts ^ Z.of_nat attempt)
        (maxTimeout opts).

(** [retry.timeouts(opts)]: one timeout per retry, sorted ascending. *)
Definition timeouts (opts : Options) : list Z :=
  JS.sort (fun t => t)
          (map (fun i => createTimeout i opts) (seq 0 (retries opts))).

(** The fields of a [RetryOperation] the scripts depend on. *)
Record RetryOperation := {
  _timeouts : list Z;
  _attempts : nat
}.

(** [retry.operation(opts)] *)
Definition operation (opts : Options) : RetryOperation :=
  {| _timeouts := timeouts opts; _attempts := 1 |}.

(** [operation.retry(err)] for an error object [err]: shifts the next
    timeout; [None] stands for the result [false] (no timeout is left),
    [Some (t, op')] for [true] with a timer of [t] ms armed. *)
Definition retry (op : RetryOperation) : option (Z * RetryOperation) :=
  match _timeouts op with
  | [] => None
  | t :: ts => Some (t, {| _timeouts := ts; _attempts := _attempts op |})
  end.

(** The timer callback armed by [retry]: [self._attempts++] and the
    function given to [operation.attempt] is called again. *)
Definition fire (op : RetryOperation) : RetryOperation :=
  {| _timeouts := _timeouts op; _attempts := S (_attempts op) |}.

(** The [k]-th call of [operation.retry] on an operation (k counted from
    1), when every earlier call armed its timer and the timer fired: the
    timeout it hands out and the value of [_attempts] at the call. *)
Fixpoint consult (k : nat) (op : RetryOperation) : option (Z * nat) :=
  match k with
  | O => None
  | S k' =>
      match retry op with
      | None => None
      | Some (t, op') =>
          match k' with
          | O => Some (t, _attempts op)
          | S _ => consult k' (fire op')
          end
      end
  end.

(** The retry policy in the words of the specification, for comparison. *)
Definition nextDelay (baseDelay growthFactor maxDelay : Z) (k : nat) : Z :=
  Z.min (baseDelay * growthFactor ^ (Z.of_nat k - 1)) maxDelay.

Definition isExhausted (maxAttempts attemptIndex : nat) : bool :=
  (maxAttempts <? attemptIndex)%nat.

End Retry.

(** ** Data of the scripts *)

(** The two scripts differ only in where a fetched row goes. *)
Inductive Variant :=
| WriteImmediately   (* get_nft_owners_by_id.mjs *)
| SortAtEnd.         (* get_nft_holders_web3.mjs *)

(** The properties of a thrown error the scripts read. *)
Record Error := {
  code : option string;
  reason : option string;
  message : string
}.

(** What [await contract.ownerOf(j)] does. *)
Inductive Response :=
| Returns (owner : string)
| Throws (error : Error).

(** The remote collaborator: the response to the [n]-th call (counted from
    1) made for a token id. *)
Definition Transport := Z -> nat -> Response.

Inductive Classification := PermanentAbsence | Transient.

(** [error.code === 'CALL_EXCEPTION' && error.reason &&
     error.reason.includes('invalid token ID')] *)
Definition invalidTokenId (error : Error) : bool :=
  match code error with
  | Some c =>
      String.eqb c "CALL_EXCEPTION"%string &&
      match reason error with
      | Some r =>
          negb (String.eqb r EmptyString) &&
          JS.includes r "invalid token ID"%string
      | None => false
      end
  | None => false
  end.

Definition classify (error : Error) : Classification :=
  if invalidTokenId error then PermanentAbsence else Transient.

Record Config := {
  startTokenId : Z;
  endTokenId : Z;
  batchSize : Z;
  pacingDelay : Z;
  retryOptions : Retry.Options
}.

Definition scriptRetryOptions : Retry.Options :=
  {| Retry.retries := 10; Retry.factor := 2;
     Retry.minTimeout := 1000; Retry.maxTimeout := 8000 |}.

(** The constants of [get_nft_owners_by_id.mjs]. *)
Definition config_by_id : Config :=
  {| startTokenId := 1001; endTokenId := 2000; batchSize := 5;
     pacingDelay := 1500; retryOptions := scriptRetryOptions |}.

(** The constants of [get_nft_holders_web3.mjs]. *)
Definition config_web3 : Config :=
  {| startTokenId := 1001; endTokenId := 2000; batchSize := 5;
     pacingDelay := 2000; retryOptions := scriptRetryOptions |}.

(** A row [[owner, j]] of the CSV file. *)
Definition Row := (string * Z)%type.

(** What a fetcher is waiting for. *)
Inductive Phase :=
| Calling    (* [await contract.ownerOf(j)] is pending *)
| Waiting    (* the timer armed by [operation.retry] is pending *)
| Writing    (* [await csvWriter.writeRecords([[owner, j]])] is pending *)
| Resolved.  (* [resolve()] was called *)

(** One element of [batchPromises] with the state of its closure. *)
Record Item := {
  tokenId : Z;
  operation : Retry.RetryOperation;
  phase : Phase
}.

(** The effects of a run, in the order they happen. *)
Inductive Event :=
| EvCall (j : Z) (attempt : nat)   (* [contract.ownerOf(j)] is called *)
| EvBackoff (j : Z) (ms : Z)       (* retry timer armed for [j] *)
| EvSleep (ms : Z)                 (* [setTimeout(resolve, ms)] between batches *)
| EvResolve (j : Z).               (* [resolve()] of the promise of [j] *)

(** Everything the fetchers share. *)
Record Sinks := {
  results : list Row;              (* the array [results] (SortAtEnd) *)
  csv : list Row;                  (* rows appended to nft_holders.csv *)
  warned : list Z;                 (* the ids [j] of the lines [warnLine j] sent to console.warn *)
  errorLog : list (Z * string);    (* the [(j, error.message)] of the lines [errorLogLine] written to error.log *)
  progress : nat;                  (* number of calls of [progressBar.increment()] *)
  trace : list Event
}.

Record State := {
  loop_i : Z;                      (* the variable [i] of the outer loop *)
  running : bool;                  (* false once the outer loop is left *)
  batchPromises : list Item;
  out : Sinks
}.

(** The terminal outcome of one token id. *)
Inductive Outcome :=
| Owned (owner : string)
| Absent
| Failed (reason : string).

(** The text of the lines. *)
Definition warnLine (j : Z) : string :=
  ("Token ID " ++ JS.numberToString j ++ " is invalid.")%string.

Definition errorLogLine (entry : Z * string) : string :=
  ("Error fetching owner for token ID " ++ JS.numberToString (fst entry)
    ++ ": " ++ snd entry ++ String "010" EmptyString)%string.

Definition errorLogText (o : Sinks) : string :=
  fold_right (fun e s => (errorLogLine e ++ s)%string) EmptyString
             (errorLog o).

(** ** Updates of the shared state *)

Definition emit (es : list Event) (o : Sinks) : Sinks :=
  {| results := results o; csv := csv o; warned := warned o;
     errorLog := errorLog o; progress := progress o;
     trace := trace o ++ es |}.

Definition pushResult (r : Row) (o : Sinks) : Sinks :=
  {| results := results o ++ [r]; csv := csv o; warned := warned o;
     errorLog := errorLog o; progress := progress o; trace := trace o |}.

Definition writeRecords (rs : list Row) (o : Sinks) : Sinks :=
  {| results := results o; csv := csv o ++ rs; warned := warned o;
     errorLog := errorLog o; progress := progress o; trace := trace o |}.

Definition consoleWarn (j : Z) (o : Sinks) : Sinks :=
  {| results := results o; csv := csv o; warned := warned o ++ [j];
     errorLog := errorLog o; progress := progress o; trace := trace o |}.

Definition writeErrorLog (j : Z) (msg : string) (o : Sinks) : Sinks :=
  {| results := results o; csv := csv o; warned := warned o;
     errorLog := errorLog o ++ [(j, msg)]; progress := progress o;
     trace := trace o |}.

Definition increment (o : Sinks) : Sinks :=
  {| results := results o; csv := csv o; warned := warned o;
     errorLog := errorLog o; progress := S (progress o); trace := trace o |}.

(** [results.sort((a, b) => a[1] - b[1])] sorts the array in place. *)
Definition sortResults (o : Sinks) : Sinks :=
  {| results := JS.sort snd (results o); csv := csv o; warned := warned o;
     errorLog := errorLog o; progress := progress o; trace := trace o |}.

Definition noOutput : Sinks :=
  {| results := []; csv := []; warned := []; errorLog := [];
     progress := 0; trace := [] |}.

Definition setPhase (p : Phase) (it : Item) : Item :=
  {| tokenId := tokenId it; operation := operation it; phase := p |}.

Definition isResolved (it : Item) : bool :=
  match phase it with Resolved => true | _ => false end.

Definition isCalling (it : Item) : bool :=
  match phase it with Calling => true | _ => false end.

(** ** The run *)

Section Run.

Variable v : Variant.
Variable cfg : Config.
Variable transport : Transport.

(** The next callback of the fetcher of one token id: the function given
    to [operation.attempt] after its pending [await], or the retry timer.
    The row of the write-immediately script joins the file when
    [writeRecords] is called; file writes are taken to succeed. *)
Definition onEvent (it : Item) (o : Sinks) : Item * Sinks :=
  let j := tokenId it in
  let op := operation it in
  match phase it with
  | Calling =>
      match transport j (Retry._attempts op) with
      | Returns owner =>
          match v with
          | WriteImmediately =>
              (setPhase Writing it, writeRecords [(owner, j)] o)
          | SortAtEnd =>
              (setPhase Resolved it,
               emit [EvResolve j] (increment (pushResult (owner, j) o)))
          end
      | Throws error =>
          if invalidTokenId error then
            (setPhase Resolved it,
             emit [EvResolve j] (increment (consoleWarn j o)))
          else
            match Retry.retry op with
            | Some (timeout, op') =>
                ({| tokenId := j; operation := op'; phase := Waiting |},
                 emit [EvBackoff j timeout] o)
            | None =>
                (setPhase Resolved it,
                 emit [EvResolve j]
                      (increment (writeErrorLog j (message error) o)))
            end
      end
  | Waiting =>
      let op' := Retry.fire op in
      ({| tokenId := j; operation := op'; phase := Calling |},
       emit [EvCall j (Retry._attempts op')] o)
  | Writing => (setPhase Resolved it, emit [EvResolve j] (increment o))
  | Resolved => (it, o)
  end.

(** Delivers the pending completion of the fetcher of [j]. *)
Fixpoint settle (j : Z) (b : list Item) (o : Sinks)
  : option (list Item * Sinks) :=
  match b with
  | [] => None
  | it :: b' =>
      if tokenId it =? j then
        if isResolved it then None
        else let (it', o') := onEvent it o in Some (it' :: b', o')
      else
        match settle j b' o with
        | Some (b'', o') => Some (it :: b'', o')
        | None => None
        end
  end.

(** The ids of the batch that starts at [i]. *)
Definition window (i : Z) : list Z :=
  JS.range i (Z.min (i + batchSize cfg - 1) (endTokenId cfg)).

Definition newItem (j : Z) : Item :=
  {| tokenId := j; operation := Retry.operation (retryOptions cfg);
     phase := Calling |}.

(** The inner loop: one promise per id, each making its first call. *)
Definition launch (i : Z) (o : Sinks) : list Item * Sinks :=
  (map newItem (window i), emit (map (fun j => EvCall j 1) (window i)) o).

(** What follows the outer loop: nothing more in the write-immediately
    script; in the sort-at-end script the array [results] is sorted in place
    and written with one [csvWriter.writeRecords(results)]. *)
Definition finish (o : Sinks) : Sinks :=
  match v with
  | WriteImmediately => o
  | SortAtEnd =>
      let o' := sortResults o in
      writeRecords (results o') o'
  end.

(** The test [i <= endTokenId] of the outer loop and what it leads to. *)
Definition loopTest (i : Z) (o : Sinks) : State :=
  if i <=? endTokenId cfg then
    let (b, o') := launch i o in
    {| loop_i := i; running := true; batchPromises := b; out := o' |}
  else
    {| loop_i := i; running := false; batchPromises := []; out := finish o |}.

Inductive Choice :=
| Settle (j : Z)   (* the pending completion of the fetcher of [j] *)
| Barrier.         (* [await Promise.all(batchPromises)] and the sleep *)

Definition step (c : Choice) (s : State) : option State :=
  if running s then
    match c with
    | Settle j =>
        match settle j (batchPromises s) (out s) with
        | Some (b, o) =>
            Some {| loop_i := loop_i s; running := true;
                    batchPromises := b; out := o |}
        | None => None
        end
    | Barrier =>
        if forallb isResolved (batchPromises s) then
          Some (loopTest (loop_i s + batchSize cfg)
                         (emit [EvSleep (pacingDelay cfg)] (out s)))
        else None
    end
  else None.

Definition init : State := loopTest (startTokenId cfg) noOutput.

Fixpoint exec (sched : list Choice) (s : State) : option State :=
  match sched with
  | [] => Some s
  | c :: sched' =>
      match step c s with
      | Some s' => exec sched' s'
      | None => None
      end
  end.

(** The run of one fetcher on its own, from attempt [a] with the timeouts
    [ts] left: its outcome and the number of its last attempt. *)
Fixpoint fetchFrom (j : Z) (a : nat) (ts : list Z) : Outcome * nat :=
  match transport j a with
  | Returns owner => (Owned owner, a)
  | Throws error =>
      if invalidTokenId error then (Absent, a)
      else
        match ts with
        | [] => (Failed (message error), a)
        | _ :: ts' => fetchFrom j (S a) ts'
        end
  end.

Definition fetch (j : Z) : Outcome * nat :=
  fetchFrom j 1 (Retry.timeouts (retryOptions cfg)).

(** The rows of the ids of [l] that have an owner. *)
Definition ownedRows (l : list Z) : list Row :=
  flat_map (fun j => match fst (fetch j) with
                     | Owned owner => [(owner, j)]
                     | _ => []
                     end) l.

(** The batches of the outer loop, [i] being its variable; the loop runs
    at most [fuel] times. *)
Fixpoint batches (fuel : nat) (i : Z) : list (list Z) :=
  match fuel with
  | O => []
  | S fuel' =>
      if i <=? endTokenId cfg then
        window i :: batches fuel' (i + batchSize cfg)
      else []
  end.

Definition allBatches : list (list Z) :=
  batches (Z.to_nat (endTokenId cfg - startTokenId cfg + 1))
          (startTokenId cfg).

Definition inFlight (s : State) : nat :=
  List.length (filter (fun it => negb (isResolved it)) (batchPromises s)).

Definition callsInFlight (s : State) : nat :=
  List.length (filter isCalling (batchPromises s)).

End Run.

(** Number of calls of [contract.ownerOf(j)] in a trace. *)
Definition calls (j : Z) (t : list Event) : nat :=
  List.length (filter (fun e => match e with
                           | EvCall j' _ => j' =? j
                           | _ => false
                           end) t).

Definition sleeps (t : list Event) : nat :=
  List.length (filter (fun e => match e with EvSleep _ => true | _ => false end) t).

(** ** The process

    The ABI is loaded before anything else; when that fails the script
    calls [process.exit(1)].  Otherwise [main] awaits the run, catches
    whatever it throws, and the process ends with the default code 0. *)
Definition script (v : Variant) (cfg : Config) (transport : Transport)
    (abiLoaded : bool) (sched : list Choice) : option (Z * Sinks) :=
  if abiLoaded then
    match exec v cfg transport sched (init v cfg) with
    | Some s => if running s then None else Some (0, out s)
    | None => None
    end
  else Some (1, noOutput).

Definition wfConfig (cfg : Config) : Prop :=
  1 <= batchSize cfg /\ Retry.accepted (retryOptions cfg) = true.



(** ** Sample inputs *)

Definition ownerOf (j : Z) : string := ("0x" ++ JS.numberToString j)%string.

Definition invalidIdError : Error :=
  {| code := Some "CALL_EXCEPTION"%string;
     reason := Some "ERC721: invalid token ID"%string;
     message := "execution reverted: ERC721: invalid token ID"%string |}.

Definition timeoutError (attempt : nat) : Error :=
  {| code := Some "TIMEOUT"%string;
     reason := None;
     message := ("request timeout, attempt "
                 ++ JS.numberToString (Z.of_nat attempt))%string |}.

(** Every token has an owner. *)
Definition everyTokenOwned : Transport := fun j _ => Returns (ownerOf j).

(** Token 2 does not exist, every call for token 3 times out. *)
Definition sampleTransport : Transport := fun j attempt =>
  if j =? 2 then Throws invalidIdError
  else if j =? 3 then Throws (timeoutError attempt)
  else Returns (ownerOf j).

Definition sampleConfig : Config :=
  {| startTokenId := 1; endTokenId := 4; batchSize := 3;
     pacingDelay := 2000; retryOptions := scriptRetryOptions |}.

(** A run of the sort-at-end script on the sample: in the first batch the
    call for 3 fails first, then 2 and 1 settle, then 3 uses up its
    retries (a timer and a call per retry). *)
Definition sampleSchedule : list Choice :=
  [Settle 3; Settle 2; Settle 1] ++ repeat (Settle 3) 20
  ++ [Barrier; Settle 4; Barrier].

(** The same for the write-immediately script, where an owner found is
    followed by the completion of the file write. *)
Definition sampleScheduleImmediate : list Choice :=
  [Settle 3; Settle 2; Settle 1; Settle 1] ++ repeat (Settle 3) 20
  ++ [Barrier; Settle 4; Settle 4; Barrier].

(** The call and the file write of each id complete, in the order of
    [ids]. *)
Definition settleTwice (ids : list Z) : list Choice :=
  flat_map (fun j => [Settle j; Settle j]) ids.

(** A run of [get_nft_owners_by_id.mjs] with its own constants in which
    the call for 1002 returns, and its row is written, before the call for
    1001 returns. *)
Definition jitterSchedule : list Choice :=
  settleTwice [1002; 1001; 1003; 1004; 1005] ++ [Barrier]
  ++ flat_map (fun w => settleTwice w ++ [Barrier])
              (tl (allBatches config_by_id)).

Definition smallRange (size : Z) : Config :=
  {| startTokenId := 1001; endTokenId := 1010; batchSize := size;
     pacingDelay := 1500; retryOptions := scriptRetryOptions |}.

Definition oneByOne : list Choice :=
  flat_map (fun j => [Settle j; Settle j; Barrier]) (JS.range 1001 1010).

Definition tenAtOnce : list Choice :=
  settleTwice (1002 :: 1001 :: JS.range 1003 1010) ++ [Barrier].


Definition pairConfig : Config :=
  {| startTokenId := 1; endTokenId := 2; batchSize := 2;
     pacingDelay := 2000; retryOptions := scriptRetryOptions |}.


(** [rows] is strictly ascending by token id, as a test. *)
Fixpoint ascendingb (rows : list Row) : bool :=
  match rows with
  | [] => true
  | x :: rows' =>
      forallb (fun y => snd x <? snd y) rows' && ascendingb rows'
  end.

(** ** Vocabulary of the invariants *)

Definition keyLe {A : Type} (key : A -> Z) (a b : A) : Prop := key a <= key b.
Definition keyLt {A : Type} (key : A -> Z) (a b : A) : Prop := key a < key b.

(** A list is strictly ascending by token id. *)
Definition ascending (rows : list Row) : Prop :=
  StronglySorted (keyLt snd) rows.

(** The element of [batchPromises] created for [j]. *)
Definition lookup (j : Z) (b : list Item) : option Item :=
  find (fun it => tokenId it =? j) b.

(** [sink] holds exactly the entries [x] selected by [sel] whose id is in
    the set [S], one per id. *)
Definition Holds {X : Type} (S : Z -> Prop) (key : X -> Z) (sel : X -> Prop)
    (sink : list X) : Prop :=
  NoDup (map key sink) /\ forall x, In x sink <-> S (key x) /\ sel x.

Definition SinkStep {X : Type} (grows : Prop) (key : X -> Z) (sel : X -> Prop)
    (sink sink' : list X) (j0 : Z) : Prop :=
  (sink' = sink /\ (grows -> forall x, key x = j0 -> ~ sel x)) \/
  (grows /\ exists x0, sink' = sink ++ [x0] /\ key x0 = j0 /\ sel x0 /\
                       forall x, key x = j0 -> sel x -> x = x0).

(** The effect on the trace of one callback of the fetcher of [j]. *)
Definition TraceStep (j : Z) (it it' : Item) (es : list Event) : Prop :=
  let a := Retry._attempts (operation it) in
  let a' := Retry._attempts (operation it') in
  (es = [] /\ phase it' = Writing /\ a' = a) \/
  (es = [EvResolve j] /\ phase it' = Resolved /\ a' = a) \/
  (phase it' = Waiting /\ a' = a /\ exists t, es = [EvBackoff j t]) \/
  (es = [EvCall j a'] /\ phase it' = Calling /\ a' = S a).

Definition becomesWritten (it it' : Item) : Prop :=
  phase it <> Writing /\ (phase it' = Resolved \/ phase it' = Writing).

Section Invariant.

Variable v : Variant.
Variable cfg : Config.
Variable transport : Transport.

(** The ids of the batches before the one that starts at [i]. *)
Definition past (i : Z) (j : Z) : bool :=
  (startTokenId cfg <=? j) && (j <=? endTokenId cfg) && (j <? i).

(** The ids whose promise is resolved. *)
Definition done (s : State) (j : Z) : Prop :=
  past (loop_i s) j = true \/
  exists it, lookup j (batchPromises s) = Some it /\ phase it = Resolved.

(** The ids whose owner was handed to the row sink. *)
Definition written (s : State) (j : Z) : Prop :=
  done s j \/
  exists it, lookup j (batchPromises s) = Some it /\ phase it = Writing.

Definition rowSink (o : Sinks) : list Row :=
  match v with
  | WriteImmediately => csv o
  | SortAtEnd => results o
  end.

(** What remains of a fetcher leads to the outcome of [fetch]. *)
Definition itemOk (it : Item) : Prop :=
  let j := tokenId it in
  let a := Retry._attempts (operation it) in
  let ts := Retry._timeouts (operation it) in
  let R := Retry.retries (retryOptions cfg) in
  match phase it with
  | Calling =>
      fetchFrom transport j a ts = fetch cfg transport j /\
      (a + List.length ts = S R)%nat
  | Waiting =>
      fetchFrom transport j (S a) ts = fetch cfg transport j /\
      (a + List.length ts = R)%nat
  | Writing =>
      v = WriteImmediately /\
      exists owner, fetch cfg transport j = (Owned owner, a)
  | Resolved => snd (fetch cfg transport j) = a
  end.

Definition expectedCalls (s : State) (j : Z) : nat :=
  match lookup j (batchPromises s) with
  | Some it => Retry._attempts (operation it)
  | None => if past (loop_i s) j then snd (fetch cfg transport j) else 0%nat
  end.

Definition ownedSel (x : Row) : Prop :=
  fst (fetch cfg transport (snd x)) = Owned (fst x).

Definition absentSel (j : Z) : Prop :=
  fst (fetch cfg transport j) = Absent.

Definition failedSel (x : Z * string) : Prop :=
  fst (fetch cfg transport (fst x)) = Failed (snd x).

Record Inv (s : State) : Prop := {
  inv_start : startTokenId cfg <= loop_i s;
  inv_iter :
    exists k : nat,
      loop_i s = startTokenId cfg + Z.of_nat k * batchSize cfg /\
      sleeps (trace (out s)) = k;
  inv_ctrl :
    if running s then
      loop_i s <= endTokenId cfg /\
      map tokenId (batchPromises s) = window cfg (loop_i s)
    else endTokenId cfg < loop_i s /\ batchPromises s = [];
  inv_items :
    forall j it, lookup j (batchPromises s) = Some it -> itemOk it;
  inv_rows : Holds (written s) snd ownedSel (rowSink (out s));
  inv_warned : Holds (done s) (fun j => j) absentSel (warned (out s));
  inv_errorLog : Holds (done s) fst failedSel (errorLog (out s));
  inv_progress :
    progress (out s) =
    (Z.to_nat (Z.min (loop_i s) (endTokenId cfg + 1) - startTokenId cfg)
     + List.length (filter isResolved (batchPromises s)))%nat;
  inv_resolve : forall j, In (EvResolve j) (trace (out s)) <-> done s j;
  inv_calls : forall j, calls j (trace (out s)) = expectedCalls s j;
  inv_other :
    match v with
    | WriteImmediately => results (out s) = []
    | SortAtEnd =>
        csv (out s) =
        if running s then [] else JS.sort snd (results (out s))
    end
}.

(** The shared state between two batches: the ids before [i] are settled
    and nothing else has happened. *)
Record Settled (i : Z) (o : Sinks) : Prop := {
  st_rows : Holds (fun j => past i j = true) snd ownedSel (rowSink o);
  st_warned :
    Holds (fun j => past i j = true) (fun j => j) absentSel (warned o);
  st_errorLog : Holds (fun j => past i j = true) fst failedSel (errorLog o);
  st_progress :
    progress o =
    Z.to_nat (Z.min i (endTokenId cfg + 1) - startTokenId cfg);
  st_resolve : forall j, In (EvResolve j) (trace o) <-> past i j = true;
  st_calls :
    forall j, calls j (trace o) =
              if past i j then snd (fetch cfg transport j) else 0%nat;
  st_other :
    match v with
    | WriteImmediately => results o = []
    | SortAtEnd => csv o = []
    end
}.

(** The order of the effects: when a call for [j] is made, every id of an
    earlier batch is resolved and one sleep per earlier batch has elapsed;
    no call is made for an id after its promise is resolved. *)
Definition traceOrdered (t : list Event) : Prop :=
  (forall pre j a post, t = pre ++ EvCall j a :: post ->
     forall (k : nat) (r : Z),
       j = startTokenId cfg + Z.of_nat k * batchSize cfg + r ->
       0 <= r < batchSize cfg ->
       sleeps pre = k /\
       forall j', startTokenId cfg <= j' <
                  startTokenId cfg + Z.of_nat k * batchSize cfg ->
                  In (EvResolve j') pre) /\
  (forall pre j post, t = pre ++ EvResolve j :: post -> calls j post = 0%nat).

(** What must hold when a call for [j] is appended to the trace [t]. *)
Definition callAllowed (t : list Event) (j : Z) : Prop :=
  (forall (k : nat) (r : Z),
     j = startTokenId cfg + Z.of_nat k * batchSize cfg + r ->
     0 <= r < batchSize cfg ->
     sleeps t = k /\
     forall j', startTokenId cfg <= j' <
                startTokenId cfg + Z.of_nat k * batchSize cfg ->
                In (EvResolve j') t) /\
  ~ In (EvResolve j) t.

(** Work left: bounds the number of steps a run can still make. *)
Definition itemWork (it : Item) : nat :=
  match phase it with
  | Calling => 2 * List.length (Retry._timeouts (operation it)) + 3
  | Waiting => 2 * List.length (Retry._timeouts (operation it)) + 4
  | Writing => 1
  | Resolved => 0
  end.

Definition batchWork (b : list Item) : nat :=
  fold_right (fun it n => itemWork it + n)%nat 0%nat b.

Definition work (s : State) : nat :=
  if running s then
    (batchWork (batchPromises s) +
     (Z.to_nat (batchSize cfg) * (2 * Retry.retries (retryOptions cfg) + 3) + 1)
     * Z.to_nat ((endTokenId cfg - loop_i s) / batchSize cfg + 1))%nat
  else 0%nat.

End Invariant.

(** ** Vocabulary of the further properties *)

(** [o'] is [o] with more appended: nothing written was removed or
    reordered.  The array [results] keeps its rows, in another order once
    the sort-at-end script has sorted it. *)
Definition Extends (o o' : Sinks) : Prop :=
  (exists l, Permutation (results o') (results o ++ l)) /\
  (exists l, csv o' = csv o ++ l) /\
  (exists l, warned o' = warned o ++ l) /\
  (exists l, errorLog o' = errorLog o ++ l) /\
  (exists l, trace o' = trace o ++ l) /\
  (progress o <= progress o')%nat.

(** Number of calls of [resolve()] in a trace, and of those for [j]. *)
Definition resolves (t : list Event) : nat :=
  List.length (filter (fun e => match e with
                                | EvResolve _ => true
                                | _ => false
                                end) t).

Definition resolvesOf (j : Z) (t : list Event) : nat :=
  List.length (filter (fun e => match e with
                                | EvResolve j' => j' =? j
                                | _ => false
                                end) t).

(** Number of remote calls in a trace. *)
Definition totalCalls (t : list Event) : nat :=
  List.length (filter (fun e => match e with
                                | EvCall _ _ => true
                                | _ => false
                                end) t).

(** The delays waited for [j], in order. *)
Definition backoffs (j : Z) (t : list Event) : list Z :=
  flat_map (fun e => match e with
                     | EvBackoff j' ms => if j' =? j then [ms] else []
                     | _ => []
                     end) t.

(** The attempt numbers of the calls made for [j], in order. *)
Definition attemptNumbers (j : Z) (t : list Event) : list nat :=
  flat_map (fun e => match e with
                     | EvCall j' a => if j' =? j then [a] else []
                     | _ => []
                     end) t.

(** [progressBar.increment()] was called once per resolved promise, and
    each promise was resolved once. *)
Definition resolvedOnce (s : State) : Prop :=
  progress (out s) = resolves (trace (out s)) /\
  forall j, (resolvesOf j (trace (out s)) <= 1)%nat.

(** The [a]-th call of [contract.ownerOf(j)] is pending. *)
Definition callPending (s : State) (j : Z) (a : nat) : Prop :=
  exists it, lookup j (batchPromises s) = Some it /\
             phase it = Calling /\ Retry._attempts (operation it) = a.

(** 1 when the fetcher of [j] waits for its retry timer. *)
Definition waiting (s : State) (j : Z) : nat :=
  match lookup j (batchPromises s) with
  | Some it => match phase it with Waiting => 1 | _ => 0 end
  | None => 0
  end.

(** The calls and waits of every id follow the retry operation: the calls
    are numbered 1, 2, ... and the waits are the timeouts of the policy
    from the first on. *)
Definition Paced (cfg : Config) (s : State) : Prop :=
  forall j,
    let n := calls j (trace (out s)) in
    let m := (n - 1 + waiting s j)%nat in
    attemptNumbers j (trace (out s)) = seq 1 n /\
    backoffs j (trace (out s)) =
      firstn m (Retry.timeouts (retryOptions cfg)) /\
    forall it, lookup j (batchPromises s) = Some it ->
      (1 <= n)%nat /\
      Retry._timeouts (operation it) =
        skipn m (Retry.timeouts (retryOptions cfg)).

(** ** The CSV file

    Before the run the scripts write the header line when the file does
    not exist or is empty ([fs.existsSync], [fs.statSync(..).size === 0],
    [fs.writeFileSync]); the writer is created with [append: true], so
    every [writeRecords] appends the text of its records and no header.
    The text of records is the business of the [csv-writer] package and is
    a parameter here. *)

Definition csvHeader : string :=
  ("Owner Address,Token ID" ++ String "010" EmptyString)%string.

(** The file, [None] when it does not exist, after the header check. *)
Definition ensureHeader (file : option string) : string :=
  match file with
  | None => csvHeader
  | Some text => if String.eqb text EmptyString then csvHeader else text
  end.

Section CsvFile.

Variable stringifyRecords : list Row -> string.

(** The file after the calls [writeRecords(rs)] for the [rs] of [writes],
    in order. *)
Definition appendWrites (writes : list (list Row)) (text : string) : string :=
  fold_left (fun t rs => (t ++ stringifyRecords rs)%string) writes text.

(** One execution of a script that makes the calls [writes]. *)
Definition runOnFile (file : option string) (writes : list (list Row))
  : option string :=
  Some (appendWrites writes (ensureHeader file)).

(** Several executions, one after the other, on the same file. *)
Definition runsOnFile (file : option string)
    (runs : list (list (list Row))) : option string :=
  fold_left runOnFile runs file.

End CsvFile.

(** A text of records without quoting, as a sample: one line
    [owner,id] per record. *)
Definition plainRecords (rs : list Row) : string :=
  fold_right (fun r text =>
                (fst r ++ "," ++ JS.numberToString (snd r)
                 ++ String "010" EmptyString ++ text)%string)
             EmptyString rs.

(** The outer loop has just started or has just left a batch of the
    range. *)
Definition afterBatch (cfg : Config) (s : State) : Prop :=
  loop_i s = startTokenId cfg \/
  loop_i s - batchSize cfg <= endTokenId cfg.

(** * Properties *)

(** ** Loops, strings and sorting *)

Lemma range_cons (lo hi : Z) :
  lo <= hi -> JS.range lo hi = lo :: JS.range (lo + 1) hi.
Proof.
  intros H. unfold JS.range.
  replace (Z.to_nat (hi - lo + 1)) with (S (Z.to_nat (hi - (lo + 1) + 1))) by lia.
  cbn [seq map]. f_equal; [lia|].
  rewrite <- seq_shift, map_map. apply map_ext. intros k. lia.
Qed.

Lemma range_nil (lo hi : Z) : hi < lo -> JS.range lo hi = [].
Proof.
  intros H. unfold JS.range.
  replace (Z.to_nat (hi - lo + 1)) with O by lia. reflexivity.
Qed.

Lemma range_length (lo hi : Z) :
  List.length (JS.range lo hi) = Z.to_nat (hi - lo + 1).
Proof. unfold JS.range. now rewrite length_map, length_seq. Qed.

Lemma range_In (lo hi j : Z) : In j (JS.range lo hi) <-> lo <= j <= hi.
Proof.
  unfold JS.range. rewrite in_map_iff. split.
  - intros (k & <- & Hk). apply in_seq in Hk. lia.
  - intros H. exists (Z.to_nat (j - lo)). split; [lia|].
    apply in_seq. lia.
Qed.

Lemma range_app (lo m hi : Z) :
  lo <= m -> m <= hi + 1 ->
  JS.range lo hi = JS.range lo (m - 1) ++ JS.range m hi.
Proof.
  intros H1 H2. unfold JS.range.
  replace (Z.to_nat (hi - lo + 1))
    with (Z.to_nat (m - 1 - lo + 1) + Z.to_nat (hi - m + 1))%nat by lia.
  rewrite seq_app, map_app. f_equal.
  rewrite Nat.add_0_l.
  rewrite <- (Nat.add_0_r (Z.to_nat (m - 1 - lo + 1))) at 1.
  generalize (Z.to_nat (hi - m + 1)) as n. intros n.
  replace (Z.to_nat (m - 1 - lo + 1) + 0)%nat
    with (0 + Z.to_nat (m - 1 - lo + 1))%nat by lia.
  generalize 0%nat as a. induction n as [|n IH]; intros a; [reflexivity|].
  cbn [seq map]. f_equal; [lia|]. apply (IH (S a)).
Qed.

Lemma range_sorted (lo hi : Z) : StronglySorted Z.lt (JS.range lo hi).
Proof.
  unfold JS.range. generalize (Z.to_nat (hi - lo + 1)) as n.
  generalize 0%nat as a. intros a n. revert a.
  induction n as [|n IH]; intros a; cbn [seq map]; constructor.
  - apply IH.
  - apply Forall_forall. intros x Hx. apply in_map_iff in Hx.
    destruct Hx as (k & <- & Hk). apply in_seq in Hk. lia.
Qed.

Lemma sorted_lt_NoDup (l : list Z) : StronglySorted Z.lt l -> NoDup l.
Proof.
  induction 1 as [|a l Hs IH Hf]; constructor; auto.
  intros Hin. rewrite Forall_forall in Hf. specialize (Hf _ Hin). lia.
Qed.

Lemma range_NoDup (lo hi : Z) : NoDup (JS.range lo hi).
Proof. apply sorted_lt_NoDup, range_sorted. Qed.

Lemma startsWith_spec (s p : string) :
  JS.startsWith s p = true <-> exists post, s = (p ++ post)%string.
Proof.
  revert s. induction p as [|a p IH]; intros s; cbn [JS.startsWith].
  - split; [intros _; now exists s | intros _; now destruct s].
  - destruct s as [|b s].
    + split; [discriminate | intros (post & H); discriminate].
    + cbn [JS.startsWith]. rewrite andb_true_iff, Ascii.eqb_eq, IH. split.
      * intros (-> & post & ->). now exists post.
      * intros (post & H). cbn in H. injection H as -> ->. eauto.
Qed.

Lemma includes_spec (s sub : string) :
  JS.includes s sub = true <->
  exists pre post, s = (pre ++ sub ++ post)%string.
Proof.
  induction s as [|b s IH]; cbn [JS.includes]; rewrite orb_true_iff.
  - rewrite startsWith_spec. split.
    + intros [(post & H) | H]; [|discriminate]. now exists EmptyString, post.
    + intros (pre & post & H). left. destruct pre; [now exists post|discriminate].
  - rewrite startsWith_spec, IH. split.
    + intros [(post & H) | (pre & post & H)].
      * now exists EmptyString, post.
      * exists (String b pre), post. cbn. now rewrite H.
    + intros (pre & post & H). destruct pre as [|c pre].
      * left. now exists post.
      * right. cbn in H. injection H as _ ->. eauto.
Qed.

Section Sorting.

Context {A : Type} (key : A -> Z).

Lemma insert_perm (x : A) (l : list A) : Permutation (JS.insert key x l) (x :: l).
Proof.
  induction l as [|y l IH]; cbn [JS.insert]; [reflexivity|].
  destruct (key x <=? key y); [reflexivity|].
  rewrite IH. apply perm_swap.
Qed.

Lemma sort_perm (l : list A) : Permutation (JS.sort key l) l.
Proof.
  induction l as [|x l IH]; cbn [JS.sort]; [reflexivity|].
  rewrite insert_perm. now constructor.
Qed.

Lemma insert_sorted (x : A) (l : list A) :
  StronglySorted (keyLe key) l -> StronglySorted (keyLe key) (JS.insert key x l).
Proof.
  induction 1 as [|y l Hs IH Hf]; cbn [JS.insert].
  - repeat constructor.
  - destruct (Z.leb_spec (key x) (key y)) as [Hle|Hlt].
    + constructor; [now constructor|]. constructor; [exact Hle|].
      revert Hf. apply Forall_impl. unfold keyLe. intros; lia.
    + constructor; [exact IH|].
      eapply Permutation_Forall.
      * symmetry. apply insert_perm.
      * constructor; [unfold keyLe; lia | exact Hf].
Qed.

Lemma sort_sorted (l : list A) : StronglySorted (keyLe key) (JS.sort key l).
Proof.
  induction l as [|x l IH]; cbn [JS.sort]; [constructor|].
  now apply insert_sorted.
Qed.

Lemma sort_of_sorted (l : list A) :
  StronglySorted (keyLe key) l -> JS.sort key l = l.
Proof.
  induction 1 as [|x l Hs IH Hf]; cbn [JS.sort]; [reflexivity|].
  rewrite IH. destruct l as [|y l]; [reflexivity|]. cbn [JS.insert].
  inversion Hf as [|? ? Hxy _]; subst. unfold keyLe in Hxy.
  destruct (Z.leb_spec (key x) (key y)); [reflexivity|lia].
Qed.

Lemma sorted_le_lt (l : list A) :
  StronglySorted (keyLe key) l -> NoDup (map key l) -> StronglySorted (keyLt key) l.
Proof.
  induction 1 as [|x l Hs IH Hf]; intros Hnd; [constructor|].
  cbn in Hnd. inversion Hnd as [|? ? Hx Hnd']; subst.
  constructor; [auto|]. rewrite Forall_forall in *. intros y Hy.
  specialize (Hf _ Hy). unfold keyLe, keyLt in *.
  assert (key x <> key y); [|lia].
  intros E. apply Hx. rewrite E. now apply in_map.
Qed.

Lemma sorted_lt_unique (l1 l2 : list A) :
  StronglySorted (keyLt key) l1 -> StronglySorted (keyLt key) l2 ->
  Permutation l1 l2 -> l1 = l2.
Proof.
  intros H1. revert l2. induction H1 as [|a l1 Hs1 IH Hf1]; intros l2 H2 Hp.
  - apply Permutation_nil in Hp. now subst.
  - destruct H2 as [|b l2 Hs2 Hf2].
    + symmetry in Hp. apply Permutation_nil in Hp. discriminate.
    + assert (a = b) as ->.
      { assert (Ha : In a (b :: l2)) by (eapply Permutation_in; [exact Hp|now left]).
        assert (Hb : In b (a :: l1))
          by (eapply Permutation_in; [symmetry; exact Hp|now left]).
        rewrite Forall_forall in Hf1, Hf2. unfold keyLt in *.
        destruct Ha as [->|Ha]; [reflexivity|].
        destruct Hb as [->|Hb]; [reflexivity|].
        specialize (Hf1 _ Hb). specialize (Hf2 _ Ha). lia. }
      f_equal. apply IH; [exact Hs2|]. eapply Permutation_cons_inv, Hp.
Qed.

End Sorting.

(** ** The retry policy *)

Lemma map_seq_sorted (f : nat -> Z) (a n : nat) :
  (forall i j, (i <= j)%nat -> f i <= f j) ->
  StronglySorted (keyLe (fun t => t)) (map f (seq a n)).
Proof.
  intros Hf. revert a. induction n as [|n IH]; intros a; cbn [seq map].
  - constructor.
  - constructor; [apply IH|]. apply Forall_forall. intros x Hx.
    apply in_map_iff in Hx. destruct Hx as (k & <- & Hk).
    apply in_seq in Hk. apply Hf. lia.
Qed.

Lemma createTimeout_mono (opts : Retry.Options) (i j : nat) :
  1 <= Retry.factor opts -> (i <= j)%nat ->
  Retry.createTimeout i opts <= Retry.createTimeout j opts.
Proof.
  intros Hf Hij. unfold Retry.createTimeout.
  apply Z.min_le_compat_r. apply Z.mul_le_mono_nonneg_l; [lia|].
  apply Z.pow_le_mono_r; lia.
Qed.

Lemma timeouts_in_order (opts : Retry.Options) :
  1 <= Retry.factor opts ->
  Retry.timeouts opts =
  map (fun i => Retry.createTimeout i opts) (seq 0 (Retry.retries opts)).
Proof.
  intros Hf. unfold Retry.timeouts. apply sort_of_sorted.
  apply map_seq_sorted. intros i j. now apply createTimeout_mono.
Qed.

Lemma timeouts_length (opts : Retry.Options) :
  List.length (Retry.timeouts opts) = Retry.retries opts.
Proof.
  unfold Retry.timeouts.
  rewrite (Permutation_length (sort_perm _ _)).
  now rewrite length_map, length_seq.
Qed.

Lemma consult_nth (k a : nat) (ts : list Z) :
  Retry.consult (S k) {| Retry._timeouts := ts; Retry._attempts := a |} =
  option_map (fun t => (t, (a + k)%nat)) (nth_error ts k).
Proof.
  revert a ts. induction k as [|k IH]; intros a ts.
  - destruct ts as [|t ts]; cbn; [reflexivity|]. now rewrite Nat.add_0_r.
  - destruct ts as [|t ts]; [reflexivity|].
    change (Retry.consult (S (S k)) {| Retry._timeouts := t :: ts; Retry._attempts := a |})
      with (Retry.consult (S k) {| Retry._timeouts := ts; Retry._attempts := S a |}).
    rewrite IH. cbn [nth_error]. destruct (nth_error ts k); cbn; [|reflexivity].
    do 2 f_equal. lia.
Qed.

(** C4. The delay of attempt [k] (counted from 1) is
    [min (minTimeout * factor^(k-1)) maxTimeout]: it is the timeout the
    policy hands out when it is consulted for the [k]-th time, the attempt
    counter of the operation being [k], and the next call is made when it
    has elapsed.  The policy refuses, i.e. is exhausted, exactly when this
    index exceeds [retries]. *)
Theorem retry_policy_delay (opts : Retry.Options) (k : nat) :
  1 <= Retry.minTimeout opts <= Retry.maxTimeout opts ->
  1 <= Retry.factor opts ->
  (1 <= k)%nat ->
  Retry.consult k (Retry.operation opts) =
  if Retry.isExhausted (Retry.retries opts) k then None
  else Some (Retry.nextDelay (Retry.minTimeout opts) (Retry.factor opts)
                             (Retry.maxTimeout opts) k, k).
Proof.
  intros Hmin Hf Hk. destruct k as [|k]; [lia|].
  unfold Retry.operation. rewrite consult_nth, timeouts_in_order by exact Hf.
  unfold Retry.isExhausted.
  destruct (Nat.ltb_spec (Retry.retries opts) (S k)) as [Hex|Hin].
  - replace (nth_error _ k) with (@None Z); [reflexivity|].
    symmetry. apply nth_error_None. rewrite length_map, length_seq. lia.
  - rewrite nth_error_map, nth_error_seq.
    destruct (Nat.ltb_spec k (Retry.retries opts)) as [_|]; [|lia].
    cbn [option_map]. unfold Retry.nextDelay, Retry.createTimeout.
    do 3 f_equal. rewrite Z.max_l by lia. f_equal. f_equal. lia.
Qed.

(** With the options of the scripts: 1000, 2000, 4000, 8000, 8000 for the
    attempts 1 to 5, a tenth delay, and no eleventh. *)
Lemma retry_policy_delay_witness :
  map (fun k => Retry.consult k (Retry.operation scriptRetryOptions))
      [1; 2; 3; 4; 5; 10; 11]%nat =
  [Some (1000, 1%nat); Some (2000, 2%nat); Some (4000, 3%nat);
   Some (8000, 4%nat); Some (8000, 5%nat); Some (8000, 10%nat); None].
Proof.
  cbn [map].
  rewrite !(retry_policy_delay scriptRetryOptions) by (cbn; lia).
  reflexivity.
Defined.

(** ** The call classifier *)

Lemma invalidTokenId_spec (e : Error) :
  invalidTokenId e = true <->
  code e = Some "CALL_EXCEPTION"%string /\
  exists r pre post,
    reason e = Some r /\ r = (pre ++ "invalid token ID" ++ post)%string.
Proof.
  unfold invalidTokenId. destruct (code e) as [c|].
  2: { split; [discriminate | intros [H _]; discriminate]. }
  rewrite andb_true_iff, String.eqb_eq. destruct (reason e) as [r|].
  2: { split; [intros [_ H]; discriminate
              | intros (_ & r & pre & post & H & _); discriminate]. }
  rewrite andb_true_iff, includes_spec, negb_true_iff. split.
  - intros (-> & _ & pre & post & ->). split; [reflexivity|]. eauto.
  - intros (H & r' & pre & post & Hr & E). injection H as ->.
    injection Hr as ->. split; [reflexivity|]. split; [|eauto].
    subst r'. apply String.eqb_neq. destruct pre; discriminate.
Qed.

(** ** Sinks, lookups and traces *)

Lemma Holds_same {X : Type} (S S' : Z -> Prop) (key : X -> Z) sel sink :
  Holds S key sel sink -> (forall j, S' j <-> S j) -> Holds S' key sel sink.
Proof.
  intros [Hnd Hin] HS. split; [exact Hnd|].
  intros x. now rewrite Hin, HS.
Qed.

Lemma Holds_perm {X : Type} (S : Z -> Prop) (key : X -> Z) sel sink sink' :
  Holds S key sel sink -> Permutation sink sink' -> Holds S key sel sink'.
Proof.
  intros [Hnd Hin] Hp. split.
  - eapply Permutation_NoDup; [apply Permutation_map; exact Hp|exact Hnd].
  - intros x. rewrite <- Hin.
    split; apply Permutation_in; [symmetry|]; exact Hp.
Qed.

Lemma Holds_step {X : Type} (S S' : Z -> Prop) (grows : Prop)
    (key : X -> Z) sel sink sink' j0 :
  Holds S key sel sink ->
  SinkStep grows key sel sink sink' j0 ->
  (grows -> ~ S j0) ->
  (forall j, S' j <-> S j \/ (j = j0 /\ grows)) ->
  Holds S' key sel sink'.
Proof.
  intros [Hnd Hin] Hstep Hfresh HS.
  destruct Hstep as [[-> Hno] | (Hg & x0 & -> & Hk & Hsel & Huniq)].
  - split; [exact Hnd|]. intros x. rewrite Hin, HS. split.
    + intros [H1 H2]; auto.
    + intros [[H1 | [H1 H2]] H3]; [auto|]. exfalso. eapply Hno; eauto.
  - split.
    + rewrite map_app. cbn [map]. eapply Permutation_NoDup.
      * apply Permutation_cons_append.
      * constructor; [|exact Hnd]. intros Hj. apply in_map_iff in Hj.
        destruct Hj as (x & Hx & Hxin). apply Hin in Hxin.
        apply (Hfresh Hg). rewrite <- Hk, <- Hx. tauto.
    + intros x. rewrite in_app_iff, Hin, HS. cbn [In]. split.
      * intros [[H1 H2] | [<- | []]]; [auto|]. split; [|exact Hsel].
        right. auto.
      * intros [[H1 | [H1 H2]] H3]; [auto|]. right. left.
        symmetry. now apply Huniq.
Qed.

Lemma lookup_Some (j : Z) (b : list Item) (it : Item) :
  lookup j b = Some it -> tokenId it = j /\ In it b.
Proof.
  unfold lookup. intros H. apply find_some in H. destruct H as [H1 H2].
  split; [lia|exact H1].
Qed.

Lemma lookup_None (j : Z) (b : list Item) :
  lookup j b = None <-> ~ In j (map tokenId b).
Proof.
  unfold lookup. induction b as [|it b IH]; cbn [find map In]; [tauto|].
  destruct (Z.eqb_spec (tokenId it) j) as [E|E].
  - split; [discriminate | tauto].
  - rewrite IH. tauto.
Qed.

Lemma lookup_ids (j : Z) (b : list Item) (it : Item) :
  lookup j b = Some it -> In j (map tokenId b).
Proof.
  intros H. apply lookup_Some in H. destruct H as [<- H]. now apply in_map.
Qed.

Lemma lookup_new (f : Z -> Item) (j : Z) (l : list Z) :
  (forall x, tokenId (f x) = x) ->
  lookup j (map f l) = if in_dec Z.eq_dec j l then Some (f j) else None.
Proof.
  intros Hf. destruct (in_dec Z.eq_dec j l) as [Hin|Hin].
  - unfold lookup. induction l as [|x l IH]; [contradiction|]. cbn [map find].
    rewrite Hf. destruct (Z.eqb_spec x j) as [->|E]; [reflexivity|].
    apply IH. destruct Hin; [contradiction|assumption].
  - apply lookup_None. rewrite map_map.
    rewrite (map_ext _ (fun x => x)), map_id; auto.
Qed.

Lemma all_resolved_lookup (b : list Item) (j : Z) (it : Item) :
  forallb isResolved b = true -> lookup j b = Some it -> phase it = Resolved.
Proof.
  intros Hall H. apply lookup_Some in H. destruct H as [_ Hin].
  rewrite forallb_forall in Hall. specialize (Hall _ Hin).
  unfold isResolved in Hall. now destruct (phase it).
Qed.

Lemma all_resolved_filter (b : list Item) :
  forallb isResolved b = true -> filter isResolved b = b.
Proof.
  induction b as [|it b IH]; cbn [forallb filter]; [reflexivity|].
  intros H. apply andb_true_iff in H. destruct H as [H1 H2].
  rewrite H1. f_equal. auto.
Qed.

Lemma calls_app (j : Z) (t1 t2 : list Event) :
  calls j (t1 ++ t2) = (calls j t1 + calls j t2)%nat.
Proof. unfold calls. now rewrite filter_app, length_app. Qed.

Lemma sleeps_app (t1 t2 : list Event) :
  sleeps (t1 ++ t2) = (sleeps t1 + sleeps t2)%nat.
Proof. unfold sleeps. now rewrite filter_app, length_app. Qed.

Lemma calls_launch (j : Z) (l : list Z) :
  NoDup l ->
  calls j (map (fun x => EvCall x 1) l) =
  if in_dec Z.eq_dec j l then 1%nat else 0%nat.
Proof.
  unfold calls. induction 1 as [|x l Hx Hnd IH]; [reflexivity|].
  cbn [map filter]. destruct (Z.eqb_spec x j) as [->|E].
  - cbn [List.length]. rewrite IH.
    destruct (in_dec Z.eq_dec j l) as [Hi|Hn]; [contradiction|].
    destruct (in_dec Z.eq_dec j (j :: l)) as [Hi'|Hn']; [reflexivity|].
    exfalso. apply Hn'. now left.
  - rewrite IH. destruct (in_dec Z.eq_dec j l) as [Hi|Hn];
      destruct (in_dec Z.eq_dec j (x :: l)) as [Hi'|Hn']; try reflexivity.
    + exfalso. apply Hn'. now right.
    + destruct Hi'; [contradiction|contradiction].
Qed.

Lemma sleeps_launch (l : list Z) : sleeps (map (fun x => EvCall x 1) l) = 0%nat.
Proof. unfold sleeps. induction l; cbn; auto. Qed.

Lemma resolve_launch (j : Z) (l : list Z) :
  ~ In (EvResolve j) (map (fun x => EvCall x 1) l).
Proof. intros H. apply in_map_iff in H. destruct H as (x & H & _). discriminate. Qed.

(** ** One callback of one fetcher *)

Section RunProofs.

Variable v : Variant.
Variable cfg : Config.
Variable transport : Transport.

Lemma fetchFrom_bounds (j : Z) (ts : list Z) (a : nat) :
  (a <= snd (fetchFrom transport j a ts) <= a + List.length ts)%nat.
Proof.
  revert a. induction ts as [|t ts IH]; intros a; cbn [fetchFrom].
  - destruct (transport j a) as [owner|e]; cbn; [lia|].
    destruct (invalidTokenId e); cbn; lia.
  - destruct (transport j a) as [owner|e]; cbn [snd List.length]; [lia|].
    destruct (invalidTokenId e); cbn [snd]; [lia|].
    specialize (IH (S a)). lia.
Qed.

Lemma fetch_bounds (j : Z) :
  (1 <= snd (fetch cfg transport j) <= S (Retry.retries (retryOptions cfg)))%nat.
Proof.
  unfold fetch.
  pose proof (fetchFrom_bounds j (Retry.timeouts (retryOptions cfg)) 1) as H.
  rewrite timeouts_length in H. lia.
Qed.

Ltac sink_unchanged Hfetch :=
  left; split; [reflexivity|];
  let Hg := fresh "Hg" in let x := fresh "x" in
  let Hx := fresh "Hx" in let Hs := fresh "Hs" in
  intros Hg x Hx Hs;
  first
    [ discriminate Hg
    | unfold ownedSel, absentSel, failedSel in Hs;
      subst; rewrite Hfetch in Hs; cbn in Hs; congruence ].

Ltac rows_unchanged Hfetch :=
  left; split; [reflexivity|];
  let Hg := fresh "Hg" in let x := fresh "x" in
  let Hx := fresh "Hx" in let Hs := fresh "Hs" in
  intros Hg x Hx Hs;
  first
    [ destruct Hg as [Hg [Hg' | Hg']]; first [discriminate Hg' | congruence]
    | unfold ownedSel in Hs;
      subst; rewrite Hfetch in Hs; cbn in Hs; congruence ].

Ltac sink_extended x0 Hfetch :=
  right; split;
  [ first [ reflexivity | split; [discriminate | auto] ]
  | exists x0; split; [reflexivity|]; split; [reflexivity|]; split;
    [ unfold ownedSel, absentSel, failedSel; cbn; now rewrite Hfetch
    | let x := fresh "x" in let Hx := fresh "Hx" in let Hs := fresh "Hs" in
      intros x Hx Hs; unfold ownedSel, absentSel, failedSel in Hs;
      try (destruct x; cbn in Hx, Hs); subst;
      try reflexivity; rewrite Hfetch in Hs; cbn in Hs; congruence ] ].

Lemma onEvent_spec (it it' : Item) (o o' : Sinks) :
  onEvent v transport it o = (it', o') ->
  itemOk v cfg transport it ->
  phase it <> Resolved ->
  tokenId it' = tokenId it /\
  itemOk v cfg transport it' /\
  (phase it = Writing -> phase it' = Resolved) /\
  SinkStep (becomesWritten it it') snd (ownedSel cfg transport)
           (rowSink v o) (rowSink v o') (tokenId it) /\
  SinkStep (phase it' = Resolved) (fun j => j) (absentSel cfg transport)
           (warned o) (warned o') (tokenId it) /\
  SinkStep (phase it' = Resolved) fst (failedSel cfg transport)
           (errorLog o) (errorLog o') (tokenId it) /\
  progress o' = (progress o + if isResolved it' then 1 else 0)%nat /\
  (exists es, trace o' = trace o ++ es /\ TraceStep (tokenId it) it it' es) /\
  match v with
  | WriteImmediately => results o' = results o
  | SortAtEnd => csv o' = csv o
  end.
Proof.
  unfold onEvent, itemOk, TraceStep. intros H Hok Hnr.
  destruct it as [j [ts a] ph].
  cbn [tokenId operation phase Retry._attempts Retry._timeouts] in *.
  destruct ph; [| | |contradiction].
  - (* the remote call settles *)
    destruct Hok as [Hf Hlen].
    destruct (transport j a) as [owner|e] eqn:Etr.
    + assert (Hfetch : fetch cfg transport j = (Owned owner, a)).
      { rewrite <- Hf. destruct ts; cbn [fetchFrom]; now rewrite Etr. }
      destruct v; injection H as <- <-;
        cbn [setPhase tokenId operation phase Retry._attempts
             Retry._timeouts isResolved rowSink writeRecords emit increment
             pushResult results csv warned errorLog progress trace].
      * split; [reflexivity|]. split; [eauto|]. split; [discriminate|].
        split; [sink_extended (owner, j) Hfetch|].
        split; [sink_unchanged Hfetch|]. split; [sink_unchanged Hfetch|].
        split; [lia|]. split; [|reflexivity].
        exists []. rewrite app_nil_r. auto.
      * split; [reflexivity|]. split; [now rewrite Hfetch|].
        split; [discriminate|].
        split; [sink_extended (owner, j) Hfetch|].
        split; [sink_unchanged Hfetch|]. split; [sink_unchanged Hfetch|].
        split; [lia|]. split; [|reflexivity].
        exists [EvResolve j]. split; [reflexivity|]. right. left. auto.
    + destruct (invalidTokenId e) eqn:Einv.
      * assert (Hfetch : fetch cfg transport j = (Absent, a)).
        { rewrite <- Hf. destruct ts; cbn [fetchFrom]; now rewrite Etr, Einv. }
        injection H as <- <-;
        cbn [setPhase tokenId operation phase Retry._attempts
             Retry._timeouts isResolved rowSink consoleWarn emit increment
             results csv warned errorLog progress trace].
        split; [reflexivity|]. split; [now rewrite Hfetch|].
        split; [discriminate|].
        split; [destruct v; rows_unchanged Hfetch|].
        split; [sink_extended j Hfetch|]. split; [sink_unchanged Hfetch|].
        split; [lia|]. split; [|now destruct v].
        exists [EvResolve j]. split; [reflexivity|]. right. left. auto.
      * unfold Retry.retry in H. cbn [Retry._timeouts Retry._attempts] in H.
        destruct ts as [|t ts].
        -- assert (Hfetch : fetch cfg transport j = (Failed (message e), a)).
           { rewrite <- Hf. cbn [fetchFrom]. now rewrite Etr, Einv. }
           injection H as <- <-;
           cbn [setPhase tokenId operation phase Retry._attempts
                Retry._timeouts isResolved rowSink writeErrorLog emit
                increment results csv warned errorLog progress trace].
           split; [reflexivity|]. split; [now rewrite Hfetch|].
           split; [discriminate|].
           split; [destruct v; rows_unchanged Hfetch|].
           split; [sink_unchanged Hfetch|].
           split; [sink_extended (j, message e) Hfetch|].
           split; [lia|]. split; [|now destruct v].
           exists [EvResolve j]. split; [reflexivity|]. right. left. auto.
        -- injection H as <- <-;
           cbn [tokenId operation phase Retry._attempts
                Retry._timeouts isResolved rowSink emit
                results csv warned errorLog progress trace].
           cbn [fetchFrom] in Hf. rewrite Etr, Einv in Hf.
           cbn [List.length] in Hlen.
           split; [reflexivity|]. split; [split; [exact Hf|lia]|].
           split; [discriminate|].
           split; [destruct v; rows_unchanged Hf|].
           split; [sink_unchanged Hf|]. split; [sink_unchanged Hf|].
           split; [lia|]. split; [|now destruct v].
           exists [EvBackoff j t]. split; [reflexivity|]. right. right. left. eauto.
  - (* the retry timer fires *)
    destruct Hok as [Hf Hlen]. injection H as <- <-.
    cbn [tokenId operation phase Retry.fire Retry._attempts
         Retry._timeouts isResolved rowSink emit
         results csv warned errorLog progress trace].
    split; [reflexivity|]. split; [split; [exact Hf|lia]|].
    split; [discriminate|].
    split; [destruct v; rows_unchanged Hf|].
    split; [sink_unchanged Hf|]. split; [sink_unchanged Hf|].
    split; [lia|]. split; [|now destruct v].
    exists [EvCall j (S a)]. split; [reflexivity|]. right. right. right. auto.
  - (* the file write completes *)
    destruct Hok as [Hv [owner Hfetch]]. injection H as <- <-.
    cbn [setPhase tokenId operation phase Retry._attempts
         Retry._timeouts isResolved rowSink emit increment
         results csv warned errorLog progress trace].
    split; [reflexivity|]. split; [now rewrite Hfetch|].
    split; [reflexivity|].
    split; [left; split; [reflexivity|]; intros [Hg _]; exfalso; now apply Hg|].
    split; [sink_unchanged Hfetch|]. split; [sink_unchanged Hfetch|].
    split; [lia|]. split; [|now destruct v].
    exists [EvResolve j]. split; [reflexivity|]. right. left. auto.
Qed.

Lemma TraceStep_facts (j0 : Z) (it it' : Item) (es : list Event) :
  TraceStep j0 it it' es ->
  sleeps es = 0%nat /\
  (forall j, In (EvResolve j) es <-> j = j0 /\ phase it' = Resolved) /\
  (forall j, calls j es =
             if j =? j0
             then (Retry._attempts (operation it')
                   - Retry._attempts (operation it))%nat
             else 0%nat) /\
  (Retry._attempts (operation it) <= Retry._attempts (operation it'))%nat.
Proof.
  unfold TraceStep.
  intros [(-> & Hp & Ha) | [(-> & Hp & Ha) | [(Hp & Ha & t & ->) | (-> & Hp & Ha)]]];
    rewrite Hp, Ha; (split; [reflexivity|]); (split; [|split; [|lia]]);
    intros j; cbn [In];
    unfold calls; cbn [filter List.length];
    try (rewrite (Z.eqb_sym j0 j); destruct (Z.eqb_spec j j0));
    try (destruct (j =? j0)); cbn [List.length];
    try lia; try (split; [intros [E|[]]; try discriminate; injection E; auto
                         | intros [E1 E2]; try discriminate; subst; auto]);
    try (split; [intros [] | intros [_ E]; discriminate]).
Qed.

Lemma settle_spec (j : Z) (b b' : list Item) (o o' : Sinks) :
  settle v transport j b o = Some (b', o') ->
  (forall it o1, tokenId (fst (onEvent v transport it o1)) = tokenId it) ->
  exists it it',
    lookup j b = Some it /\ phase it <> Resolved /\
    onEvent v transport it o = (it', o') /\
    (forall j', lookup j' b' = if j' =? j then Some it' else lookup j' b) /\
    map tokenId b' = map tokenId b /\
    List.length (filter isResolved b') =
    (List.length (filter isResolved b) + if isResolved it' then 1 else 0)%nat /\
    (batchWork b' + itemWork it = batchWork b + itemWork it')%nat.
Proof.
  intros H Hid. revert b' o' H.
  induction b as [|x b IH]; intros b' o' H; [discriminate|].
  cbn [settle] in H. unfold lookup. cbn [find].
  destruct (Z.eqb_spec (tokenId x) j) as [E|E].
  - destruct (isResolved x) eqn:Hx; [discriminate|].
    destruct (onEvent v transport x o) as [x' o1] eqn:Hev.
    injection H as <- <-. exists x, x'.
    pose proof (Hid x o) as Hid'. rewrite Hev in Hid'. cbn [fst] in Hid'.
    split; [reflexivity|]. split.
    { unfold isResolved in Hx. intros Hp. now rewrite Hp in Hx. }
    split; [exact Hev|]. split.
    { intros j'. unfold lookup. cbn [find]. rewrite Hid'.
      destruct (Z.eqb_spec j' j) as [->|Hne].
      - destruct (Z.eqb_spec (tokenId x) j); [reflexivity|contradiction].
      - destruct (Z.eqb_spec (tokenId x) j'); [lia|reflexivity]. }
    split; [cbn [map]; now rewrite Hid'|].
    split; [cbn [filter]; rewrite Hx; destruct (isResolved x'); cbn [List.length]; lia|].
    unfold batchWork. cbn [fold_right]. lia.
  - destruct (settle v transport j b o) as [[b1 o1]|] eqn:Hs; [|discriminate].
    injection H as <- <-.
    destruct (IH _ _ eq_refl) as (it & it' & H1 & H2 & H3 & H4 & H5 & H6 & H7).
    exists it, it'. split; [exact H1|]. split; [exact H2|].
    split; [exact H3|]. split.
    { intros j'. unfold lookup. cbn [find].
      destruct (Z.eqb_spec (tokenId x) j') as [E'|E'].
      - destruct (Z.eqb_spec j' j); [lia|reflexivity].
      - apply H4. }
    split; [cbn [map]; now rewrite H5|].
    split; [cbn [filter]; destruct (isResolved x); cbn [List.length]; lia|].
    unfold batchWork in *. cbn [fold_right]. lia.
Qed.

Lemma onEvent_tokenId (it : Item) (o : Sinks) :
  tokenId (fst (onEvent v transport it o)) = tokenId it.
Proof.
  unfold onEvent. destruct (phase it); try reflexivity.
  destruct (transport _ _); [destruct v; reflexivity|].
  destruct (invalidTokenId _); [reflexivity|].
  destruct (Retry.retry _) as [[t op]|]; reflexivity.
Qed.

(** ** The invariant of the run *)

Lemma Inv_settle (s : State) (j : Z) (b' : list Item) (o' : Sinks) :
  Inv v cfg transport s ->
  running s = true ->
  settle v transport j (batchPromises s) (out s) = Some (b', o') ->
  Inv v cfg transport
      {| loop_i := loop_i s; running := true; batchPromises := b'; out := o' |}.
Proof.
  intros HI Hrun Hs.
  destruct (settle_spec _ _ _ _ _ Hs onEvent_tokenId)
    as (it & it' & Hl & Hnr & Hev & Hlk & Hids & Hcnt & _).
  pose proof (inv_items _ _ _ _ HI _ _ Hl) as Hok.
  destruct (onEvent_spec _ _ _ _ Hev Hok Hnr)
    as (Hid & Hok' & Hw & Hrows & Hwarn & Herr & Hprog & (es & Htr & Hts) & Hoth).
  destruct (lookup_Some _ _ _ Hl) as [Hj _]. rewrite Hj in *.
  destruct (TraceStep_facts _ _ _ _ Hts) as (Hsl & Hres & Hcalls & Hmono).
  pose proof (inv_ctrl _ _ _ _ HI) as Hc. rewrite Hrun in Hc.
  destruct Hc as [Hle Hwin].
  assert (Hpast : past cfg (loop_i s) j = false).
  { apply lookup_ids in Hl. rewrite Hwin in Hl. apply range_In in Hl.
    unfold past. destruct (Z.ltb_spec j (loop_i s)); [lia|].
    now rewrite andb_false_r. }
  assert (Hdone : forall j', done cfg
      {| loop_i := loop_i s; running := true;
         batchPromises := b'; out := o' |} j' <->
                             done cfg s j' \/ (j' = j /\ phase it' = Resolved)).
  { intros j'. unfold done. cbn [loop_i batchPromises]. rewrite Hlk.
    destruct (Z.eqb_spec j' j) as [->|Hne].
    - split.
      + intros [H | (x & Hx & Hp)]; [auto|]. injection Hx as <-. auto.
      + intros [[H | (x & Hx & Hp)] | [_ Hp]]; [auto| |eauto].
        rewrite Hl in Hx. injection Hx as <-. contradiction.
    - split; [auto|]. intros [H | [E _]]; [exact H|contradiction]. }
  assert (Hwritten : forall j', written cfg
      {| loop_i := loop_i s; running := true;
         batchPromises := b'; out := o' |} j' <->
                                written cfg s j' \/ (j' = j /\ becomesWritten it it')).
  { intros j'. unfold written. rewrite Hdone. cbn [batchPromises].
    rewrite Hlk. unfold becomesWritten.
    destruct (Z.eqb_spec j' j) as [->|Hne].
    - split.
      + intros [[H | [_ Hp]] | (x & Hx & Hp)].
        * auto.
        * destruct (phase it) eqn:Ep; try (right; split; [split; [discriminate|auto]|auto]; fail);
            try (right; split; [reflexivity|split; [discriminate|auto]]; fail).
          left. right. eauto.
        * injection Hx as <-.
          destruct (phase it) eqn:Ep;
            try (right; split; [reflexivity|split; [discriminate|auto]]; fail).
          left. right. eauto.
      + intros [[H | (x & Hx & Hp)] | [_ [Hn [Hp | Hp]]]].
        * auto.
        * rewrite Hl in Hx. injection Hx as <-. left. right. auto.
        * left. right. auto.
        * right. eauto.
    - split.
      + intros [[H | [E _]] | H]; [auto|contradiction|auto].
      + intros [[H | H] | [E _]]; [auto|auto|contradiction]. }
  constructor; cbn [loop_i running batchPromises out].
  - apply (inv_start _ _ _ _ HI).
  - destruct (inv_iter _ _ _ _ HI) as (k & Hk1 & Hk2). exists k.
    split; [exact Hk1|]. rewrite Htr, sleeps_app, Hsl. lia.
  - split; [exact Hle|]. now rewrite Hids.
  - intros j' x Hx. rewrite Hlk in Hx. destruct (j' =? j).
    + now injection Hx as <-.
    + apply (inv_items _ _ _ _ HI _ _ Hx).
  - eapply Holds_step; [apply (inv_rows _ _ _ _ HI)|exact Hrows| |exact Hwritten].
    intros [Hn _] [[H | (x & Hx & Hp)] | (x & Hx & Hp)].
    + congruence.
    + rewrite Hl in Hx. injection Hx as <-. contradiction.
    + rewrite Hl in Hx. injection Hx as <-. contradiction.
  - eapply Holds_step; [apply (inv_warned _ _ _ _ HI)|exact Hwarn| |exact Hdone].
    intros _ [H | (x & Hx & Hp)]; [congruence|].
    rewrite Hl in Hx. injection Hx as <-. contradiction.
  - eapply Holds_step; [apply (inv_errorLog _ _ _ _ HI)|exact Herr| |exact Hdone].
    intros _ [H | (x & Hx & Hp)]; [congruence|].
    rewrite Hl in Hx. injection Hx as <-. contradiction.
  - rewrite Hprog, Hcnt, (inv_progress _ _ _ _ HI). lia.
  - intros j'. rewrite Htr, in_app_iff, Hres, Hdone, (inv_resolve _ _ _ _ HI).
    tauto.
  - intros j'. rewrite Htr, calls_app, Hcalls, (inv_calls _ _ _ _ HI).
    unfold expectedCalls. cbn [loop_i batchPromises]. rewrite Hlk.
    destruct (Z.eqb_spec j' j) as [->|Hne]; [|lia]. rewrite Hl. lia.
  - pose proof (inv_other _ _ _ _ HI) as Ho. destruct v.
    + now rewrite Hoth.
    + now rewrite Hoth, Ho, Hrun.
Qed.

Lemma newItem_tokenId (j : Z) : tokenId (newItem cfg j) = j.
Proof. reflexivity. Qed.

Lemma new_batch_ids (l : list Z) : map tokenId (map (newItem cfg) l) = l.
Proof. rewrite map_map. cbn. apply map_id. Qed.

Lemma new_batch_resolved (l : list Z) :
  filter isResolved (map (newItem cfg) l) = [].
Proof. induction l; cbn; auto. Qed.

Lemma new_batch_lookup (l : list Z) (j : Z) (it : Item) :
  lookup j (map (newItem cfg) l) = Some it -> it = newItem cfg j /\ In j l.
Proof.
  rewrite (lookup_new _ _ _ newItem_tokenId).
  destruct (in_dec Z.eq_dec j l); [|discriminate].
  intros H. injection H as <-. auto.
Qed.

Lemma rowSink_emit (es : list Event) (o : Sinks) :
  rowSink v (emit es o) = rowSink v o.
Proof. now destruct v. Qed.

Lemma rowSink_finish (o : Sinks) :
  Permutation (rowSink v (finish v o)) (rowSink v o).
Proof. destruct v; cbn; [reflexivity|apply sort_perm]. Qed.

Lemma Inv_loopTest (i : Z) (o : Sinks) :
  1 <= batchSize cfg ->
  startTokenId cfg <= i ->
  (exists k : nat, i = startTokenId cfg + Z.of_nat k * batchSize cfg /\
                   sleeps (trace o) = k) ->
  Settled v cfg transport i o ->
  Inv v cfg transport (loopTest v cfg i o).
Proof.
  intros Hbs Hstart Hiter HS. unfold loopTest.
  destruct (Z.leb_spec i (endTokenId cfg)) as [Hle|Hgt].
  - (* another batch is launched *)
    unfold launch.
    assert (Hdone : forall j,
      done cfg {| loop_i := i; running := true;
                  batchPromises := map (newItem cfg) (window cfg i);
                  out := emit (map (fun j => EvCall j 1) (window cfg i)) o |} j
      <-> past cfg i j = true).
    { intros j. unfold done. cbn [loop_i batchPromises]. split; [|auto].
      intros [H | (x & Hx & Hp)]; [exact H|].
      apply new_batch_lookup in Hx. destruct Hx as [-> _]. discriminate. }
    assert (Hwritten : forall j,
      written cfg {| loop_i := i; running := true;
                     batchPromises := map (newItem cfg) (window cfg i);
                     out := emit (map (fun j => EvCall j 1) (window cfg i)) o |} j
      <-> past cfg i j = true).
    { intros j. unfold written. rewrite Hdone. cbn [batchPromises].
      split; [|auto]. intros [H | (x & Hx & Hp)]; [exact H|].
      apply new_batch_lookup in Hx. destruct Hx as [-> _]. discriminate. }
    constructor; cbn [loop_i running batchPromises out].
    + exact Hstart.
    + destruct Hiter as (k & Hk1 & Hk2). exists k. split; [exact Hk1|].
      cbn [emit trace]. rewrite sleeps_app, sleeps_launch. lia.
    + split; [exact Hle|apply new_batch_ids].
    + intros j x Hx. apply new_batch_lookup in Hx. destruct Hx as [-> _].
      unfold itemOk, newItem, Retry.operation, fetch. cbn.
      split; [reflexivity|]. now rewrite timeouts_length.
    + rewrite rowSink_emit. eapply Holds_same; [apply (st_rows _ _ _ _ _ HS)|].
      exact Hwritten.
    + eapply Holds_same; [apply (st_warned _ _ _ _ _ HS)|exact Hdone].
    + eapply Holds_same; [apply (st_errorLog _ _ _ _ _ HS)|exact Hdone].
    + cbn [emit progress]. rewrite new_batch_resolved, (st_progress _ _ _ _ _ HS).
      cbn [List.length]. lia.
    + intros j. cbn [emit trace]. rewrite in_app_iff, Hdone, (st_resolve _ _ _ _ _ HS).
      pose proof (resolve_launch j (window cfg i)). tauto.
    + intros j. cbn [emit trace].
      rewrite calls_app, (st_calls _ _ _ _ _ HS), calls_launch by apply range_NoDup.
      unfold expectedCalls. cbn [loop_i batchPromises].
      rewrite (lookup_new _ _ _ newItem_tokenId).
      destruct (in_dec Z.eq_dec j (window cfg i)) as [Hin|Hout].
      * apply range_In in Hin. unfold past.
        destruct (Z.ltb_spec j i); [lia|]. now rewrite andb_false_r.
      * lia.
    + pose proof (st_other _ _ _ _ _ HS) as Ho. now destruct v.
  - (* the loop is left *)
    assert (Hdone : forall j,
      done cfg {| loop_i := i; running := false; batchPromises := [];
                  out := finish v o |} j
      <-> past cfg i j = true).
    { intros j. unfold done. cbn [loop_i batchPromises lookup find].
      split; [|auto]. intros [H | (x & Hx & _)]; [exact H|discriminate]. }
    assert (Hwritten : forall j,
      written cfg {| loop_i := i; running := false; batchPromises := [];
                     out := finish v o |} j
      <-> past cfg i j = true).
    { intros j. unfold written. rewrite Hdone. cbn [batchPromises lookup find].
      split; [|auto]. intros [H | (x & Hx & _)]; [exact H|discriminate]. }
    pose proof (st_other _ _ _ _ _ HS) as Ho.
    constructor; cbn [loop_i running batchPromises out].
    + exact Hstart.
    + destruct Hiter as (k & Hk1 & Hk2). exists k. split; [exact Hk1|].
      now destruct v.
    + split; [lia|reflexivity].
    + intros j x Hx. discriminate.
    + eapply Holds_perm; [|symmetry; apply rowSink_finish].
      eapply Holds_same; [apply (st_rows _ _ _ _ _ HS)|].
      exact Hwritten.
    + replace (warned (finish v o)) with (warned o) by now destruct v.
      eapply Holds_same; [apply (st_warned _ _ _ _ _ HS)|exact Hdone].
    + replace (errorLog (finish v o)) with (errorLog o) by now destruct v.
      eapply Holds_same; [apply (st_errorLog _ _ _ _ _ HS)|exact Hdone].
    + replace (progress (finish v o)) with (progress o) by now destruct v.
      rewrite (st_progress _ _ _ _ _ HS). cbn [filter List.length]. lia.
    + intros j. replace (trace (finish v o)) with (trace o) by now destruct v.
      now rewrite Hdone, (st_resolve _ _ _ _ _ HS).
    + intros j. replace (trace (finish v o)) with (trace o) by now destruct v.
      rewrite (st_calls _ _ _ _ _ HS). reflexivity.
    + destruct v; cbn; [exact Ho|]. rewrite Ho. cbn [app].
      symmetry. apply sort_of_sorted, sort_sorted.
Qed.

Lemma Settled_init : Settled v cfg transport (startTokenId cfg) noOutput.
Proof.
  assert (Hp : forall j, past cfg (startTokenId cfg) j = false).
  { intros j. unfold past.
    destruct (startTokenId cfg <=? j) eqn:E1; [|reflexivity].
    destruct (j <? startTokenId cfg) eqn:E2; [lia|].
    now rewrite andb_false_r. }
  constructor; cbn.
  - replace (rowSink v noOutput) with (@nil Row) by now destruct v.
    split; [constructor|]. intros x. rewrite Hp. cbn. intuition congruence.
  - split; [constructor|]. intros x. rewrite Hp. cbn. intuition congruence.
  - split; [constructor|]. intros x. rewrite Hp. cbn. intuition congruence.
  - lia.
  - intros j. rewrite Hp. intuition congruence.
  - intros j. now rewrite Hp.
  - now destruct v.
Qed.

Lemma past_spec (i j : Z) :
  past cfg i j = true <->
  startTokenId cfg <= j <= endTokenId cfg /\ j < i.
Proof. unfold past. rewrite !andb_true_iff, !Z.leb_le, Z.ltb_lt. tauto. Qed.

Lemma past_false (i j : Z) :
  past cfg i j = false <->
  ~ (startTokenId cfg <= j <= endTokenId cfg /\ j < i).
Proof. rewrite <- past_spec. destruct (past cfg i j); intuition congruence. Qed.

Lemma done_at_barrier (s : State) (j : Z) :
  1 <= batchSize cfg ->
  Inv v cfg transport s ->
  running s = true ->
  forallb isResolved (batchPromises s) = true ->
  (done cfg s j <-> past cfg (loop_i s + batchSize cfg) j = true) /\
  (written cfg s j <-> past cfg (loop_i s + batchSize cfg) j = true).
Proof.
  intros Hbs HI Hrun Hall.
  pose proof (inv_ctrl _ _ _ _ HI) as Hc. rewrite Hrun in Hc.
  destruct Hc as [Hle Hwin]. pose proof (inv_start _ _ _ _ HI) as Hst.
  assert (Hd : done cfg s j <-> past cfg (loop_i s + batchSize cfg) j = true).
  { unfold done. rewrite !past_spec. split.
    - intros [H | (x & Hx & Hp)]; [lia|].
      apply lookup_ids in Hx. rewrite Hwin in Hx. apply range_In in Hx. lia.
    - intros H. destruct (Z.lt_ge_cases j (loop_i s)) as [Hlt|Hge]; [left; lia|].
      right. destruct (lookup j (batchPromises s)) as [x|] eqn:Hx.
      + exists x. split; [reflexivity|]. eapply all_resolved_lookup; eauto.
      + exfalso. apply lookup_None in Hx. apply Hx. rewrite Hwin.
        apply range_In. lia. }
  split; [exact Hd|]. unfold written. rewrite Hd. split; [|auto].
  intros [H | (x & Hx & Hp)]; [exact H|].
  rewrite (all_resolved_lookup _ _ _ Hall Hx) in Hp. discriminate.
Qed.

Lemma Settled_barrier (s : State) :
  1 <= batchSize cfg ->
  Inv v cfg transport s ->
  running s = true ->
  forallb isResolved (batchPromises s) = true ->
  Settled v cfg transport (loop_i s + batchSize cfg)
          (emit [EvSleep (pacingDelay cfg)] (out s)).
Proof.
  intros Hbs HI Hrun Hall.
  pose proof (inv_ctrl _ _ _ _ HI) as Hc. rewrite Hrun in Hc.
  destruct Hc as [Hle Hwin]. pose proof (inv_start _ _ _ _ HI) as Hst.
  constructor.
  - rewrite rowSink_emit. eapply Holds_same; [apply (inv_rows _ _ _ _ HI)|].
    intros j. symmetry. now apply done_at_barrier.
  - eapply Holds_same; [apply (inv_warned _ _ _ _ HI)|].
    intros j. symmetry. now apply done_at_barrier.
  - eapply Holds_same; [apply (inv_errorLog _ _ _ _ HI)|].
    intros j. symmetry. now apply done_at_barrier.
  - cbn [emit progress]. rewrite (inv_progress _ _ _ _ HI).
    rewrite (all_resolved_filter _ Hall).
    rewrite <- (length_map tokenId), Hwin. unfold window.
    rewrite range_length. lia.
  - intros j. cbn [emit trace]. rewrite in_app_iff, (inv_resolve _ _ _ _ HI).
    cbn [In]. destruct (done_at_barrier s j Hbs HI Hrun Hall) as [Hd _].
    rewrite <- Hd. intuition discriminate.
  - intros j. cbn [emit trace]. rewrite calls_app, (inv_calls _ _ _ _ HI).
    unfold calls at 1. cbn [filter List.length]. rewrite Nat.add_0_r.
    unfold expectedCalls.
    destruct (lookup j (batchPromises s)) as [x|] eqn:Hx.
    + pose proof (inv_items _ _ _ _ HI _ _ Hx) as Hok. unfold itemOk in Hok.
      rewrite (all_resolved_lookup _ _ _ Hall Hx) in Hok.
      destruct (lookup_Some _ _ _ Hx) as [Hj _]. rewrite Hj in Hok.
      apply lookup_ids in Hx. rewrite Hwin in Hx. apply range_In in Hx.
      replace (past cfg (loop_i s + batchSize cfg) j) with true; [auto|].
      symmetry. apply past_spec. lia.
    + apply lookup_None in Hx. rewrite Hwin in Hx. unfold window in Hx.
      rewrite range_In in Hx.
      destruct (past cfg (loop_i s) j) eqn:E1;
        destruct (past cfg (loop_i s + batchSize cfg) j) eqn:E2;
        try reflexivity; exfalso.
      * apply past_spec in E1. apply past_false in E2. lia.
      * apply past_false in E1. apply past_spec in E2. lia.
  - pose proof (inv_other _ _ _ _ HI) as Ho. rewrite Hrun in Ho.
    now destruct v.
Qed.

Lemma Inv_init : 1 <= batchSize cfg -> Inv v cfg transport (init v cfg).
Proof.
  intros Hbs. apply Inv_loopTest; [exact Hbs|lia| |apply Settled_init].
  exists 0%nat. split; [lia|reflexivity].
Qed.

Lemma Inv_step (c : Choice) (s s' : State) :
  1 <= batchSize cfg ->
  Inv v cfg transport s ->
  step v cfg transport c s = Some s' ->
  Inv v cfg transport s'.
Proof.
  intros Hbs HI H. unfold step in H. destruct (running s) eqn:Hrun; [|discriminate].
  destruct c as [j|].
  - destruct (settle v transport j (batchPromises s) (out s)) as [[b o]|] eqn:Hs;
      [|discriminate].
    injection H as <-. now apply (Inv_settle s j).
  - destruct (forallb isResolved (batchPromises s)) eqn:Hall; [|discriminate].
    injection H as <-. apply Inv_loopTest.
    + exact Hbs.
    + pose proof (inv_start _ _ _ _ HI). lia.
    + destruct (inv_iter _ _ _ _ HI) as (k & Hk1 & Hk2). exists (S k). split.
      * rewrite Hk1. lia.
      * cbn [emit trace]. rewrite sleeps_app, Hk2. cbn. lia.
    + now apply Settled_barrier.
Qed.

Lemma Inv_exec (sched : list Choice) (s s' : State) :
  1 <= batchSize cfg ->
  Inv v cfg transport s ->
  exec v cfg transport sched s = Some s' ->
  Inv v cfg transport s'.
Proof.
  intros Hbs. revert s. induction sched as [|c sched IH]; intros s HI H.
  - injection H as <-. exact HI.
  - cbn [exec] in H. destruct (step v cfg transport c s) as [s1|] eqn:Hs;
      [|discriminate].
    eapply IH; [|exact H]. eapply Inv_step; eauto.
Qed.

Lemma Inv_reachable (sched : list Choice) (s : State) :
  1 <= batchSize cfg ->
  exec v cfg transport sched (init v cfg) = Some s ->
  Inv v cfg transport s.
Proof. intros Hbs H. eapply Inv_exec; [exact Hbs|now apply Inv_init|exact H]. Qed.

(** ** The order of the effects *)

Lemma snoc_split {A : Type} (t pre post : list A) (e x : A) :
  t ++ [e] = pre ++ x :: post ->
  (pre = t /\ x = e /\ post = []) \/
  (exists post', post = post' ++ [e] /\ t = pre ++ x :: post').
Proof.
  destruct post as [|y post0] using rev_ind.
  - intros H. left. apply app_inj_tail in H. destruct H as [-> ->]. auto.
  - clear IHpost0. intros H. right. exists post0.
    rewrite app_comm_cons, app_assoc in H.
    apply app_inj_tail in H. destruct H as [-> ->]. auto.
Qed.

Lemma traceOrdered_snoc (t : list Event) (e : Event) :
  traceOrdered cfg t ->
  (forall j a, e = EvCall j a -> callAllowed cfg t j) ->
  traceOrdered cfg (t ++ [e]).
Proof.
  intros [H1 H2] He. split.
  - intros pre j a post Hsplit. apply snoc_split in Hsplit.
    destruct Hsplit as [(-> & Hx & _) | (post' & _ & Ht)].
    + symmetry in Hx. apply (He _ _ Hx).
    + eapply H1; eauto.
  - intros pre j post Hsplit. apply snoc_split in Hsplit.
    destruct Hsplit as [(_ & _ & ->) | (post' & -> & Ht)]; [reflexivity|].
    rewrite calls_app, (H2 _ _ _ Ht). unfold calls. cbn [filter].
    destruct e as [j' a| | |]; try reflexivity.
    destruct (Z.eqb_spec j' j) as [->|]; [|reflexivity].
    exfalso. destruct (He _ _ eq_refl) as [_ Hn]. apply Hn.
    rewrite Ht. apply in_elt.
Qed.

Lemma callAllowed_snoc (t : list Event) (j j1 : Z) (a : nat) :
  callAllowed cfg t j -> callAllowed cfg (t ++ [EvCall j1 a]) j.
Proof.
  intros [H1 H2]. split.
  - intros k r Hj Hr. destruct (H1 k r Hj Hr) as [Hs Hres]. split.
    + rewrite sleeps_app, Hs. cbn. lia.
    + intros j' Hj'. apply in_or_app. left. auto.
  - intros H. apply in_app_or in H. destruct H as [H | [H | []]];
      [auto|discriminate].
Qed.

Lemma traceOrdered_launch (t : list Event) (l : list Z) :
  traceOrdered cfg t ->
  (forall j, In j l -> callAllowed cfg t j) ->
  traceOrdered cfg (t ++ map (fun j => EvCall j 1) l).
Proof.
  revert t. induction l as [|j l IH]; intros t Ht Hl; cbn [map].
  - now rewrite app_nil_r.
  - change (EvCall j 1 :: map (fun j0 => EvCall j0 1) l)
      with ([EvCall j 1] ++ map (fun j0 => EvCall j0 1) l).
    rewrite app_assoc. apply IH.
    + apply traceOrdered_snoc; [exact Ht|].
      intros j1 a E. injection E as <- _. apply Hl. now left.
    + intros j1 Hj1. apply callAllowed_snoc. apply Hl. now right.
Qed.

Lemma window_index (i j : Z) (k0 k : nat) (r : Z) :
  1 <= batchSize cfg ->
  i = startTokenId cfg + Z.of_nat k0 * batchSize cfg ->
  In j (window cfg i) ->
  j = startTokenId cfg + Z.of_nat k * batchSize cfg + r ->
  0 <= r < batchSize cfg ->
  k = k0.
Proof.
  intros Hbs Hi Hin Hj Hr. apply range_In in Hin.
  assert (Z.of_nat k = Z.of_nat k0); [|lia]. nia.
Qed.

Lemma traceOrdered_loopTest (i : Z) (o : Sinks) (k0 : nat) :
  1 <= batchSize cfg ->
  i = startTokenId cfg + Z.of_nat k0 * batchSize cfg ->
  sleeps (trace o) = k0 ->
  (forall j, In (EvResolve j) (trace o) <-> past cfg i j = true) ->
  traceOrdered cfg (trace o) ->
  traceOrdered cfg (trace (out (loopTest v cfg i o))).
Proof.
  intros Hbs Hi Hsl Hres Ht. unfold loopTest.
  destruct (Z.leb_spec i (endTokenId cfg)) as [Hle|Hgt];
    cbn [launch out emit trace]; [|now destruct v].
  apply traceOrdered_launch; [exact Ht|].
  intros j Hj. split.
  - intros k r Ej Hr.
    assert (k = k0) as -> by (eapply window_index; eauto).
    split; [exact Hsl|]. intros j' Hj'. apply Hres, past_spec. lia.
  - rewrite Hres, past_spec. apply range_In in Hj. lia.
Qed.

Lemma traceOrdered_step (c : Choice) (s s' : State) :
  1 <= batchSize cfg ->
  Inv v cfg transport s ->
  traceOrdered cfg (trace (out s)) ->
  step v cfg transport c s = Some s' ->
  traceOrdered cfg (trace (out s')).
Proof.
  intros Hbs HI Ht H. unfold step in H.
  destruct (running s) eqn:Hrun; [|discriminate].
  destruct c as [j|].
  - destruct (settle v transport j (batchPromises s) (out s)) as [[b o]|] eqn:Hs;
      [|discriminate].
    injection H as <-. cbn [out].
    destruct (settle_spec _ _ _ _ _ Hs onEvent_tokenId)
      as (it & it' & Hl & Hnr & Hev & _).
    pose proof (inv_items _ _ _ _ HI _ _ Hl) as Hok.
    destruct (onEvent_spec _ _ _ _ Hev Hok Hnr)
      as (_ & _ & _ & _ & _ & _ & _ & (es & Htr & Hts) & _).
    destruct (lookup_Some _ _ _ Hl) as [Hj _]. rewrite Hj in *.
    rewrite Htr. unfold TraceStep in Hts.
    destruct Hts as [(-> & _) | [(-> & _) | [(_ & _ & t & ->) | (-> & _)]]].
    + now rewrite app_nil_r.
    + apply traceOrdered_snoc; [exact Ht|discriminate].
    + apply traceOrdered_snoc; [exact Ht|discriminate].
    + apply traceOrdered_snoc; [exact Ht|].
      intros j1 a E. injection E as <- _.
      pose proof (inv_ctrl _ _ _ _ HI) as Hc. rewrite Hrun in Hc.
      destruct Hc as [Hle Hwin].
      destruct (inv_iter _ _ _ _ HI) as (k0 & Hk1 & Hk2).
      pose proof (lookup_ids _ _ _ Hl) as Hin. rewrite Hwin in Hin.
      split.
      * intros k r Ej Hr.
        assert (k = k0) as -> by (eapply window_index; eauto).
        split; [exact Hk2|]. intros j' Hj'.
        apply (inv_resolve _ _ _ _ HI). left. apply past_spec. lia.
      * rewrite (inv_resolve _ _ _ _ HI). intros [Hp | (x & Hx & Hp)].
        -- apply past_spec in Hp. apply range_In in Hin. lia.
        -- rewrite Hl in Hx. injection Hx as <-. contradiction.
  - destruct (forallb isResolved (batchPromises s)) eqn:Hall; [|discriminate].
    injection H as <-.
    destruct (inv_iter _ _ _ _ HI) as (k0 & Hk1 & Hk2).
    pose proof (Settled_barrier s Hbs HI Hrun Hall) as HS.
    apply (traceOrdered_loopTest _ _ (S k0)).
    + exact Hbs.
    + rewrite Hk1. lia.
    + cbn [emit trace]. rewrite sleeps_app, Hk2. cbn. lia.
    + apply (st_resolve _ _ _ _ _ HS).
    + cbn [emit trace]. apply traceOrdered_snoc; [exact Ht|discriminate].
Qed.

Lemma traceOrdered_exec (sched : list Choice) (s s' : State) :
  1 <= batchSize cfg ->
  Inv v cfg transport s ->
  traceOrdered cfg (trace (out s)) ->
  exec v cfg transport sched s = Some s' ->
  traceOrdered cfg (trace (out s')).
Proof.
  intros Hbs. revert s. induction sched as [|c sched IH]; intros s HI Ht H.
  - now injection H as <-.
  - cbn [exec] in H. destruct (step v cfg transport c s) as [s1|] eqn:Hs;
      [|discriminate].
    eapply IH; [| |exact H].
    + eapply Inv_step; eauto.
    + eapply traceOrdered_step; eauto.
Qed.

Lemma traceOrdered_reachable (sched : list Choice) (s : State) :
  1 <= batchSize cfg ->
  exec v cfg transport sched (init v cfg) = Some s ->
  traceOrdered cfg (trace (out s)).
Proof.
  intros Hbs H. eapply traceOrdered_exec; [exact Hbs|now apply Inv_init| |exact H].
  apply (traceOrdered_loopTest _ _ 0%nat); [exact Hbs|lia|reflexivity| |].
  - intros j. rewrite past_spec. cbn. split; [contradiction|lia].
  - split; intros pre; intros; destruct pre; discriminate.
Qed.

(** ** Progress and termination *)

Lemma onEvent_work (it it' : Item) (o o' : Sinks) :
  onEvent v transport it o = (it', o') ->
  phase it <> Resolved ->
  (itemWork it' < itemWork it)%nat.
Proof.
  unfold onEvent, itemWork. intros H Hnr.
  destruct it as [j [ts a] ph]. cbn [tokenId operation phase] in *.
  destruct ph; [| | |contradiction].
  - destruct (transport j _) as [owner|e].
    + destruct v; injection H as <- _; cbn; lia.
    + destruct (invalidTokenId e); [injection H as <- _; cbn; lia|].
      unfold Retry.retry in H. cbn [Retry._timeouts] in H.
      destruct ts as [|t ts]; injection H as <- _; cbn; lia.
  - injection H as <- _. cbn. lia.
  - injection H as <- _. cbn. lia.
Qed.

Lemma batchWork_resolved (b : list Item) :
  forallb isResolved b = true -> batchWork b = 0%nat.
Proof.
  induction b as [|x b IH]; [reflexivity|]. cbn [forallb].
  intros H. apply andb_true_iff in H. destruct H as [Hx Hb].
  unfold batchWork in *. cbn [fold_right]. rewrite (IH Hb).
  unfold isResolved in Hx. unfold itemWork. now destruct (phase x).
Qed.

Lemma batchWork_new (l : list Z) :
  batchWork (map (newItem cfg) l) =
  (List.length l * (2 * Retry.retries (retryOptions cfg) + 3))%nat.
Proof.
  induction l as [|j l IH]; [reflexivity|].
  unfold batchWork in *. cbn [map fold_right List.length]. rewrite IH.
  unfold itemWork, newItem, Retry.operation. cbn. rewrite timeouts_length. lia.
Qed.

Lemma window_length (i : Z) :
  1 <= batchSize cfg -> i <= endTokenId cfg ->
  List.length (window cfg i) =
  Z.to_nat (Z.min (batchSize cfg) (endTokenId cfg - i + 1)).
Proof. intros Hbs Hi. unfold window. rewrite range_length. lia. Qed.

Lemma step_work (c : Choice) (s s' : State) :
  1 <= batchSize cfg ->
  Inv v cfg transport s ->
  step v cfg transport c s = Some s' ->
  (work cfg s' < work cfg s)%nat.
Proof.
  intros Hbs HI H. unfold step in H.
  destruct (running s) eqn:Hrun; [|discriminate].
  pose proof (inv_ctrl _ _ _ _ HI) as Hc. rewrite Hrun in Hc.
  destruct Hc as [Hle Hwin].
  destruct c as [j|].
  - destruct (settle v transport j (batchPromises s) (out s)) as [[b o]|] eqn:Hs;
      [|discriminate].
    injection H as <-.
    destruct (settle_spec _ _ _ _ _ Hs onEvent_tokenId)
      as (it & it' & Hl & Hnr & Hev & _ & _ & _ & Hw).
    pose proof (onEvent_work _ _ _ _ Hev Hnr).
    unfold work. cbn [running batchPromises loop_i]. rewrite Hrun. lia.
  - destruct (forallb isResolved (batchPromises s)) eqn:Hall; [|discriminate].
    injection H as <-. unfold work at 2. rewrite Hrun.
    rewrite (batchWork_resolved _ Hall). unfold loopTest, work.
    assert (Hn : Z.to_nat ((endTokenId cfg - loop_i s) / batchSize cfg + 1)
                 = S (Z.to_nat ((endTokenId cfg - loop_i s) / batchSize cfg))).
    { assert (0 <= (endTokenId cfg - loop_i s) / batchSize cfg)
        by (apply Z.div_pos; lia). lia. }
    rewrite Hn.
    destruct (Z.leb_spec (loop_i s + batchSize cfg) (endTokenId cfg)) as [Hle'|Hgt];
      cbn [launch running batchPromises loop_i]; [|lia].
    rewrite batchWork_new, window_length by lia.
    replace ((endTokenId cfg - (loop_i s + batchSize cfg)) / batchSize cfg + 1)
      with ((endTokenId cfg - loop_i s) / batchSize cfg).
    + assert (Z.to_nat (Z.min (batchSize cfg)
                (endTokenId cfg - (loop_i s + batchSize cfg) + 1))
              <= Z.to_nat (batchSize cfg))%nat by lia.
      nia.
    + replace (endTokenId cfg - (loop_i s + batchSize cfg))
        with (endTokenId cfg - loop_i s + (-1) * batchSize cfg) by lia.
      rewrite Z.div_add by lia. lia.
Qed.

Lemma exec_work (sched : list Choice) (s s' : State) :
  1 <= batchSize cfg ->
  Inv v cfg transport s ->
  exec v cfg transport sched s = Some s' ->
  (List.length sched + work cfg s' <= work cfg s)%nat.
Proof.
  intros Hbs. revert s. induction sched as [|c sched IH]; intros s HI H.
  - injection H as <-. cbn. lia.
  - cbn [exec] in H. destruct (step v cfg transport c s) as [s1|] eqn:Hs;
      [|discriminate].
    pose proof (step_work _ _ _ Hbs HI Hs).
    pose proof (IH s1 (Inv_step _ _ _ Hbs HI Hs) H). cbn [List.length]. lia.
Qed.

Lemma settle_possible (b : list Item) (o : Sinks) :
  forallb isResolved b = false ->
  NoDup (map tokenId b) ->
  exists j b' o', In j (map tokenId b) /\
                  settle v transport j b o = Some (b', o').
Proof.
  induction b as [|x b IH]; [discriminate|]. cbn [forallb map]. intros H Hnd.
  inversion Hnd as [|? ? Hx Hnd']; subst.
  destruct (isResolved x) eqn:Ex.
  - cbn [andb] in H. destruct (IH H Hnd') as (j & b' & o' & Hin & Hs).
    exists j, (x :: b'), o'. split; [now right|]. cbn [settle].
    destruct (Z.eqb_spec (tokenId x) j) as [E|E]; [congruence|].
    now rewrite Hs.
  - exists (tokenId x). destruct (onEvent v transport x o) as [x' o'] eqn:Hev.
    exists (x' :: b), o'. split; [now left|]. cbn [settle].
    now rewrite Z.eqb_refl, Ex, Hev.
Qed.

Lemma step_possible (s : State) :
  Inv v cfg transport s ->
  running s = true ->
  exists c s', step v cfg transport c s = Some s'.
Proof.
  intros HI Hrun. unfold step. rewrite Hrun.
  destruct (forallb isResolved (batchPromises s)) eqn:Hall.
  - exists Barrier. eauto.
  - pose proof (inv_ctrl _ _ _ _ HI) as Hc. rewrite Hrun in Hc.
    destruct Hc as [_ Hwin].
    destruct (settle_possible _ (out s) Hall) as (j & b' & o' & _ & Hs).
    { rewrite Hwin. apply range_NoDup. }
    exists (Settle j). rewrite Hs. eauto.
Qed.

Lemma can_finish (n : nat) (s : State) :
  1 <= batchSize cfg ->
  Inv v cfg transport s ->
  (work cfg s <= n)%nat ->
  exists sched s',
    exec v cfg transport sched s = Some s' /\ running s' = false.
Proof.
  intros Hbs. revert s. induction n as [|n IH]; intros s HI Hn.
  - destruct (running s) eqn:Hrun; [|exists [], s; auto].
    destruct (step_possible s HI Hrun) as (c & s' & Hs).
    pose proof (step_work _ _ _ Hbs HI Hs). lia.
  - destruct (running s) eqn:Hrun; [|exists [], s; auto].
    destruct (step_possible s HI Hrun) as (c & s' & Hs).
    pose proof (step_work _ _ _ Hbs HI Hs).
    destruct (IH s' (Inv_step _ _ _ Hbs HI Hs)) as (sched & s'' & He & Hf);
      [lia|].
    exists (c :: sched), s''. cbn [exec]. rewrite Hs. auto.
Qed.

End RunProofs.

(** ** The state after the run *)

Section Finished.

Variable v : Variant.
Variable cfg : Config.
Variable transport : Transport.
Variable s : State.
Hypothesis HI : Inv v cfg transport s.
Hypothesis Hfin : running s = false.

Lemma finished_done (j : Z) :
  done cfg s j <-> startTokenId cfg <= j <= endTokenId cfg.
Proof.
  pose proof (inv_ctrl _ _ _ _ HI) as Hc. rewrite Hfin in Hc.
  destruct Hc as [Hgt Hb]. unfold done. rewrite Hb, past_spec.
  cbn [lookup find]. split.
  - intros [H | (x & Hx & _)]; [tauto|discriminate].
  - intros H. left. lia.
Qed.

Lemma finished_written (j : Z) :
  written cfg s j <-> startTokenId cfg <= j <= endTokenId cfg.
Proof.
  pose proof (inv_ctrl _ _ _ _ HI) as Hc. rewrite Hfin in Hc.
  destruct Hc as [Hgt Hb]. unfold written. rewrite finished_done, Hb.
  cbn [lookup find]. split; [|auto].
  intros [H | (x & Hx & _)]; [exact H|discriminate].
Qed.

Lemma ownedRows_In (l : list Z) (x : Row) :
  In x (ownedRows cfg transport l) <->
  In (snd x) l /\ ownedSel cfg transport x.
Proof.
  unfold ownedRows, ownedSel. rewrite in_flat_map. split.
  - intros (j & Hj & Hx). destruct (fst (fetch cfg transport j)) eqn:E;
      try contradiction.
    destruct Hx as [<- | []]. cbn. auto.
  - intros [Hin Hx]. exists (snd x). split; [exact Hin|].
    rewrite Hx. left. now destruct x.
Qed.

Lemma ownedRows_ascending (l : list Z) :
  StronglySorted Z.lt l -> ascending (ownedRows cfg transport l).
Proof.
  induction 1 as [|a l Hs IH Hf]; [constructor|].
  unfold ownedRows. cbn [flat_map].
  fold (ownedRows cfg transport l).
  destruct (fst (fetch cfg transport a)); cbn [app]; try exact IH.
  constructor; [exact IH|]. apply Forall_forall. intros x Hx.
  apply ownedRows_In in Hx. destruct Hx as [Hx _].
  rewrite Forall_forall in Hf. unfold keyLt. cbn. auto.
Qed.

Lemma ascending_keys (rows : list Row) :
  ascending rows -> StronglySorted Z.lt (map snd rows).
Proof.
  induction 1 as [|x l Hs IH Hf]; cbn [map]; constructor; [exact IH|].
  apply Forall_forall. intros k Hk. apply in_map_iff in Hk.
  destruct Hk as (y & <- & Hy). rewrite Forall_forall in Hf. now apply Hf.
Qed.

Lemma ascending_NoDup (rows : list Row) : ascending rows -> NoDup rows.
Proof.
  intros H. eapply NoDup_map_inv, sorted_lt_NoDup, ascending_keys, H.
Qed.

Lemma finished_rowSink :
  Permutation (rowSink v (out s))
              (ownedRows cfg transport
                 (JS.range (startTokenId cfg) (endTokenId cfg))).
Proof.
  destruct (inv_rows _ _ _ _ HI) as [Hnd Hin].
  apply NoDup_Permutation.
  - eapply NoDup_map_inv, Hnd.
  - apply ascending_NoDup, ownedRows_ascending, range_sorted.
  - intros x. now rewrite Hin, ownedRows_In, finished_written, range_In.
Qed.

Lemma finished_csv :
  Permutation (csv (out s))
              (ownedRows cfg transport
                 (JS.range (startTokenId cfg) (endTokenId cfg))).
Proof.
  pose proof finished_rowSink as Hp. pose proof (inv_other _ _ _ _ HI) as Ho.
  destruct v; cbn [rowSink] in *; [exact Hp|].
  rewrite Ho, Hfin. now rewrite sort_perm.
Qed.

Lemma calls_of_done (j : Z) :
  startTokenId cfg <= j <= endTokenId cfg ->
  calls j (trace (out s)) = snd (fetch cfg transport j).
Proof.
  intros Hj. rewrite (inv_calls _ _ _ _ HI). unfold expectedCalls.
  pose proof (inv_ctrl _ _ _ _ HI) as Hc. rewrite Hfin in Hc.
  destruct Hc as [Hgt ->]. cbn [lookup find].
  replace (past cfg (loop_i s) j) with true; [reflexivity|].
  symmetry. apply past_spec. lia.
Qed.

End Finished.

(** The table written by the sort-at-end script. *)
Lemma sorted_variant_csv (cfg : Config) (transport : Transport) (s : State) :
  Inv SortAtEnd cfg transport s ->
  running s = false ->
  csv (out s) =
  ownedRows cfg transport (JS.range (startTokenId cfg) (endTokenId cfg)).
Proof.
  intros HI Hfin. pose proof (inv_other _ _ _ _ HI) as Ho.
  cbn in Ho. rewrite Hfin in Ho. rewrite Ho.
  pose proof (finished_rowSink _ _ _ _ HI Hfin) as Hp. cbn [rowSink] in Hp.
  apply (sorted_lt_unique snd).
  - apply sorted_le_lt; [apply sort_sorted|].
    apply (Permutation_NoDup (l := map snd (results (out s)))).
    + apply Permutation_map. symmetry. apply sort_perm.
    + apply (inv_rows _ _ _ _ HI).
  - apply ownedRows_ascending, range_sorted.
  - now rewrite sort_perm.
Qed.

Lemma ascendingb_spec (rows : list Row) :
  ascendingb rows = true <-> ascending rows.
Proof.
  unfold ascending. induction rows as [|x rows IH]; cbn [ascendingb].
  - split; [constructor|reflexivity].
  - rewrite andb_true_iff, IH, forallb_forall. split.
    + intros [Hf Hs]. constructor; [exact Hs|]. apply Forall_forall.
      intros y Hy. unfold keyLt. specialize (Hf _ Hy). lia.
    + intros H. inversion H as [|? ? Hs Hf]; subst. split; [|exact Hs].
      intros y Hy. rewrite Forall_forall in Hf. specialize (Hf _ Hy).
      unfold keyLt in Hf. lia.
Qed.

(** ** Single fetchers *)

Lemma fetchFrom_all_transient (transport : Transport) (j : Z) (ts : list Z)
    (a : nat) :
  (forall n, exists e, transport j n = Throws e /\ classify e = Transient) ->
  exists e, transport j (a + List.length ts)%nat = Throws e /\
            fetchFrom transport j a ts =
            (Failed (message e), (a + List.length ts)%nat).
Proof.
  intros Hall. revert a. induction ts as [|t ts IH]; intros a.
  - destruct (Hall a) as (e & He & Hc). exists e. cbn [List.length fetchFrom].
    rewrite Nat.add_0_r, He. split; [reflexivity|].
    unfold classify in Hc. now destruct (invalidTokenId e).
  - destruct (IH (S a)) as (e & He & Hf). exists e.
    cbn [List.length]. rewrite Nat.add_succ_r. split; [exact He|].
    cbn [fetchFrom]. destruct (Hall a) as (e' & He' & Hc). rewrite He'.
    unfold classify in Hc. destruct (invalidTokenId e'); [discriminate|].
    exact Hf.
Qed.

Lemma fetchFrom_absent_at (transport : Transport) (j : Z) (ts : list Z)
    (a0 a : nat) (e : Error) :
  (a0 <= a <= a0 + List.length ts)%nat ->
  (forall n, (a0 <= n < a)%nat ->
             exists e', transport j n = Throws e' /\ classify e' = Transient) ->
  transport j a = Throws e ->
  classify e = PermanentAbsence ->
  fetchFrom transport j a0 ts = (Absent, a).
Proof.
  intros Ha Hbefore He Hc. revert a0 Ha Hbefore.
  induction ts as [|t ts IH]; intros a0 Ha Hbefore.
  - cbn [List.length] in Ha. assert (a = a0) as -> by lia.
    cbn [fetchFrom]. rewrite He. unfold classify in Hc.
    now destruct (invalidTokenId e).
  - cbn [fetchFrom]. destruct (Nat.eq_dec a a0) as [->|Hne].
    + rewrite He. unfold classify in Hc. now destruct (invalidTokenId e).
    + destruct (Hbefore a0) as (e' & He' & Hc'); [lia|]. rewrite He'.
      unfold classify in Hc'. destruct (invalidTokenId e'); [discriminate|].
      apply IH; [cbn [List.length] in Ha; lia|].
      intros n Hn. apply Hbefore. lia.
Qed.

Lemma fetch_local (cfg : Config) (tr1 tr2 : Transport) (j : Z) :
  (forall n, tr1 j n = tr2 j n) -> fetch cfg tr1 j = fetch cfg tr2 j.
Proof.
  intros H. unfold fetch. generalize 1%nat as a.
  induction (Retry.timeouts (retryOptions cfg)) as [|t ts IH]; intros a;
    cbn [fetchFrom]; rewrite H; [reflexivity|].
  destruct (tr2 j a) as [|e]; [reflexivity|].
  destruct (invalidTokenId e); [reflexivity|apply IH].
Qed.

Lemma calls_when_done (v : Variant) (cfg : Config) (transport : Transport)
    (s : State) (j : Z) :
  Inv v cfg transport s ->
  done cfg s j ->
  calls j (trace (out s)) = snd (fetch cfg transport j).
Proof.
  intros HI Hd. rewrite (inv_calls _ _ _ _ HI). unfold expectedCalls.
  unfold done in Hd.
  destruct (lookup j (batchPromises s)) as [x|] eqn:Hx.
  - pose proof (inv_items _ _ _ _ HI _ _ Hx) as Hok. unfold itemOk in Hok.
    destruct (lookup_Some _ _ _ Hx) as [Hj _]. rewrite Hj in Hok.
    destruct Hd as [Hp | (y & Hy & Hp)].
    + exfalso. apply past_spec in Hp. pose proof (inv_ctrl _ _ _ _ HI) as Hc.
      destruct (running s).
      * destruct Hc as [_ Hwin]. apply lookup_ids in Hx.
        rewrite Hwin in Hx. apply range_In in Hx. lia.
      * destruct Hc as [_ Hb]. rewrite Hb in Hx. discriminate.
    + injection Hy as <-. rewrite Hp in Hok. auto.
  - destruct Hd as [-> | (y & Hy & _)]; [reflexivity|discriminate].
Qed.

Lemma filter_absent_key {B : Type} (l : list (Z * B)) (j : Z) :
  ~ In j (map fst l) -> filter (fun x => fst x =? j) l = [].
Proof.
  induction l as [|[j1 m1] l IH]; [reflexivity|]. cbn [map fst In filter].
  intros H. destruct (Z.eqb_spec j1 j) as [E|_]; [tauto|]. apply IH. tauto.
Qed.

Lemma filter_unique_key {B : Type} (l : list (Z * B)) (j : Z) (m : B) :
  NoDup (map fst l) -> In (j, m) l ->
  filter (fun x => fst x =? j) l = [(j, m)].
Proof.
  induction l as [|[j1 m1] l IH]; intros Hnd Hin; [contradiction|].
  cbn [map fst] in Hnd. inversion Hnd as [|? ? Hx Hnd']; subst.
  cbn [filter fst]. destruct (Z.eqb_spec j1 j) as [->|Hne].
  - destruct Hin as [E | Hin].
    + injection E as ->. f_equal. now apply filter_absent_key.
    + exfalso. apply Hx. apply (in_map fst) in Hin. exact Hin.
  - destruct Hin as [E | Hin]; [congruence|]. now apply IH.
Qed.

(** ** The batches of the outer loop *)

Lemma batches_concat (cfg : Config) (fuel : nat) (i : Z) :
  1 <= batchSize cfg ->
  (Z.to_nat (endTokenId cfg - i + 1) <= fuel)%nat ->
  List.concat (batches cfg fuel i) = JS.range i (endTokenId cfg).
Proof.
  intros Hbs. revert i. induction fuel as [|fuel IH]; intros i Hf.
  - cbn. rewrite range_nil; [reflexivity|lia].
  - cbn [batches]. destruct (Z.leb_spec i (endTokenId cfg)) as [Hle|Hgt].
    + cbn [List.concat]. rewrite IH by lia. unfold window.
      destruct (Z.le_gt_cases (i + batchSize cfg - 1) (endTokenId cfg)).
      * rewrite Z.min_l by lia.
        rewrite (range_app i (i + batchSize cfg) (endTokenId cfg)) by lia.
        reflexivity.
      * rewrite Z.min_r by lia.
        rewrite (range_nil (i + batchSize cfg)) by lia. apply app_nil_r.
    + cbn. rewrite range_nil; [reflexivity|lia].
Qed.

Lemma batches_nth (cfg : Config) (fuel : nat) (i : Z) (k : nat) :
  1 <= batchSize cfg ->
  (Z.to_nat (endTokenId cfg - i + 1) <= fuel)%nat ->
  nth_error (batches cfg fuel i) k =
  if i + Z.of_nat k * batchSize cfg <=? endTokenId cfg
  then Some (window cfg (i + Z.of_nat k * batchSize cfg))
  else None.
Proof.
  intros Hbs. revert i k. induction fuel as [|fuel IH]; intros i k Hf.
  - cbn [batches]. destruct (Z.leb_spec (i + Z.of_nat k * batchSize cfg)
                               (endTokenId cfg)); [nia|now destruct k].
  - cbn [batches]. destruct (Z.leb_spec i (endTokenId cfg)) as [Hle|Hgt].
    + destruct k as [|k]; cbn [nth_error].
      * replace (i + Z.of_nat 0 * batchSize cfg) with i by lia.
        destruct (Z.leb_spec i (endTokenId cfg)); [reflexivity|lia].
      * rewrite IH by lia.
        replace (i + batchSize cfg + Z.of_nat k * batchSize cfg)
          with (i + Z.of_nat (S k) * batchSize cfg) by lia.
        reflexivity.
    + destruct (Z.leb_spec (i + Z.of_nat k * batchSize cfg)
                  (endTokenId cfg)); [nia|now destruct k].
Qed.

(** ** Steps of a run *)

Lemma exec_app (v : Variant) (cfg : Config) (transport : Transport)
    (p q : list Choice) (s : State) :
  exec v cfg transport (p ++ q) s =
  match exec v cfg transport p s with
  | Some s1 => exec v cfg transport q s1
  | None => None
  end.
Proof.
  revert s. induction p as [|c p IH]; intros s; cbn [app exec]; [reflexivity|].
  destruct (step v cfg transport c s); [apply IH|reflexivity].
Qed.

(** Once the outer loop is left nothing more happens. *)
Lemma exec_finished (v : Variant) (cfg : Config) (transport : Transport)
    (sched : list Choice) (s s' : State) :
  running s = false ->
  exec v cfg transport sched s = Some s' -> sched = [] /\ s' = s.
Proof.
  intros Hfin H. destruct sched as [|c sched].
  - now injection H as <-.
  - cbn [exec] in H. unfold step in H. rewrite Hfin in H. discriminate.
Qed.

Lemma in_flight_running (v : Variant) (cfg : Config) (transport : Transport)
    (s : State) (j : Z) (it : Item) :
  Inv v cfg transport s ->
  lookup j (batchPromises s) = Some it -> running s = true.
Proof.
  intros HI Hl. pose proof (inv_ctrl _ _ _ _ HI) as Hc.
  destruct (running s); [reflexivity|]. destruct Hc as [_ Hb].
  rewrite Hb in Hl. discriminate.
Qed.

Lemma resolved_in_trace (v : Variant) (cfg : Config) (transport : Transport)
    (s : State) (j : Z) (it : Item) :
  Inv v cfg transport s ->
  lookup j (batchPromises s) = Some it -> phase it = Resolved ->
  In (EvResolve j) (trace (out s)).
Proof. intros HI Hl Hp. apply (inv_resolve _ _ _ _ HI). right. eauto. Qed.

Lemma settle_lookup (v : Variant) (transport : Transport) (j : Z)
    (b : list Item) (o : Sinks) (it : Item) :
  lookup j b = Some it -> phase it <> Resolved ->
  exists b', settle v transport j b o =
             Some (b', snd (onEvent v transport it o)).
Proof.
  unfold lookup. induction b as [|x b IH]; cbn [find settle]; [discriminate|].
  intros H Hnr. destruct (tokenId x =? j).
  - injection H as ->.
    assert (Hr : isResolved it = false)
      by (unfold isResolved; destruct (phase it); congruence).
    rewrite Hr. destruct (onEvent v transport it o) as [it' o'].
    exists (it' :: b). reflexivity.
  - destruct (IH H Hnr) as [b' ->]. eauto.
Qed.

(** The completion pending for a fetcher that is not resolved can always
    be delivered, and the callback leaves the other fetchers as they are. *)
Lemma settle_step (v : Variant) (cfg : Config) (transport : Transport)
    (s : State) (j : Z) (it : Item) :
  running s = true ->
  lookup j (batchPromises s) = Some it ->
  phase it <> Resolved ->
  exists s',
    step v cfg transport (Settle j) s = Some s' /\
    running s' = true /\ loop_i s' = loop_i s /\
    out s' = snd (onEvent v transport it (out s)) /\
    forall j', lookup j' (batchPromises s') =
               if j' =? j then Some (fst (onEvent v transport it (out s)))
               else lookup j' (batchPromises s).
Proof.
  intros Hrun Hl Hnr.
  destruct (settle_lookup v transport j _ (out s) _ Hl Hnr) as [b' Hs].
  exists {| loop_i := loop_i s; running := true; batchPromises := b';
            out := snd (onEvent v transport it (out s)) |}.
  unfold step. rewrite Hrun, Hs. split; [reflexivity|].
  cbn [running loop_i out batchPromises].
  split; [reflexivity|]. split; [reflexivity|]. split; [reflexivity|].
  destruct (settle_spec _ _ _ _ _ _ _ Hs (onEvent_tokenId v transport))
    as (it0 & it' & Hl0 & _ & Hev & Hlk & _).
  rewrite Hl in Hl0. injection Hl0 as <-. now rewrite Hev.
Qed.

Lemma barrier_opens (v : Variant) (cfg : Config) (transport : Transport)
    (s : State) :
  running s = true ->
  forallb isResolved (batchPromises s) = true ->
  step v cfg transport Barrier s =
  Some (loopTest v cfg (loop_i s + batchSize cfg)
          (emit [EvSleep (pacingDelay cfg)] (out s))).
Proof. intros Hrun Hall. unfold step. now rewrite Hrun, Hall. Qed.

(** A fetcher reaches [resolve()] through its own completions alone,
    whatever the other fetchers of the batch do. *)
Lemma fetcher_runs_alone (v : Variant) (cfg : Config) (transport : Transport)
    (m : nat) (s : State) (j : Z) (it : Item) :
  running s = true ->
  lookup j (batchPromises s) = Some it ->
  (itemWork it <= m)%nat ->
  exists (n : nat) s',
    exec v cfg transport (repeat (Settle j) n) s = Some s' /\
    running s' = true /\ loop_i s' = loop_i s /\
    (exists it', lookup j (batchPromises s') = Some it' /\
                 phase it' = Resolved) /\
    (forall j', j' <> j ->
       lookup j' (batchPromises s') = lookup j' (batchPromises s)) /\
    (n <= itemWork it)%nat.
Proof.
  revert s it. induction m as [|m IH]; intros s it Hrun Hl Hm.
  - exists 0%nat, s. cbn [repeat exec].
    split; [reflexivity|]. split; [exact Hrun|]. split; [reflexivity|].
    split; [|split; [reflexivity|lia]]. exists it. split; [exact Hl|].
    unfold itemWork in Hm. destruct (phase it); (reflexivity || lia).
  - assert (Hd : phase it = Resolved \/ phase it <> Resolved)
      by (destruct (phase it); (now left) || (right; discriminate)).
    destruct Hd as [Hp|Hnr].
    + exists 0%nat, s. cbn [repeat exec].
      split; [reflexivity|]. split; [exact Hrun|]. split; [reflexivity|].
      split; [eauto|]. split; [reflexivity|lia].
    + destruct (settle_step v cfg transport s j it Hrun Hl Hnr)
        as (s1 & Hs & Hrun1 & Hi1 & _ & Hlk).
      destruct (onEvent v transport it (out s)) as [it1 o1] eqn:Hev.
      cbn [fst] in Hlk.
      pose proof (onEvent_work _ _ _ _ _ _ Hev Hnr) as Hw.
      assert (Hl1 : lookup j (batchPromises s1) = Some it1)
        by (rewrite Hlk; now rewrite Z.eqb_refl).
      destruct (IH s1 it1 Hrun1 Hl1) as (n & s' & He & Hr' & Hi' & Hres & Hoth & Hn);
        [lia|].
      exists (S n), s'. cbn [repeat exec]. rewrite Hs.
      split; [exact He|]. split; [exact Hr'|]. split; [congruence|].
      split; [exact Hres|]. split; [|lia].
      intros j' Hne. rewrite Hoth, Hlk by exact Hne.
      destruct (Z.eqb_spec j' j); [contradiction|reflexivity].
Qed.

(** ** Reasoning over the reachable states *)

Lemma reachable_ind (v : Variant) (cfg : Config) (transport : Transport)
    (P : State -> Prop) :
  1 <= batchSize cfg ->
  P (init v cfg) ->
  (forall c s s',
     Inv v cfg transport s -> P s ->
     step v cfg transport c s = Some s' -> P s') ->
  forall sched s,
    exec v cfg transport sched (init v cfg) = Some s -> P s.
Proof.
  intros Hbs H0 Hstep sched.
  assert (Hgen : forall s0 s, Inv v cfg transport s0 -> P s0 ->
                   exec v cfg transport sched s0 = Some s -> P s).
  { induction sched as [|c sched IH]; intros s0 s HI HP H.
    - now injection H as <-.
    - cbn [exec] in H.
      destruct (step v cfg transport c s0) as [s1|] eqn:Hs; [|discriminate].
      eapply IH; [| |exact H].
      + eapply Inv_step; eauto.
      + eapply Hstep; eauto. }
  intros s. apply Hgen; [now apply Inv_init|exact H0].
Qed.

(** What the delivery of a completion changes. *)
Lemma settle_facts (v : Variant) (cfg : Config) (transport : Transport)
    (s s' : State) (j : Z) :
  Inv v cfg transport s ->
  step v cfg transport (Settle j) s = Some s' ->
  exists it it' es,
    lookup j (batchPromises s) = Some it /\
    phase it <> Resolved /\
    onEvent v transport it (out s) = (it', out s') /\
    loop_i s' = loop_i s /\
    running s = true /\ running s' = true /\
    (forall j', lookup j' (batchPromises s') =
                if j' =? j then Some it' else lookup j' (batchPromises s)) /\
    trace (out s') = trace (out s) ++ es /\
    TraceStep j it it' es /\
    progress (out s') =
      (progress (out s) + if isResolved it' then 1 else 0)%nat /\
    ~ In (EvResolve j) (trace (out s)) /\
    calls j (trace (out s)) = Retry._attempts (operation it).
Proof.
  intros HI H. unfold step in H. destruct (running s) eqn:Hrun; [|discriminate].
  destruct (settle v transport j (batchPromises s) (out s)) as [[b o]|] eqn:Hs;
    [|discriminate].
  injection H as <-. cbn [loop_i running batchPromises out].
  destruct (settle_spec _ _ _ _ _ _ _ Hs (onEvent_tokenId v transport))
    as (it & it' & Hl & Hnr & Hev & Hlk & _).
  pose proof (inv_items _ _ _ _ HI _ _ Hl) as Hok.
  destruct (onEvent_spec _ _ _ _ _ _ _ Hev Hok Hnr)
    as (_ & _ & _ & _ & _ & _ & Hprog & (es & Htr & Hts) & _).
  destruct (lookup_Some _ _ _ Hl) as [Hj _]. rewrite Hj in Hts.
  exists it, it', es. repeat (split; [assumption || reflexivity|]).
  split.
  - rewrite (inv_resolve _ _ _ _ HI). intros [Hp | (x & Hx & Hp)].
    + apply past_spec in Hp. pose proof (inv_ctrl _ _ _ _ HI) as Hc.
      rewrite Hrun in Hc. destruct Hc as [_ Hwin].
      apply lookup_ids in Hl. rewrite Hwin in Hl. apply range_In in Hl. lia.
    + rewrite Hl in Hx. injection Hx as <-. contradiction.
  - rewrite (inv_calls _ _ _ _ HI). unfold expectedCalls. now rewrite Hl.
Qed.

(** What passing the barrier changes. *)
Lemma barrier_facts (v : Variant) (cfg : Config) (transport : Transport)
    (s s' : State) :
  step v cfg transport Barrier s = Some s' ->
  running s = true /\
  forallb isResolved (batchPromises s) = true /\
  loop_i s' = loop_i s + batchSize cfg /\
  progress (out s') = progress (out s) /\
  Permutation (results (out s')) (results (out s)) /\
  ((loop_i s' <= endTokenId cfg /\ running s' = true /\
    batchPromises s' = map (newItem cfg) (window cfg (loop_i s')) /\
    trace (out s') =
      trace (out s) ++ EvSleep (pacingDelay cfg)
        :: map (fun j => EvCall j 1) (window cfg (loop_i s'))) \/
   (endTokenId cfg < loop_i s' /\ running s' = false /\
    batchPromises s' = [] /\
    trace (out s') = trace (out s) ++ [EvSleep (pacingDelay cfg)])).
Proof.
  unfold step. destruct (running s); [|discriminate].
  destruct (forallb isResolved (batchPromises s)); [|discriminate].
  intros H. injection H as <-. unfold loopTest.
  destruct (Z.leb_spec (loop_i s + batchSize cfg) (endTokenId cfg));
    cbn [launch loop_i running batchPromises out emit progress results trace].
  - repeat (split; [reflexivity|]). left.
    repeat (split; [assumption || reflexivity|]).
    now rewrite <- app_assoc.
  - repeat (split; [now destruct v|]).
    split; [destruct v; cbn; [reflexivity|apply sort_perm]|]. right.
    repeat (split; [assumption || reflexivity|]). now destruct v.
Qed.

Lemma init_facts (v : Variant) (cfg : Config) :
  loop_i (init v cfg) = startTokenId cfg /\
  progress (out (init v cfg)) = 0%nat /\
  results (out (init v cfg)) = [] /\
  csv (out (init v cfg)) = [] /\
  ((startTokenId cfg <= endTokenId cfg /\ running (init v cfg) = true /\
    batchPromises (init v cfg) =
      map (newItem cfg) (window cfg (startTokenId cfg)) /\
    trace (out (init v cfg)) =
      map (fun j => EvCall j 1) (window cfg (startTokenId cfg))) \/
   (endTokenId cfg < startTokenId cfg /\ running (init v cfg) = false /\
    batchPromises (init v cfg) = [] /\ trace (out (init v cfg)) = [])).
Proof.
  unfold init, loopTest.
  destruct (Z.leb_spec (startTokenId cfg) (endTokenId cfg));
    cbn [launch loop_i running batchPromises out emit progress results csv
         trace noOutput].
  - repeat (split; [reflexivity|]). left. auto.
  - repeat (split; [now destruct v|]). right.
    repeat (split; [assumption || reflexivity|]). now destruct v.
Qed.

(** ** Reaching the end of a fetcher, of a batch and of the run *)

Lemma can_resolve (v : Variant) (cfg : Config) (transport : Transport)
    (s : State) (j : Z) :
  1 <= batchSize cfg ->
  Inv v cfg transport s ->
  startTokenId cfg <= j <= endTokenId cfg ->
  exists sched' s',
    exec v cfg transport sched' s = Some s' /\ running s' = false /\
    In (EvResolve j) (trace (out s')).
Proof.
  intros Hbs HI Hj.
  destruct (can_finish v cfg transport (work cfg s) s Hbs HI (le_n _))
    as (sched' & s' & He & Hfin).
  exists sched', s'. split; [exact He|]. split; [exact Hfin|].
  pose proof (Inv_exec _ _ _ _ _ _ Hbs HI He) as HI'.
  now apply (inv_resolve _ _ _ _ HI'), (finished_done _ _ _ _ HI' Hfin).
Qed.

Lemma batch_can_settle (v : Variant) (cfg : Config) (transport : Transport)
    (n : nat) (s : State) :
  1 <= batchSize cfg ->
  Inv v cfg transport s ->
  running s = true ->
  (work cfg s <= n)%nat ->
  exists sched' s',
    exec v cfg transport sched' s = Some s' /\
    running s' = true /\ loop_i s' = loop_i s /\
    forallb isResolved (batchPromises s') = true.
Proof.
  intros Hbs. revert s. induction n as [|n IH]; intros s HI Hrun Hn;
    (destruct (forallb isResolved (batchPromises s)) eqn:Hall;
     [exists [], s; cbn [exec]; auto|]);
    pose proof (inv_ctrl _ _ _ _ HI) as Hc; rewrite Hrun in Hc;
    destruct Hc as [_ Hwin];
    (destruct (settle_possible v transport _ (out s) Hall)
       as (j & b' & o' & _ & Hs); [rewrite Hwin; apply range_NoDup|]);
    assert (Hstep : step v cfg transport (Settle j) s =
              Some {| loop_i := loop_i s; running := true;
                      batchPromises := b'; out := o' |})
      by (unfold step; now rewrite Hrun, Hs);
    pose proof (step_work _ _ _ _ _ _ Hbs HI Hstep) as Hw; [lia|].
  destruct (IH _ (Inv_step _ _ _ _ _ _ Hbs HI Hstep) eq_refl)
    as (sched' & s' & He & Hr & Hi & Ha); [lia|].
  exists (Settle j :: sched'), s'. cbn [exec]. rewrite Hstep. auto.
Qed.

(** From a running state the outer loop reaches each of its later batches. *)
Lemma window_reached (v : Variant) (cfg : Config) (transport : Transport)
    (m : nat) (s : State) :
  1 <= batchSize cfg ->
  Inv v cfg transport s ->
  running s = true ->
  loop_i s + Z.of_nat m * batchSize cfg <= endTokenId cfg ->
  exists sched' s',
    exec v cfg transport sched' s = Some s' /\
    running s' = true /\
    loop_i s' = loop_i s + Z.of_nat m * batchSize cfg.
Proof.
  intros Hbs. revert s. induction m as [|m IH]; intros s HI Hrun Hle.
  - exists [], s. cbn [exec]. split; [reflexivity|]. split; [exact Hrun|]. lia.
  - destruct (batch_can_settle v cfg transport (work cfg s) s Hbs HI Hrun (le_n _))
      as (sched1 & s1 & He1 & Hr1 & Hi1 & Hall).
    pose proof (Inv_exec _ _ _ _ _ _ Hbs HI He1) as HI1.
    pose proof (barrier_opens v cfg transport s1 Hr1 Hall) as Hb.
    destruct (barrier_facts _ _ _ _ _ Hb) as (_ & _ & Hi2 & _ & _ & Hcase).
    pose proof (Inv_step _ _ _ _ _ _ Hbs HI1 Hb) as HI2.
    destruct Hcase as [(_ & Hr2 & _) | (Hgt & _)]; [|lia].
    destruct (IH _ HI2 Hr2) as (sched3 & s3 & He3 & Hr3 & Hi3); [lia|].
    exists (sched1 ++ Barrier :: sched3), s3.
    rewrite exec_app, He1. cbn [exec]. rewrite Hb.
    split; [exact He3|]. split; [exact Hr3|]. lia.
Qed.

(** ** The callback of a failed call *)

Lemma absent_step (v : Variant) (cfg : Config) (transport : Transport)
    (s : State) (j : Z) (a : nat) (e : Error) :
  running s = true ->
  callPending s j a ->
  transport j a = Throws e ->
  invalidTokenId e = true ->
  exists s',
    step v cfg transport (Settle j) s = Some s' /\
    out s' = emit [EvResolve j] (increment (consoleWarn j (out s))) /\
    exists it', lookup j (batchPromises s') = Some it' /\
                phase it' = Resolved.
Proof.
  intros Hrun (it & Hl & Hp & Ha) He Hinv.
  destruct (settle_step v cfg transport s j it Hrun Hl)
    as (s' & Hs & _ & _ & Ho & Hlk); [rewrite Hp; discriminate|].
  destruct (lookup_Some _ _ _ Hl) as [Hj _].
  assert (Hev : onEvent v transport it (out s) =
                (setPhase Resolved it,
                 emit [EvResolve j] (increment (consoleWarn j (out s))))).
  { unfold onEvent. cbv zeta. now rewrite Hp, Hj, Ha, He, Hinv. }
  rewrite Hev in Ho, Hlk. exists s'. split; [exact Hs|]. split; [exact Ho|].
  exists (setPhase Resolved it). now rewrite Hlk, Z.eqb_refl.
Qed.

Lemma retry_step (v : Variant) (cfg : Config) (transport : Transport)
    (s : State) (j : Z) (a : nat) (e : Error) :
  Inv v cfg transport s ->
  callPending s j a ->
  transport j a = Throws e ->
  invalidTokenId e = false ->
  (a <= Retry.retries (retryOptions cfg))%nat ->
  exists t s1 s2,
    step v cfg transport (Settle j) s = Some s1 /\
    out s1 = emit [EvBackoff j t] (out s) /\
    step v cfg transport (Settle j) s1 = Some s2 /\
    out s2 = emit [EvCall j (S a)] (out s1) /\
    callPending s2 j (S a).
Proof.
  intros HI (it & Hl & Hp & Ha) He Hinv Hle.
  pose proof (in_flight_running _ _ _ _ _ _ HI Hl) as Hrun.
  pose proof (inv_items _ _ _ _ HI _ _ Hl) as Hok.
  destruct (lookup_Some _ _ _ Hl) as [Hj _].
  destruct it as [j0 [ts a0] ph].
  unfold itemOk in Hok.
  cbn [tokenId operation phase Retry._attempts Retry._timeouts] in *.
  subst j0 ph a0. destruct Hok as [_ Hlen].
  destruct ts as [|t ts]; [cbn [List.length] in Hlen; lia|].
  destruct (settle_step v cfg transport s j _ Hrun Hl)
    as (s1 & Hs1 & Hrun1 & _ & Ho1 & Hlk1); [discriminate|].
  unfold onEvent in Ho1, Hlk1.
  cbn [tokenId operation phase Retry._attempts Retry._timeouts Retry.retry]
    in Ho1, Hlk1.
  rewrite He, Hinv in Ho1, Hlk1. cbn [fst snd] in Ho1, Hlk1.
  pose proof (Hlk1 j) as Hl1. rewrite Z.eqb_refl in Hl1.
  destruct (settle_step v cfg transport s1 j _ Hrun1 Hl1)
    as (s2 & Hs2 & _ & _ & Ho2 & Hlk2); [discriminate|].
  unfold onEvent in Ho2, Hlk2.
  cbn [tokenId operation phase Retry._attempts Retry._timeouts Retry.fire
       fst snd] in Ho2, Hlk2.
  exists t, s1, s2. split; [exact Hs1|]. split; [exact Ho1|].
  split; [exact Hs2|]. split; [exact Ho2|].
  eexists. split; [rewrite Hlk2, Z.eqb_refl; reflexivity|]. split; reflexivity.
Qed.

Lemma last_error_step (v : Variant) (cfg : Config) (transport : Transport)
    (s : State) (j : Z) (a : nat) (e : Error) :
  Inv v cfg transport s ->
  callPending s j a ->
  transport j a = Throws e ->
  invalidTokenId e = false ->
  a = S (Retry.retries (retryOptions cfg)) ->
  exists s',
    step v cfg transport (Settle j) s = Some s' /\
    out s' = emit [EvResolve j]
               (increment (writeErrorLog j (message e) (out s))) /\
    exists it', lookup j (batchPromises s') = Some it' /\
                phase it' = Resolved.
Proof.
  intros HI (it & Hl & Hp & Ha) He Hinv Hlast.
  pose proof (in_flight_running _ _ _ _ _ _ HI Hl) as Hrun.
  pose proof (inv_items _ _ _ _ HI _ _ Hl) as Hok.
  destruct (lookup_Some _ _ _ Hl) as [Hj _].
  destruct it as [j0 [ts a0] ph].
  unfold itemOk in Hok.
  cbn [tokenId operation phase Retry._attempts Retry._timeouts] in *.
  subst j0 ph a0. destruct Hok as [_ Hlen].
  destruct ts as [|t ts]; [|cbn [List.length] in Hlen; lia].
  destruct (settle_step v cfg transport s j _ Hrun Hl)
    as (s1 & Hs1 & _ & _ & Ho1 & Hlk1); [discriminate|].
  unfold onEvent in Ho1, Hlk1.
  cbn [tokenId operation phase Retry._attempts Retry._timeouts Retry.retry]
    in Ho1, Hlk1.
  rewrite He, Hinv in Ho1, Hlk1. cbn [fst snd] in Ho1, Hlk1.
  exists s1. split; [exact Hs1|]. split; [exact Ho1|].
  eexists. split; [rewrite Hlk1, Z.eqb_refl; reflexivity|reflexivity].
Qed.

(** A fetcher all of whose calls throw a transient error: from its [a]-th
    call on, every failed call but the last is followed by a wait and the
    next call, and the last one by the entry in the error log. *)
Lemma exhausted_run (v : Variant) (cfg : Config) (transport : Transport)
    (j : Z) (d : nat) (s : State) (a : nat) :
  1 <= batchSize cfg ->
  Inv v cfg transport s ->
  (forall n, exists e, transport j n = Throws e /\ classify e = Transient) ->
  callPending s j a ->
  (a + d = S (Retry.retries (retryOptions cfg)))%nat ->
  exists s' e,
    exec v cfg transport (repeat (Settle j) (2 * d + 1)) s = Some s' /\
    transport j (S (Retry.retries (retryOptions cfg))) = Throws e /\
    (exists it', lookup j (batchPromises s') = Some it' /\
                 phase it' = Resolved) /\
    errorLog (out s') = errorLog (out s) ++ [(j, message e)] /\
    warned (out s') = warned (out s).
Proof.
  intros Hbs HI Hall. revert s a HI.
  induction d as [|d IH]; intros s a HI Hpend Had.
  - destruct (Hall a) as (e & He & Hc).
    assert (Hinv : invalidTokenId e = false)
      by (unfold classify in Hc; destruct (invalidTokenId e); congruence).
    destruct (last_error_step v cfg transport s j a e HI Hpend He Hinv)
      as (s' & Hs & Ho & Hres); [lia|].
    exists s', e. cbn [Nat.mul Nat.add repeat exec]. rewrite Hs.
    split; [reflexivity|]. split; [now replace (S _) with a by lia|].
    split; [exact Hres|]. rewrite Ho. split; reflexivity.
  - destruct (Hall a) as (e & He & Hc).
    assert (Hinv : invalidTokenId e = false)
      by (unfold classify in Hc; destruct (invalidTokenId e); congruence).
    destruct (retry_step v cfg transport s j a e HI Hpend He Hinv)
      as (t & s1 & s2 & Hs1 & Ho1 & Hs2 & Ho2 & Hpend2); [lia|].
    pose proof (Inv_step _ _ _ _ _ _ Hbs HI Hs1) as HI1.
    pose proof (Inv_step _ _ _ _ _ _ Hbs HI1 Hs2) as HI2.
    destruct (IH s2 (S a) HI2 Hpend2) as (s' & e' & Hx & He' & Hres & Hlog & Hw);
      [lia|].
    exists s', e'.
    replace (2 * S d + 1)%nat with (S (S (2 * d + 1))) by lia.
    cbn [repeat exec]. rewrite Hs1, Hs2.
    split; [exact Hx|]. split; [exact He'|]. split; [exact Hres|].
    rewrite Hlog, Hw, Ho2, Ho1. split; reflexivity.
Qed.

(** * The claims *)

(** ** Result set *)

(** What the three channels hold when the run is over. *)
Lemma finished_outcomes (v : Variant) (cfg : Config)
    (transport : Transport) (sched : list Choice) (s : State) :
  wfConfig cfg ->
  exec v cfg transport sched (init v cfg) = Some s ->
  running s = false ->
  Permutation
    (map snd (csv (out s)) ++ warned (out s) ++ map fst (errorLog (out s)))
    (JS.range (startTokenId cfg) (endTokenId cfg)) /\
  (forall owner j,
     In (owner, j) (csv (out s)) <->
     startTokenId cfg <= j <= endTokenId cfg /\
     fst (fetch cfg transport j) = Owned owner) /\
  (forall j,
     In j (warned (out s)) <->
     startTokenId cfg <= j <= endTokenId cfg /\
     fst (fetch cfg transport j) = Absent) /\
  (forall j msg,
     In (j, msg) (errorLog (out s)) <->
     startTokenId cfg <= j <= endTokenId cfg /\
     fst (fetch cfg transport j) = Failed msg) /\
  progress (out s) =
  List.length (JS.range (startTokenId cfg) (endTokenId cfg)).
Proof.
  intros [Hbs _] Hexec Hfin.
  pose proof (Inv_reachable _ _ _ _ _ Hbs Hexec) as HI.
  pose proof (finished_csv _ _ _ _ HI Hfin) as Hcsv.
  assert (Hrows : forall owner j,
    In (owner, j) (csv (out s)) <->
    startTokenId cfg <= j <= endTokenId cfg /\
    fst (fetch cfg transport j) = Owned owner).
  { intros owner j.
    rewrite <- range_In.
    change (fst (fetch cfg transport j) = Owned owner)
      with (ownedSel cfg transport (owner, j)).
    change j with (snd (owner, j)) at 2.
    rewrite <- ownedRows_In. split; apply Permutation_in;
      [exact Hcsv | symmetry; exact Hcsv]. }
  assert (Hwarn : forall j,
    In j (warned (out s)) <->
    startTokenId cfg <= j <= endTokenId cfg /\
    fst (fetch cfg transport j) = Absent).
  { intros j. destruct (inv_warned _ _ _ _ HI) as [_ Hin].
    rewrite Hin, (finished_done _ _ _ _ HI Hfin). reflexivity. }
  assert (Herr : forall j msg,
    In (j, msg) (errorLog (out s)) <->
    startTokenId cfg <= j <= endTokenId cfg /\
    fst (fetch cfg transport j) = Failed msg).
  { intros j msg. destruct (inv_errorLog _ _ _ _ HI) as [_ Hin].
    rewrite Hin, (finished_done _ _ _ _ HI Hfin). reflexivity. }
  split; [|split; [exact Hrows|split; [exact Hwarn|split; [exact Herr|]]]].
  - apply NoDup_Permutation.
    + apply NoDup_app; [|apply NoDup_app|].
      * eapply Permutation_NoDup.
        -- apply Permutation_map. symmetry. exact Hcsv.
        -- apply sorted_lt_NoDup, ascending_keys, ownedRows_ascending,
             range_sorted.
      * destruct (inv_warned _ _ _ _ HI) as [Hnd _].
        now rewrite map_id in Hnd.
      * apply (inv_errorLog _ _ _ _ HI).
      * intros j Hj Hj'. apply Hwarn in Hj. apply in_map_iff in Hj'.
        destruct Hj' as ([j' msg] & <- & Hin). apply Herr in Hin.
        cbn in Hj. destruct Hin as [_ Hin]. destruct Hj as [_ Hj].
        congruence.
      * intros j Hj Hj'. apply in_map_iff in Hj.
        destruct Hj as ([owner j'] & <- & Hin). apply Hrows in Hin.
        destruct Hin as [_ Hin]. cbn in Hj'. apply in_app_or in Hj'.
        destruct Hj' as [Hj' | Hj'].
        -- apply Hwarn in Hj'. destruct Hj' as [_ Hj']. congruence.
        -- apply in_map_iff in Hj'. destruct Hj' as ([j1 msg] & E & Hin').
           cbn in E. subst j1. apply Herr in Hin'.
           destruct Hin' as [_ Hin']. congruence.
    + apply range_NoDup.
    + intros j. rewrite !in_app_iff, range_In. split.
      * intros [Hj | [Hj | Hj]].
        -- apply in_map_iff in Hj. destruct Hj as ([owner j'] & <- & Hin).
           now apply Hrows in Hin.
        -- now apply Hwarn in Hj.
        -- apply in_map_iff in Hj. destruct Hj as ([j' msg] & <- & Hin).
           now apply Herr in Hin.
      * intros Hj. destruct (fst (fetch cfg transport j)) as [owner| |msg] eqn:E.
        -- left. apply in_map_iff. exists (owner, j). split; [reflexivity|].
           apply Hrows. auto.
        -- right. left. apply Hwarn. auto.
        -- right. right. apply in_map_iff. exists (j, msg).
           split; [reflexivity|]. apply Herr. auto.
  - rewrite (inv_progress _ _ _ _ HI), range_length.
    pose proof (inv_ctrl _ _ _ _ HI) as Hc. rewrite Hfin in Hc.
    destruct Hc as [Hgt ->]. cbn [filter List.length]. lia.
Qed.

(** C1, as amended.  In every completed run, each token id of the range has
    exactly one terminal outcome: an id appears once in exactly one of the
    table (its owner was found), the warnings (it does not exist) and the
    error log (its retries ran out), no other id appears anywhere, and the
    progress bar has counted every id once.  The table itself holds only
    the ids that have an owner. *)
Theorem every_id_one_outcome (v : Variant) (cfg : Config)
    (transport : Transport) (sched : list Choice) (s : State) :
  wfConfig cfg ->
  exec v cfg transport sched (init v cfg) = Some s ->
  running s = false ->
  Permutation
    (map snd (csv (out s)) ++ warned (out s) ++ map fst (errorLog (out s)))
    (JS.range (startTokenId cfg) (endTokenId cfg)) /\
  (forall owner j,
     In (owner, j) (csv (out s)) <->
     startTokenId cfg <= j <= endTokenId cfg /\
     fst (fetch cfg transport j) = Owned owner) /\
  (forall j,
     In j (warned (out s)) <->
     startTokenId cfg <= j <= endTokenId cfg /\
     fst (fetch cfg transport j) = Absent) /\
  (forall j msg,
     In (j, msg) (errorLog (out s)) <->
     startTokenId cfg <= j <= endTokenId cfg /\
     fst (fetch cfg transport j) = Failed msg) /\
  progress (out s) =
  List.length (JS.range (startTokenId cfg) (endTokenId cfg)).
Proof. apply finished_outcomes. Qed.

Lemma every_id_one_outcome_witness :
  exists s,
    exec SortAtEnd sampleConfig sampleTransport sampleSchedule
         (init SortAtEnd sampleConfig) = Some s /\
    Permutation
      (map snd (csv (out s)) ++ warned (out s) ++ map fst (errorLog (out s)))
      (JS.range 1 4).
Proof.
  eexists. split; [vm_compute; reflexivity|].
  refine (proj1 (every_id_one_outcome SortAtEnd sampleConfig sampleTransport
                   sampleSchedule _ _ _ _)).
  - split; [cbn; lia|reflexivity].
  - vm_compute. reflexivity.
  - reflexivity.
Defined.

(** C1 as stated fails: on the sample, token 2 does not exist and token 3
    runs out of retries, and the result array and the table hold the ids
    1 and 4 only. *)
Lemma results_hold_owned_ids_only :
  exists s,
    exec SortAtEnd sampleConfig sampleTransport sampleSchedule
         (init SortAtEnd sampleConfig) = Some s /\
    running s = false /\
    map snd (results (out s)) = [1; 4] /\
    map snd (csv (out s)) = [1; 4] /\
    ~ Permutation (map snd (csv (out s)))
        (JS.range (startTokenId sampleConfig) (endTokenId sampleConfig)).
Proof.
  eexists. split; [vm_compute; reflexivity|].
  split; [reflexivity|]. split; [reflexivity|]. split; [reflexivity|].
  intros H. apply Permutation_length in H. discriminate H.
Qed.

(** ** Order of the table *)

(** The sort-at-end script writes the rows of the ids that have an owner,
    strictly ascending by token id, whatever the completion order. *)
Lemma sorted_variant_ascending (cfg : Config) (transport : Transport)
    (sched : list Choice) (s : State) :
  wfConfig cfg ->
  exec SortAtEnd cfg transport sched (init SortAtEnd cfg) = Some s ->
  running s = false ->
  csv (out s) =
  ownedRows cfg transport (JS.range (startTokenId cfg) (endTokenId cfg)) /\
  ascending (csv (out s)).
Proof.
  intros [Hbs _] Hexec Hfin.
  pose proof (Inv_reachable _ _ _ _ _ Hbs Hexec) as HI.
  rewrite (sorted_variant_csv _ _ _ HI Hfin). split; [reflexivity|].
  apply ownedRows_ascending, range_sorted.
Qed.

Lemma jitter_run :
  option_map (fun s => (running s, firstn 2 (csv (out s)),
                        ascendingb (csv (out s))))
    (exec WriteImmediately config_by_id everyTokenOwned jitterSchedule
          (init WriteImmediately config_by_id)) =
  Some (false, [(ownerOf 1002, 1002); (ownerOf 1001, 1001)], false).
Proof. vm_compute. reflexivity. Qed.

(** C2 fails for [get_nft_owners_by_id.mjs].  With the constants of the
    script and every token owned, a run in which the call for 1002
    completes before the call for 1001 ends with a table whose first rows
    are 1002, 1001: the table is not ascending. *)
Theorem immediate_write_follows_completion_order :
  exists s,
    exec WriteImmediately config_by_id everyTokenOwned jitterSchedule
         (init WriteImmediately config_by_id) = Some s /\
    running s = false /\
    firstn 2 (csv (out s)) = [(ownerOf 1002, 1002); (ownerOf 1001, 1001)] /\
    ~ ascending (csv (out s)).
Proof.
  pose proof jitter_run as H.
  destruct (exec WriteImmediately config_by_id everyTokenOwned jitterSchedule
              (init WriteImmediately config_by_id)) as [s|]; [|discriminate].
  cbn [option_map] in H. injection H as H1 H2 H3.
  exists s. split; [reflexivity|]. split; [exact H1|]. split; [exact H2|].
  intros Ha. apply ascendingb_spec in Ha. congruence.
Qed.

(** ** Batch size *)

(** The table of the sort-at-end script does not depend on the batch size,
    on the pacing delay or on the completion order. *)
Lemma sorted_variant_batch_size_invariant (cfg1 cfg2 : Config)
    (transport : Transport) (sched1 sched2 : list Choice) (s1 s2 : State) :
  wfConfig cfg1 -> wfConfig cfg2 ->
  startTokenId cfg1 = startTokenId cfg2 ->
  endTokenId cfg1 = endTokenId cfg2 ->
  retryOptions cfg1 = retryOptions cfg2 ->
  exec SortAtEnd cfg1 transport sched1 (init SortAtEnd cfg1) = Some s1 ->
  running s1 = false ->
  exec SortAtEnd cfg2 transport sched2 (init SortAtEnd cfg2) = Some s2 ->
  running s2 = false ->
  csv (out s1) = csv (out s2).
Proof.
  intros Hwf1 Hwf2 Hs He Hr Hx1 Hf1 Hx2 Hf2.
  destruct (sorted_variant_ascending _ _ _ _ Hwf1 Hx1 Hf1) as [-> _].
  destruct (sorted_variant_ascending _ _ _ _ Hwf2 Hx2 Hf2) as [-> _].
  unfold ownedRows, fetch. now rewrite Hs, He, Hr.
Qed.

(** C8 fails for the write-immediately script.  Over the ids 1001 to 1010,
    all owned, batch size 1 gives the rows in ascending order; batch size
    10, with the call for 1002 completing first, gives the same rows in
    another order. *)
Theorem immediate_write_depends_on_batch_size :
  exists s1 s10,
    exec WriteImmediately (smallRange 1) everyTokenOwned oneByOne
         (init WriteImmediately (smallRange 1)) = Some s1 /\
    running s1 = false /\
    exec WriteImmediately (smallRange 10) everyTokenOwned tenAtOnce
         (init WriteImmediately (smallRange 10)) = Some s10 /\
    running s10 = false /\
    map snd (csv (out s1)) =
      [1001; 1002; 1003; 1004; 1005; 1006; 1007; 1008; 1009; 1010] /\
    map snd (csv (out s10)) =
      [1002; 1001; 1003; 1004; 1005; 1006; 1007; 1008; 1009; 1010] /\
    csv (out s1) <> csv (out s10) /\
    Permutation (csv (out s1)) (csv (out s10)).
Proof.
  eexists. eexists.
  split; [vm_compute; reflexivity|]. split; [reflexivity|].
  split; [vm_compute; reflexivity|]. split; [reflexivity|].
  split; [reflexivity|]. split; [reflexivity|].
  split; [discriminate|]. apply perm_swap.
Qed.

(** ** The scheduler *)

(** C3. The outer loop cuts the range into consecutive windows of
    [batchSize] ids, the last one possibly shorter; the fetchers in flight
    are those of one window; a call for an id is made only when every id of
    the earlier windows is resolved and one sleep per earlier window has
    elapsed; the barrier is passed only when every promise of the batch is
    resolved, and is followed by the sleep and then by the first calls of
    the next window, one per id.  The loop does advance: once every promise
    of the batch is resolved the barrier is passed, from any point of a run
    each later window is reached, and the run can be completed with every
    id of the range called and resolved. *)
Theorem batch_scheduler (v : Variant) (cfg : Config) (transport : Transport)
    (sched : list Choice) (s : State) :
  wfConfig cfg ->
  exec v cfg transport sched (init v cfg) = Some s ->
  List.concat (allBatches cfg) =
    JS.range (startTokenId cfg) (endTokenId cfg) /\
  (forall k : nat,
     let i := startTokenId cfg + Z.of_nat k * batchSize cfg in
     nth_error (allBatches cfg) k =
     if i <=? endTokenId cfg
     then Some (JS.range i (Z.min (i + batchSize cfg - 1) (endTokenId cfg)))
     else None) /\
  (forall i, i <= endTokenId cfg ->
     List.length (window cfg i) =
     Z.to_nat (Z.min (batchSize cfg) (endTokenId cfg - i + 1))) /\
  (running s = true ->
     exists k : nat,
       loop_i s = startTokenId cfg + Z.of_nat k * batchSize cfg /\
       nth_error (allBatches cfg) k = Some (map tokenId (batchPromises s))) /\
  traceOrdered cfg (trace (out s)) /\
  (forall s', step v cfg transport Barrier s = Some s' ->
     forallb isResolved (batchPromises s) = true /\
     (forall it, In it (batchPromises s') -> phase it = Calling) /\
     trace (out s') =
     trace (out s) ++ EvSleep (pacingDelay cfg)
       :: map (fun j => EvCall j 1) (map tokenId (batchPromises s'))) /\
  (running s = true ->
   forallb isResolved (batchPromises s) = true ->
   exists s', step v cfg transport Barrier s = Some s') /\
  (forall (k : nat) (w : list Z),
     nth_error (allBatches cfg) k = Some w ->
     loop_i s <= startTokenId cfg + Z.of_nat k * batchSize cfg ->
     exists sched' s',
       exec v cfg transport sched' s = Some s' /\
       running s' = true /\
       loop_i s' = startTokenId cfg + Z.of_nat k * batchSize cfg /\
       map tokenId (batchPromises s') = w) /\
  (exists sched' s',
     exec v cfg transport sched' s = Some s' /\
     running s' = false /\
     forall j, startTokenId cfg <= j <= endTokenId cfg ->
       In (EvResolve j) (trace (out s')) /\
       (1 <= calls j (trace (out s')))%nat).
Proof.
  intros [Hbs _] Hexec.
  pose proof (Inv_reachable _ _ _ _ _ Hbs Hexec) as HI.
  split; [apply batches_concat; [exact Hbs|lia]|].
  split; [intros k i; apply batches_nth; [exact Hbs|lia]|].
  split; [intros i Hi; now apply window_length|].
  split.
  { intros Hrun. pose proof (inv_ctrl _ _ _ _ HI) as Hc. rewrite Hrun in Hc.
    destruct Hc as [Hle Hwin]. destruct (inv_iter _ _ _ _ HI) as (k & Hk & _).
    exists k. split; [exact Hk|]. unfold allBatches.
    rewrite batches_nth by (try exact Hbs; lia). rewrite <- Hk, Hwin.
    destruct (Z.leb_spec (loop_i s) (endTokenId cfg)); [reflexivity|lia]. }
  split; [eapply traceOrdered_reachable; eauto|].
  split.
  { intros s' Hstep. unfold step in Hstep.
    destruct (running s); [|discriminate].
    destruct (forallb isResolved (batchPromises s)); [|discriminate].
    injection Hstep as <-. split; [reflexivity|]. unfold loopTest.
    destruct (loop_i s + batchSize cfg <=? endTokenId cfg);
      cbn [launch batchPromises out emit trace].
    - split.
      + intros it Hit. apply in_map_iff in Hit.
        now destruct Hit as (j & <- & _).
      + rewrite new_batch_ids, <- app_assoc. reflexivity.
    - split; [contradiction|]. now destruct v. }
  split.
  { intros Hrun Hall. eexists. now apply barrier_opens. }
  split.
  { intros k w Hw Hle. unfold allBatches in Hw.
    rewrite batches_nth in Hw by (try exact Hbs; lia).
    destruct (Z.leb_spec (startTokenId cfg + Z.of_nat k * batchSize cfg)
                (endTokenId cfg)) as [Hk|Hk]; [|discriminate].
    injection Hw as <-.
    destruct (inv_iter _ _ _ _ HI) as (k0 & Hk0 & _).
    pose proof (inv_ctrl _ _ _ _ HI) as Hc.
    destruct (running s) eqn:Hrun; [|lia].
    assert (Hkk : (k0 <= k)%nat) by nia.
    destruct (window_reached v cfg transport (k - k0) s Hbs HI Hrun)
      as (sched' & s' & He & Hr & Hi); [nia|].
    exists sched', s'. split; [exact He|]. split; [exact Hr|].
    assert (Hi' : loop_i s' = startTokenId cfg + Z.of_nat k * batchSize cfg)
      by nia.
    split; [exact Hi'|].
    pose proof (inv_ctrl _ _ _ _ (Inv_exec _ _ _ _ _ _ Hbs HI He)) as Hc'.
    rewrite Hr in Hc'. destruct Hc' as [_ Hwin]. now rewrite Hwin, Hi'. }
  destruct (can_finish v cfg transport (work cfg s) s Hbs HI (le_n _))
    as (sched' & s' & He & Hfin).
  exists sched', s'. split; [exact He|]. split; [exact Hfin|].
  pose proof (Inv_exec _ _ _ _ _ _ Hbs HI He) as HI'. intros j Hj.
  split; [now apply (inv_resolve _ _ _ _ HI'), (finished_done _ _ _ _ HI' Hfin)|].
  rewrite (calls_of_done _ _ _ _ HI' Hfin) by exact Hj.
  apply fetch_bounds.
Qed.

Lemma batch_scheduler_witness :
  exists s,
    exec SortAtEnd sampleConfig sampleTransport sampleSchedule
         (init SortAtEnd sampleConfig) = Some s /\
    List.concat (allBatches sampleConfig) = JS.range 1 4 /\
    allBatches sampleConfig = [[1; 2; 3]; [4]] /\
    traceOrdered sampleConfig (trace (out s)).
Proof.
  eexists. split; [vm_compute; reflexivity|].
  split; [reflexivity|]. split; [reflexivity|].
  refine (proj1 (proj2 (proj2 (proj2 (proj2
            (batch_scheduler SortAtEnd sampleConfig sampleTransport
               sampleSchedule _ _ _)))))).
  - split; [cbn; lia|reflexivity].
  - vm_compute. reflexivity.
Defined.

(** ** Concurrency bound *)

Lemma calling_not_resolved (b : list Item) :
  (List.length (filter isCalling b) <=
   List.length (filter (fun it => negb (isResolved it)) b))%nat.
Proof.
  induction b as [|x b IH]; [reflexivity|]. cbn [filter].
  replace (isCalling x) with (match phase x with Calling => true | _ => false end)
    by reflexivity.
  replace (isResolved x) with (match phase x with Resolved => true | _ => false end)
    by reflexivity.
  destruct (phase x); cbn [negb List.length]; lia.
Qed.

Lemma nothing_in_flight (b : list Item) :
  forallb isResolved b = true ->
  filter (fun it => negb (isResolved it)) b = [].
Proof.
  induction b as [|x b IH]; [reflexivity|]. cbn [forallb filter].
  intros H. apply andb_true_iff in H. destruct H as [-> Hb]. cbn [negb].
  auto.
Qed.

Lemma inFlight_bound (v : Variant) (cfg : Config) (transport : Transport)
    (s : State) :
  1 <= batchSize cfg ->
  Inv v cfg transport s ->
  (inFlight s <= Z.to_nat (batchSize cfg))%nat.
Proof.
  intros Hbs HI. unfold inFlight.
  pose proof (filter_length_le (fun it => negb (isResolved it))
                (batchPromises s)) as Hle.
  pose proof (inv_ctrl _ _ _ _ HI) as Hc. destruct (running s).
  - destruct Hc as [Hi Hwin]. rewrite <- (length_map tokenId (batchPromises s)), Hwin in Hle.
    rewrite window_length in Hle by assumption. lia.
  - destruct Hc as [_ Hb]. rewrite Hb in *. cbn in *. lia.
Qed.

(** C9. At every point of a run at most [batchSize] fetchers are not yet
    resolved, hence at most [batchSize] remote calls are pending; new
    fetchers are started only by the step that passes the barrier, when no
    fetcher is pending, and that step starts at most [batchSize] of them. *)
Theorem bounded_in_flight (v : Variant) (cfg : Config) (transport : Transport)
    (sched : list Choice) (s : State) :
  wfConfig cfg ->
  exec v cfg transport sched (init v cfg) = Some s ->
  (callsInFlight s <= inFlight s)%nat /\
  (inFlight s <= Z.to_nat (batchSize cfg))%nat /\
  (forall j s', step v cfg transport (Settle j) s = Some s' ->
     map tokenId (batchPromises s') = map tokenId (batchPromises s)) /\
  (forall s', step v cfg transport Barrier s = Some s' ->
     inFlight s = 0%nat /\
     (inFlight s' <= Z.to_nat (batchSize cfg))%nat).
Proof.
  intros [Hbs _] Hexec.
  pose proof (Inv_reachable _ _ _ _ _ Hbs Hexec) as HI.
  split; [apply calling_not_resolved|].
  split; [eapply inFlight_bound; eauto|]. split.
  - intros j s' Hstep. unfold step in Hstep.
    destruct (running s); [|discriminate].
    destruct (settle v transport j (batchPromises s) (out s)) as [[b o]|] eqn:Hs;
      [|discriminate].
    injection Hstep as <-. cbn [batchPromises].
    now destruct (settle_spec _ _ _ _ _ _ _ Hs (onEvent_tokenId v transport))
      as (_ & _ & _ & _ & _ & _ & H & _).
  - intros s' Hstep. split.
    + unfold step in Hstep. destruct (running s); [|discriminate].
      destruct (forallb isResolved (batchPromises s)) eqn:Hall; [|discriminate].
      unfold inFlight. now rewrite nothing_in_flight.
    + eapply inFlight_bound; [exact Hbs|]. eapply Inv_step; eauto.
Qed.

Lemma bounded_in_flight_witness :
  exists s,
    exec WriteImmediately config_by_id everyTokenOwned
         [Settle 1002; Settle 1001]
         (init WriteImmediately config_by_id) = Some s /\
    inFlight s = 5%nat /\ callsInFlight s = 3%nat /\
    (inFlight s <= Z.to_nat (batchSize config_by_id))%nat.
Proof.
  eexists. split; [vm_compute; reflexivity|].
  split; [reflexivity|]. split; [reflexivity|].
  refine (proj1 (proj2 (bounded_in_flight WriteImmediately config_by_id
                          everyTokenOwned [Settle 1002; Settle 1001] _ _ _))).
  - split; [cbn; lia|reflexivity].
  - vm_compute. reflexivity.
Defined.

(** ** Classification and retries in a run *)

Lemma fetchFrom_retried (transport : Transport) (j : Z) (ts : list Z)
    (a0 a : nat) :
  (a0 <= a < a0 + List.length ts)%nat ->
  (forall n, (a0 <= n <= a)%nat ->
             exists e, transport j n = Throws e /\ classify e = Transient) ->
  (a < snd (fetchFrom transport j a0 ts))%nat.
Proof.
  revert a0. induction ts as [|t ts IH]; intros a0 Ha Hall.
  - cbn [List.length] in Ha. lia.
  - cbn [fetchFrom]. destruct (Hall a0) as (e & He & Hc); [lia|].
    rewrite He. unfold classify in Hc.
    destruct (invalidTokenId e); [discriminate|].
    destruct (Nat.eq_dec a a0) as [->|Hne].
    + pose proof (fetchFrom_bounds transport j ts (S a0)). lia.
    + apply IH; [cbn [List.length] in Ha; lia|].
      intros n Hn. apply Hall. lia.
Qed.

Lemma fetchFrom_exhausted (transport : Transport) (j : Z) (ts : list Z)
    (a0 : nat) (e : Error) :
  (forall n, (a0 <= n < a0 + List.length ts)%nat ->
             exists e', transport j n = Throws e' /\ classify e' = Transient) ->
  transport j (a0 + List.length ts)%nat = Throws e ->
  classify e = Transient ->
  fetchFrom transport j a0 ts =
  (Failed (message e), (a0 + List.length ts)%nat).
Proof.
  revert a0. induction ts as [|t ts IH]; intros a0 Hall He Hc.
  - cbn [List.length fetchFrom] in *. rewrite Nat.add_0_r in *. rewrite He.
    unfold classify in Hc. now destruct (invalidTokenId e).
  - cbn [List.length] in *. cbn [fetchFrom].
    destruct (Hall a0) as (e' & He' & Hc'); [lia|]. rewrite He'.
    unfold classify in Hc'. destruct (invalidTokenId e'); [discriminate|].
    rewrite Nat.add_succ_r in *. apply (IH (S a0)); [|exact He|exact Hc].
    intros n Hn. apply Hall. lia.
Qed.

(** C5. A thrown error is classified [PermanentAbsence] exactly when its
    code is CALL_EXCEPTION and its reason contains "invalid token ID", and
    [Transient] otherwise.  The fetcher of an id always ends: an id in
    flight is resolved by its own completions alone, and every id of the
    range is resolved in some continuation of the run.  When the error of
    attempt [a] of an id is a permanent absence (the earlier attempts
    having been retried), the callback of that call warns, counts the id
    and resolves the promise at once, with no timer armed and no further
    call; once resolved the id is in the warnings, not in the error log,
    and attempt [a] was its last call.  A transient error is followed by a
    wait and another call while the budget lasts, and ends the fetcher as
    failed, with its entry in the error log, when the budget is used up. *)
Theorem permanent_absence_ends_the_fetcher (v : Variant) (cfg : Config)
    (transport : Transport) (sched : list Choice) (s : State)
    (j : Z) (a : nat) (e : Error) :
  wfConfig cfg ->
  exec v cfg transport sched (init v cfg) = Some s ->
  (1 <= a <= S (Retry.retries (retryOptions cfg)))%nat ->
  (forall n, (1 <= n < a)%nat ->
             exists e', transport j n = Throws e' /\ classify e' = Transient) ->
  transport j a = Throws e ->
  (classify e = PermanentAbsence <->
   code e = Some "CALL_EXCEPTION"%string /\
   exists r pre post,
     reason e = Some r /\ r = (pre ++ "invalid token ID" ++ post)%string) /\
  (classify e <> PermanentAbsence -> classify e = Transient) /\
  ((exists it, lookup j (batchPromises s) = Some it) ->
   exists (n : nat) s',
     exec v cfg transport (repeat (Settle j) n) s = Some s' /\
     In (EvResolve j) (trace (out s'))) /\
  (startTokenId cfg <= j <= endTokenId cfg ->
   exists sched' s',
     exec v cfg transport sched' s = Some s' /\
     In (EvResolve j) (trace (out s'))) /\
  (classify e = PermanentAbsence ->
   (callPending s j a ->
    exists s',
      step v cfg transport (Settle j) s = Some s' /\
      out s' = emit [EvResolve j] (increment (consoleWarn j (out s)))) /\
   (In (EvResolve j) (trace (out s)) ->
    calls j (trace (out s)) = a /\
    In j (warned (out s)) /\
    ~ In j (map fst (errorLog (out s))) /\
    forall pre post,
      trace (out s) = pre ++ EvResolve j :: post -> calls j post = 0%nat)) /\
  (classify e = Transient ->
   ((a <= Retry.retries (retryOptions cfg))%nat ->
    (callPending s j a ->
     exists t s1 s2,
       step v cfg transport (Settle j) s = Some s1 /\
       out s1 = emit [EvBackoff j t] (out s) /\
       step v cfg transport (Settle j) s1 = Some s2 /\
       out s2 = emit [EvCall j (S a)] (out s1) /\
       callPending s2 j (S a)) /\
    (In (EvResolve j) (trace (out s)) ->
     (a < calls j (trace (out s)))%nat)) /\
   (a = S (Retry.retries (retryOptions cfg)) ->
    (callPending s j a ->
     exists s',
       step v cfg transport (Settle j) s = Some s' /\
       out s' = emit [EvResolve j]
                  (increment (writeErrorLog j (message e) (out s)))) /\
    (In (EvResolve j) (trace (out s)) ->
     calls j (trace (out s)) = a /\ In (j, message e) (errorLog (out s))))).
Proof.
  intros [Hbs _] Hexec Ha Hbefore He.
  pose proof (Inv_reachable _ _ _ _ _ Hbs Hexec) as HI.
  split.
  { unfold classify. rewrite <- invalidTokenId_spec.
    destruct (invalidTokenId e); intuition congruence. }
  split.
  { unfold classify. destruct (invalidTokenId e); congruence. }
  split.
  { intros [it Hl].
    pose proof (in_flight_running _ _ _ _ _ _ HI Hl) as Hrun.
    destruct (fetcher_runs_alone v cfg transport (itemWork it) s j it
                Hrun Hl (le_n _))
      as (n & s' & Hx & _ & _ & (it' & Hl' & Hp') & _).
    exists n, s'. split; [exact Hx|].
    eapply resolved_in_trace; [|exact Hl'|exact Hp'].
    eapply Inv_exec; eauto. }
  split.
  { intros Hj. destruct (can_resolve v cfg transport s j Hbs HI Hj)
      as (sched' & s' & Hx & _ & Hr). eauto. }
  split.
  - intros Hc.
    assert (Hinv : invalidTokenId e = true)
      by (unfold classify in Hc; destruct (invalidTokenId e); congruence).
    split.
    + intros Hpend. pose proof Hpend as (it & Hl & _).
      pose proof (in_flight_running _ _ _ _ _ _ HI Hl) as Hrun.
      destruct (absent_step v cfg transport s j a e Hrun Hpend He Hinv)
        as (s' & Hs & Ho & _). eauto.
    + intros Hres. apply (inv_resolve _ _ _ _ HI) in Hres.
      pose proof (calls_when_done _ _ _ _ _ HI Hres) as Hcalls.
      assert (Hf : fetch cfg transport j = (Absent, a)).
      { unfold fetch. eapply fetchFrom_absent_at; eauto.
        rewrite timeouts_length. lia. }
      rewrite Hcalls, Hf. split; [reflexivity|]. split; [|split].
      * apply (inv_warned _ _ _ _ HI). split; [exact Hres|].
        unfold absentSel. now rewrite Hf.
      * intros Hin. apply in_map_iff in Hin.
        destruct Hin as ([j' msg] & E & Hin). cbn in E. subst j'.
        apply (inv_errorLog _ _ _ _ HI) in Hin. destruct Hin as [_ Hin].
        unfold failedSel in Hin. cbn [fst snd] in Hin. rewrite Hf in Hin.
        discriminate.
      * intros pre post.
        exact (proj2 (traceOrdered_reachable _ _ _ _ _ Hbs Hexec) pre j post).
  - intros Hc.
    assert (Hinv : invalidTokenId e = false)
      by (unfold classify in Hc; destruct (invalidTokenId e); congruence).
    split.
    + intros Hle. split.
      * intros Hpend. now apply (retry_step v cfg transport s j a e).
      * intros Hres. apply (inv_resolve _ _ _ _ HI) in Hres.
        rewrite (calls_when_done _ _ _ _ _ HI Hres).
        unfold fetch. apply fetchFrom_retried.
        -- rewrite timeouts_length. lia.
        -- intros n Hn. destruct (Nat.eq_dec n a) as [->|Hne]; [eauto|].
           apply Hbefore. lia.
    + intros Hlast. split.
      * intros Hpend.
        destruct (last_error_step v cfg transport s j a e HI Hpend He Hinv
                    Hlast) as (s' & Hs & Ho & _). eauto.
      * intros Hres. apply (inv_resolve _ _ _ _ HI) in Hres. subst a.
        assert (Hf : fetch cfg transport j =
                     (Failed (message e),
                      S (Retry.retries (retryOptions cfg)))).
        { unfold fetch.
          pose proof (fetchFrom_exhausted transport j
                        (Retry.timeouts (retryOptions cfg)) 1 e) as H.
          rewrite timeouts_length in H. apply H; [|exact He|exact Hc].
          intros n Hn. apply Hbefore. lia. }
        rewrite (calls_when_done _ _ _ _ _ HI Hres), Hf.
        split; [reflexivity|].
        apply (inv_errorLog _ _ _ _ HI). split; [exact Hres|].
        unfold failedSel. cbn [fst snd]. now rewrite Hf.
Qed.

Lemma permanent_absence_ends_the_fetcher_witness :
  exists s',
    step SortAtEnd sampleConfig sampleTransport (Settle 2)
         (init SortAtEnd sampleConfig) = Some s' /\
    out s' = emit [EvResolve 2]
               (increment (consoleWarn 2 (out (init SortAtEnd sampleConfig)))).
Proof.
  refine (proj1 (proj1 (proj2 (proj2 (proj2 (proj2
            (permanent_absence_ends_the_fetcher SortAtEnd sampleConfig
               sampleTransport [] (init SortAtEnd sampleConfig) 2 1
               invalidIdError _ _ _ _ _)))))
            _) _).
  - split; [cbn; lia|reflexivity].
  - reflexivity.
  - cbn. lia.
  - intros n Hn. lia.
  - reflexivity.
  - reflexivity.
  - eexists. split; [vm_compute; reflexivity|]. split; reflexivity.
Defined.

(** C6, as amended.  A fetcher all of whose calls throw a transient error
    ends as failed after exactly [retries + 1] calls, the first one and one
    per retry (11 with the options of the scripts): from its [a]-th call
    on, its own completions alone (a wait and a call for each retry left,
    then the callback of the last call) resolve its promise and append one
    entry to the error log, with the message of the error of the last
    call; every such id of the range is resolved in some continuation of
    the run.  Once resolved, it was called [retries + 1] times, no call is
    made for it afterwards, and the error log holds exactly one line for
    it, [Error fetching owner for token ID <id>: <message>]. *)
Theorem exhausted_item_fails (v : Variant) (cfg : Config)
    (transport : Transport) (sched : list Choice) (s : State) (j : Z) :
  wfConfig cfg ->
  exec v cfg transport sched (init v cfg) = Some s ->
  (forall n, exists e, transport j n = Throws e /\ classify e = Transient) ->
  (forall a, callPending s j a ->
     exists s' e,
       exec v cfg transport
            (repeat (Settle j)
                    (2 * (S (Retry.retries (retryOptions cfg)) - a) + 1)) s
         = Some s' /\
       transport j (S (Retry.retries (retryOptions cfg))) = Throws e /\
       In (EvResolve j) (trace (out s')) /\
       calls j (trace (out s')) = S (Retry.retries (retryOptions cfg)) /\
       errorLog (out s') = errorLog (out s) ++ [(j, message e)] /\
       warned (out s') = warned (out s)) /\
  (startTokenId cfg <= j <= endTokenId cfg ->
   exists sched' s',
     exec v cfg transport sched' s = Some s' /\
     In (EvResolve j) (trace (out s'))) /\
  (In (EvResolve j) (trace (out s)) ->
   calls j (trace (out s)) = S (Retry.retries (retryOptions cfg)) /\
   (forall pre post,
      trace (out s) = pre ++ EvResolve j :: post -> calls j post = 0%nat) /\
   exists e,
     transport j (S (Retry.retries (retryOptions cfg))) = Throws e /\
     filter (fun x => fst x =? j) (errorLog (out s)) = [(j, message e)] /\
     errorLogLine (j, message e) =
       ("Error fetching owner for token ID " ++ JS.numberToString j ++ ": "
        ++ message e ++ String "010" EmptyString)%string /\
     ~ In j (warned (out s))).
Proof.
  intros [Hbs _] Hexec Hall.
  pose proof (Inv_reachable _ _ _ _ _ Hbs Hexec) as HI.
  destruct (fetchFrom_all_transient transport j
              (Retry.timeouts (retryOptions cfg)) 1 Hall) as (e & He & Hf).
  rewrite timeouts_length in He, Hf. cbn [Nat.add] in He, Hf.
  fold (fetch cfg transport j) in Hf.
  split.
  { intros a Hpend.
    assert (Hle : (a <= S (Retry.retries (retryOptions cfg)))%nat).
    { destruct Hpend as (it & Hl & Hp & Ha).
      pose proof (inv_items _ _ _ _ HI _ _ Hl) as Hok. unfold itemOk in Hok.
      rewrite Hp in Hok. lia. }
    destruct (exhausted_run v cfg transport j
                (S (Retry.retries (retryOptions cfg)) - a) s a Hbs HI Hall
                Hpend)
      as (s' & e' & Hx & He' & (it' & Hl' & Hp') & Hlog & Hw); [lia|].
    exists s', e'. split; [exact Hx|]. split; [exact He'|].
    pose proof (Inv_exec _ _ _ _ _ _ Hbs HI Hx) as HI'.
    pose proof (resolved_in_trace _ _ _ _ _ _ HI' Hl' Hp') as Hres.
    split; [exact Hres|]. split; [|split; [exact Hlog|exact Hw]].
    apply (inv_resolve _ _ _ _ HI') in Hres.
    now rewrite (calls_when_done _ _ _ _ _ HI' Hres), Hf. }
  split.
  { intros Hj. destruct (can_resolve v cfg transport s j Hbs HI Hj)
      as (sched' & s' & Hx & _ & Hr). eauto. }
  intros Hres. apply (inv_resolve _ _ _ _ HI) in Hres.
  split; [rewrite (calls_when_done _ _ _ _ _ HI Hres), Hf; reflexivity|].
  split.
  { intros pre post.
    exact (proj2 (traceOrdered_reachable _ _ _ _ _ Hbs Hexec) pre j post). }
  exists e. split; [exact He|]. split; [|split; [reflexivity|]].
  - destruct (inv_errorLog _ _ _ _ HI) as [Hnd Hin].
    apply filter_unique_key; [exact Hnd|]. apply Hin.
    split; [exact Hres|]. unfold failedSel. cbn [fst snd]. now rewrite Hf.
  - intros Hin. apply (inv_warned _ _ _ _ HI) in Hin.
    destruct Hin as [_ Hin]. unfold absentSel in Hin. rewrite Hf in Hin.
    discriminate.
Qed.

Lemma sample_token_3_always_times_out (n : nat) :
  exists e, sampleTransport 3 n = Throws e /\ classify e = Transient.
Proof. exists (timeoutError n). split; reflexivity. Qed.

Lemma exhausted_item_fails_witness :
  exists s' e,
    exec SortAtEnd sampleConfig sampleTransport (repeat (Settle 3) 21)
         (init SortAtEnd sampleConfig) = Some s' /\
    sampleTransport 3 11%nat = Throws e /\
    In (EvResolve 3) (trace (out s')) /\
    calls 3 (trace (out s')) = 11%nat /\
    errorLog (out s') =
      errorLog (out (init SortAtEnd sampleConfig)) ++ [(3, message e)] /\
    warned (out s') = warned (out (init SortAtEnd sampleConfig)).
Proof.
  refine (proj1 (exhausted_item_fails SortAtEnd sampleConfig sampleTransport
                   [] (init SortAtEnd sampleConfig) 3 _ _
                   sample_token_3_always_times_out) 1%nat _).
  - split; [cbn; lia|reflexivity].
  - reflexivity.
  - eexists. split; [vm_compute; reflexivity|]. split; reflexivity.
Defined.

(** C6 as stated fails: with [retries: 10], the budget the policy is
    exhausted by, the fetcher of token 3 of the sample is resolved as
    failed after 11 calls, not 10. *)
Lemma exhausted_after_one_more_call :
  exists s,
    exec SortAtEnd sampleConfig sampleTransport sampleSchedule
         (init SortAtEnd sampleConfig) = Some s /\
    running s = false /\
    (forall n, exists e,
        sampleTransport 3 n = Throws e /\ classify e = Transient) /\
    Retry.retries (retryOptions sampleConfig) = 10%nat /\
    calls 3 (trace (out s)) = 11%nat /\
    errorLog (out s) = [(3, "request timeout, attempt 11"%string)] /\
    calls 3 (trace (out s)) <> Retry.retries (retryOptions sampleConfig).
Proof.
  eexists. split; [vm_compute; reflexivity|]. split; [reflexivity|].
  split; [exact sample_token_3_always_times_out|].
  split; [reflexivity|]. split; [reflexivity|]. split; [reflexivity|].
  discriminate.
Qed.

(** ** Isolation of failures and exit code *)

(** C7.  A failure stays with its item.  At every point of a run, whatever
    has failed so far: a fetcher that is not resolved can go on, its
    callback leaves the other fetchers of the batch as they are, and its
    own completions alone bring it to its end; once every promise of the
    batch is resolved, failed or not, the barrier is passed; each later
    batch is reached; and the run can be completed, the process ending
    with code 0.  The process ends with a non-zero code only when the ABI
    cannot be loaded, and then nothing was fetched.  In a completed run
    every id of the range is resolved with the outcome of its own fetcher,
    which depends on the responses for that id only. *)
Theorem failures_are_isolated (v : Variant) (cfg : Config)
    (transport : Transport) (sched : list Choice) (s : State) :
  wfConfig cfg ->
  exec v cfg transport sched (init v cfg) = Some s ->
  (forall j it,
     lookup j (batchPromises s) = Some it -> phase it <> Resolved ->
     (exists s',
        step v cfg transport (Settle j) s = Some s' /\
        forall j', j' <> j ->
          lookup j' (batchPromises s') = lookup j' (batchPromises s)) /\
     (exists (n : nat) s',
        exec v cfg transport (repeat (Settle j) n) s = Some s' /\
        In (EvResolve j) (trace (out s')) /\
        forall j', j' <> j ->
          lookup j' (batchPromises s') = lookup j' (batchPromises s))) /\
  (running s = true ->
   forallb isResolved (batchPromises s) = true ->
   exists s', step v cfg transport Barrier s = Some s') /\
  (forall (k : nat) (w : list Z),
     nth_error (allBatches cfg) k = Some w ->
     loop_i s <= startTokenId cfg + Z.of_nat k * batchSize cfg ->
     exists sched' s',
       exec v cfg transport sched' s = Some s' /\
       running s' = true /\
       map tokenId (batchPromises s') = w) /\
  (exists sched' o,
     script v cfg transport true (sched ++ sched') = Some (0, o) /\
     forall j, startTokenId cfg <= j <= endTokenId cfg ->
       In (EvResolve j) (trace o)) /\
  (forall abiLoaded exitCode o,
     script v cfg transport abiLoaded sched = Some (exitCode, o) ->
     (exitCode <> 0 <-> abiLoaded = false) /\
     (abiLoaded = false -> exitCode = 1 /\ trace o = []) /\
     (abiLoaded = true ->
      exitCode = 0 /\
      forall j, startTokenId cfg <= j <= endTokenId cfg ->
        In (EvResolve j) (trace o) /\
        calls j (trace o) = snd (fetch cfg transport j) /\
        match fst (fetch cfg transport j) with
        | Owned owner => In (owner, j) (csv o)
        | Absent => In j (warned o)
        | Failed msg => In (j, msg) (errorLog o)
        end /\
        forall transport',
          (forall n, transport' j n = transport j n) ->
          fetch cfg transport' j = fetch cfg transport j)).
Proof.
  intros Hwf Hexec. pose proof Hwf as [Hbs _].
  pose proof (Inv_reachable _ _ _ _ _ Hbs Hexec) as HI.
  split.
  { intros j it Hl Hnr.
    pose proof (in_flight_running _ _ _ _ _ _ HI Hl) as Hrun. split.
    - destruct (settle_step v cfg transport s j it Hrun Hl Hnr)
        as (s' & Hs & _ & _ & _ & Hlk).
      exists s'. split; [exact Hs|]. intros j' Hne. rewrite Hlk.
      destruct (Z.eqb_spec j' j); [contradiction|reflexivity].
    - destruct (fetcher_runs_alone v cfg transport (itemWork it) s j it
                  Hrun Hl (le_n _))
        as (n & s' & Hx & _ & _ & (it' & Hl' & Hp') & Hoth & _).
      exists n, s'. split; [exact Hx|]. split; [|exact Hoth].
      eapply resolved_in_trace; [|exact Hl'|exact Hp'].
      eapply Inv_exec; eauto. }
  split.
  { intros Hrun Hall. eexists. now apply barrier_opens. }
  split.
  { intros k w Hw Hle. unfold allBatches in Hw.
    rewrite batches_nth in Hw by (try exact Hbs; lia).
    destruct (Z.leb_spec (startTokenId cfg + Z.of_nat k * batchSize cfg)
                (endTokenId cfg)) as [Hk|Hk]; [|discriminate].
    injection Hw as <-.
    destruct (inv_iter _ _ _ _ HI) as (k0 & Hk0 & _).
    pose proof (inv_ctrl _ _ _ _ HI) as Hc.
    destruct (running s) eqn:Hrun; [|lia].
    assert (Hkk : (k0 <= k)%nat) by nia.
    destruct (window_reached v cfg transport (k - k0) s Hbs HI Hrun)
      as (sched' & s' & He & Hr & Hi); [nia|].
    exists sched', s'. split; [exact He|]. split; [exact Hr|].
    assert (Hi' : loop_i s' = startTokenId cfg + Z.of_nat k * batchSize cfg)
      by nia.
    pose proof (inv_ctrl _ _ _ _ (Inv_exec _ _ _ _ _ _ Hbs HI He)) as Hc'.
    rewrite Hr in Hc'. destruct Hc' as [_ Hwin]. now rewrite Hwin, Hi'. }
  split.
  { destruct (can_finish v cfg transport (work cfg s) s Hbs HI (le_n _))
      as (sched' & s' & He & Hfin).
    exists sched', (out s'). unfold script. rewrite exec_app, Hexec, He, Hfin.
    split; [reflexivity|]. intros j Hj.
    pose proof (Inv_exec _ _ _ _ _ _ Hbs HI He) as HI'.
    now apply (inv_resolve _ _ _ _ HI'), (finished_done _ _ _ _ HI' Hfin). }
  intros abiLoaded exitCode o H. unfold script in H. destruct abiLoaded.
  - rewrite Hexec in H.
    destruct (running s) eqn:Hfin; [discriminate|]. injection H as <- <-.
    split; [split; [intros E; now contradiction E|discriminate]|].
    split; [discriminate|]. intros _. split; [reflexivity|]. intros j Hj.
    destruct (finished_outcomes _ _ _ _ _ Hwf Hexec Hfin)
      as (_ & Hrows & Hwarn & Herr & _).
    split; [apply (inv_resolve _ _ _ _ HI), (finished_done _ _ _ _ HI Hfin), Hj|].
    split; [now apply (calls_of_done _ _ _ _ HI Hfin)|]. split.
    + destruct (fst (fetch cfg transport j)) eqn:E.
      * apply Hrows. auto.
      * apply Hwarn. auto.
      * apply Herr. auto.
    + intros transport' Hsame. now apply fetch_local.
  - injection H as <- <-. split; [split; [reflexivity|discriminate]|].
    split; [auto|discriminate].
Qed.

(** In the first batch of the sample the id 3 has failed and the ids 1 and
    2 are resolved: the barrier is passed. *)
Lemma failures_are_isolated_witness :
  exists s,
    exec WriteImmediately sampleConfig sampleTransport
         ([Settle 3; Settle 2; Settle 1; Settle 1] ++ repeat (Settle 3) 20)
         (init WriteImmediately sampleConfig) = Some s /\
    errorLog (out s) = [(3, "request timeout, attempt 11"%string)] /\
    exists s', step WriteImmediately sampleConfig sampleTransport Barrier s
               = Some s'.
Proof.
  eexists. split; [vm_compute; reflexivity|]. split; [reflexivity|].
  refine (proj1 (proj2 (failures_are_isolated WriteImmediately sampleConfig
                          sampleTransport
                          ([Settle 3; Settle 2; Settle 1; Settle 1]
                           ++ repeat (Settle 3) 20) _ _ _)) _ _).
  - split; [cbn; lia|reflexivity].
  - vm_compute. reflexivity.
  - reflexivity.
  - reflexivity.
Defined.

(** ** Termination *)

(** C10.  When every remote call settles, a run that is not over can always
    make a step, every step consumes work, so a run makes at most
    [work (init)] steps and every run can be continued to the end; no id is
    called more than [retries + 1] times; and when the run is over the
    promise of every id of the range is resolved, whatever its outcome. *)
Theorem run_terminates (v : Variant) (cfg : Config) (transport : Transport)
    (sched : list Choice) (s : State) :
  wfConfig cfg ->
  exec v cfg transport sched (init v cfg) = Some s ->
  (running s = true -> exists c s', step v cfg transport c s = Some s') /\
  (List.length sched + work cfg s <= work cfg (init v cfg))%nat /\
  (exists sched' s',
     exec v cfg transport sched' s = Some s' /\ running s' = false) /\
  (forall j,
     (calls j (trace (out s)) <= S (Retry.retries (retryOptions cfg)))%nat) /\
  (running s = false ->
   progress (out s) =
     List.length (JS.range (startTokenId cfg) (endTokenId cfg)) /\
   forall j, startTokenId cfg <= j <= endTokenId cfg ->
     In (EvResolve j) (trace (out s)) /\
     (fst (fetch cfg transport j) = Absent \/
      (exists owner, fst (fetch cfg transport j) = Owned owner) \/
      (exists msg, fst (fetch cfg transport j) = Failed msg))).
Proof.
  intros Hwf Hexec. pose proof Hwf as [Hbs _].
  pose proof (Inv_reachable _ _ _ _ _ Hbs Hexec) as HI.
  split; [now apply step_possible|].
  split; [apply (exec_work v cfg transport sched);
          [exact Hbs|now apply Inv_init|exact Hexec]|].
  split; [now apply (can_finish v cfg transport (work cfg s))|].
  split.
  - intros j. rewrite (inv_calls _ _ _ _ HI). unfold expectedCalls.
    pose proof (fetch_bounds cfg transport j) as Hb.
    destruct (lookup j (batchPromises s)) as [x|] eqn:Hx.
    + pose proof (inv_items _ _ _ _ HI _ _ Hx) as Hok. unfold itemOk in Hok.
      destruct (lookup_Some _ _ _ Hx) as [Hj _]. rewrite Hj in Hok.
      destruct (phase x).
      * lia.
      * lia.
      * destruct Hok as (_ & owner & Hf). rewrite Hf in Hb. cbn in Hb. lia.
      * lia.
    + destruct (past cfg (loop_i s) j); lia.
  - intros Hfin.
    split; [apply (finished_outcomes _ _ _ _ _ Hwf Hexec Hfin)|].
    intros j Hj.
    split; [apply (inv_resolve _ _ _ _ HI), (finished_done _ _ _ _ HI Hfin), Hj|].
    destruct (fst (fetch cfg transport j)); eauto.
Qed.

Lemma run_terminates_witness :
  exists s,
    exec SortAtEnd sampleConfig sampleTransport sampleSchedule
         (init SortAtEnd sampleConfig) = Some s /\
    running s = false /\
    (List.length sampleSchedule + work sampleConfig s
     <= work sampleConfig (init SortAtEnd sampleConfig))%nat.
Proof.
  eexists. split; [vm_compute; reflexivity|]. split; [reflexivity|].
  refine (proj1 (proj2 (run_terminates SortAtEnd sampleConfig sampleTransport
                          sampleSchedule _ _ _))).
  - split; [cbn; lia|reflexivity].
  - vm_compute. reflexivity.
Defined.

(** * Further properties of the scripts *)

(** ** Nothing written is taken back *)

Lemma Extends_refl (o : Sinks) : Extends o o.
Proof.
  unfold Extends. repeat split; try (exists []; now rewrite app_nil_r). lia.
Qed.

Lemma Extends_trans (o1 o2 o3 : Sinks) :
  Extends o1 o2 -> Extends o2 o3 -> Extends o1 o3.
Proof.
  intros (Ha & Hb & Hc & Hd & He & Hf) (Ha' & Hb' & Hc' & Hd' & He' & Hf').
  unfold Extends.
  destruct Ha as [a Ha], Hb as [b Hb], Hc as [c Hc], Hd as [d Hd], He as [e He].
  destruct Ha' as [a' Ha'], Hb' as [b' Hb'], Hc' as [c' Hc'],
    Hd' as [d' Hd'], He' as [e' He'].
  repeat split.
  - exists (a ++ a'). rewrite Ha', app_assoc.
    apply Permutation_app_tail, Ha.
  - exists (b ++ b'). now rewrite Hb', Hb, app_assoc.
  - exists (c ++ c'). now rewrite Hc', Hc, app_assoc.
  - exists (d ++ d'). now rewrite Hd', Hd, app_assoc.
  - exists (e ++ e'). now rewrite He', He, app_assoc.
  - lia.
Qed.

Ltac extends_by_evaluation :=
  unfold Extends;
  cbn [emit increment pushResult writeRecords consoleWarn writeErrorLog
       sortResults results csv warned errorLog progress trace];
  repeat split;
  try (eexists; reflexivity);
  try (exists []; now rewrite app_nil_r);
  try lia.

Lemma onEvent_extends (v : Variant) (transport : Transport) (it : Item)
    (o : Sinks) :
  Extends o (snd (onEvent v transport it o)) /\
  exists l, results (snd (onEvent v transport it o)) = results o ++ l.
Proof.
  unfold onEvent. destruct (phase it); cbn [snd].
  - destruct (transport _ _) as [owner|e].
    + destruct v; cbn [snd]; (split; [extends_by_evaluation|]);
        cbn [emit increment pushResult writeRecords results];
        try (eexists; reflexivity); exists []; now rewrite app_nil_r.
    + destruct (invalidTokenId e); cbn [snd].
      * split; [extends_by_evaluation|]. exists []. cbn. now rewrite app_nil_r.
      * destruct (Retry.retry _) as [[t op]|]; cbn [snd];
          (split; [extends_by_evaluation|]); exists []; cbn;
          now rewrite app_nil_r.
  - split; [extends_by_evaluation|]. exists []. cbn. now rewrite app_nil_r.
  - split; [extends_by_evaluation|]. exists []. cbn. now rewrite app_nil_r.
  - split; [apply Extends_refl|]. exists []. now rewrite app_nil_r.
Qed.

Lemma settle_extends (v : Variant) (transport : Transport) (j : Z)
    (b b' : list Item) (o o' : Sinks) :
  settle v transport j b o = Some (b', o') ->
  Extends o o' /\ exists l, results o' = results o ++ l.
Proof.
  revert b'. induction b as [|x b IH]; intros b' H; [discriminate|].
  cbn [settle] in H. destruct (tokenId x =? j).
  - destruct (isResolved x); [discriminate|].
    pose proof (onEvent_extends v transport x o) as He.
    destruct (onEvent v transport x o) as [x' o1]. injection H as _ <-.
    exact He.
  - destruct (settle v transport j b o) as [[b1 o1]|]; [|discriminate].
    injection H as _ <-. now apply (IH b1).
Qed.

Lemma loopTest_extends (v : Variant) (cfg : Config) (i : Z) (o : Sinks) :
  Extends o (out (loopTest v cfg i o)) /\
  (v = WriteImmediately \/ running (loopTest v cfg i o) = true ->
   results (out (loopTest v cfg i o)) = results o).
Proof.
  unfold loopTest. destruct (i <=? endTokenId cfg); cbn [launch out running].
  - split; [extends_by_evaluation|reflexivity].
  - unfold finish. destruct v.
    + split; [apply Extends_refl|reflexivity].
    + split; [|intros [H|H]; discriminate H].
      extends_by_evaluation. exists []. rewrite app_nil_r. apply sort_perm.
Qed.

Lemma step_extends (v : Variant) (cfg : Config) (transport : Transport)
    (c : Choice) (s s' : State) :
  step v cfg transport c s = Some s' ->
  Extends (out s) (out s') /\
  (v = WriteImmediately \/ running s' = true ->
   exists l, results (out s') = results (out s) ++ l).
Proof.
  unfold step. destruct (running s); [|discriminate]. destruct c as [j|].
  - destruct (settle v transport j (batchPromises s) (out s)) as [[b o]|] eqn:Hs;
      [|discriminate].
    intros H. injection H as <-. cbn [out].
    destruct (settle_extends _ _ _ _ _ _ _ Hs) as [He Hr]. auto.
  - destruct (forallb isResolved (batchPromises s)); [|discriminate].
    intros H. injection H as <-.
    destruct (loopTest_extends v cfg (loop_i s + batchSize cfg)
                (emit [EvSleep (pacingDelay cfg)] (out s))) as [He Hr].
    split.
    + eapply Extends_trans; [|exact He]. extends_by_evaluation.
    + intros Hv. rewrite (Hr Hv). exists []. cbn. now rewrite app_nil_r.
Qed.

(** Whatever the state and the schedule, a run only appends to the
    table, to the warnings, to the error log and to the trace of its
    effects, and the number of calls of [progressBar.increment()] never
    goes back.  The array
    [results] keeps its rows: it is only appended to while the outer loop
    runs and in the write-immediately script; the sort-at-end script
    reorders it when it sorts it after the loop. *)
Theorem run_only_appends (v : Variant) (cfg : Config) (transport : Transport)
    (sched : list Choice) (s s' : State) :
  exec v cfg transport sched s = Some s' ->
  Extends (out s) (out s') /\
  (v = WriteImmediately \/ running s' = true ->
   exists l, results (out s') = results (out s) ++ l).
Proof.
  revert s. induction sched as [|c sched IH]; intros s H.
  - injection H as <-. split; [apply Extends_refl|].
    intros _. exists []. now rewrite app_nil_r.
  - cbn [exec] in H. destruct (step v cfg transport c s) as [s1|] eqn:Hs;
      [|discriminate].
    destruct (step_extends _ _ _ _ _ _ Hs) as [He1 Hr1].
    destruct (IH _ H) as [He2 Hr2].
    split; [eapply Extends_trans; eauto|].
    intros Hv. destruct (Hr2 Hv) as [l2 Hl2].
    destruct Hr1 as [l1 Hl1].
    { destruct Hv as [Hv|Hv]; [now left|]. right.
      destruct (running s1) eqn:Hr; [reflexivity|].
      destruct (exec_finished _ _ _ _ _ _ Hr H) as [_ ->]. congruence. }
    exists (l1 ++ l2). now rewrite Hl2, Hl1, app_assoc.
Qed.

(** On two owned ids with the call for 2 returning first, the array holds
    the row of 2, then the rows of 1 and 2 once it is sorted. *)
Lemma run_only_appends_witness :
  exists s s',
    exec SortAtEnd pairConfig everyTokenOwned [Settle 2]
         (init SortAtEnd pairConfig) = Some s /\
    exec SortAtEnd pairConfig everyTokenOwned [Settle 1; Barrier] s
      = Some s' /\
    map snd (results (out s)) = [2] /\
    map snd (results (out s')) = [1; 2] /\
    Extends (out s) (out s').
Proof.
  eexists. eexists. split; [vm_compute; reflexivity|].
  split; [vm_compute; reflexivity|].
  split; [reflexivity|]. split; [reflexivity|].
  refine (proj1 (run_only_appends SortAtEnd pairConfig everyTokenOwned
                   [Settle 1; Barrier] _ _ _)).
  vm_compute. reflexivity.
Defined.

(** ** When the table is written *)

(** In the sort-at-end script the table receives nothing while the loop
    runs, whatever has been fetched: the result array holds the rows of
    the ids resolved with an owner so far, and the table is written once,
    sorted, when the loop is left. *)
Theorem sort_at_end_writes_once (cfg : Config) (transport : Transport)
    (sched : list Choice) (s : State) :
  wfConfig cfg ->
  exec SortAtEnd cfg transport sched (init SortAtEnd cfg) = Some s ->
  (running s = true -> csv (out s) = []) /\
  (running s = false -> csv (out s) = JS.sort snd (results (out s))) /\
  NoDup (map snd (results (out s))) /\
  forall owner j,
    In (owner, j) (results (out s)) <->
    In (EvResolve j) (trace (out s)) /\
    fst (fetch cfg transport j) = Owned owner.
Proof.
  intros [Hbs _] Hexec.
  pose proof (Inv_reachable _ _ _ _ _ Hbs Hexec) as HI.
  pose proof (inv_other _ _ _ _ HI) as Ho. cbn in Ho.
  split; [intros Hr; now rewrite Hr in Ho|].
  split; [intros Hr; now rewrite Hr in Ho|].
  destruct (inv_rows _ _ _ _ HI) as [Hnd Hin]. cbn [rowSink] in Hnd, Hin.
  split; [exact Hnd|]. intros owner j.
  rewrite Hin, (inv_resolve _ _ _ _ HI). unfold written, ownedSel.
  cbn [fst snd]. split; [|tauto].
  intros [[Hd | (x & Hx & Hp)] Hf]; [tauto|].
  pose proof (inv_items _ _ _ _ HI _ _ Hx) as Hok. unfold itemOk in Hok.
  rewrite Hp in Hok. destruct Hok as [Hv _]. discriminate.
Qed.

Lemma sort_at_end_writes_once_witness :
  exists s,
    exec SortAtEnd sampleConfig sampleTransport [Settle 1; Settle 2]
         (init SortAtEnd sampleConfig) = Some s /\
    results (out s) = [(ownerOf 1, 1)] /\
    (running s = true -> csv (out s) = []).
Proof.
  eexists. split; [vm_compute; reflexivity|]. split; [reflexivity|].
  refine (proj1 (sort_at_end_writes_once sampleConfig sampleTransport
                   [Settle 1; Settle 2] _ _ _)).
  - split; [cbn; lia|reflexivity].
  - vm_compute. reflexivity.
Defined.

(** The array handed to [writeRecords] is the array as [sort] left it. *)
Lemma results_sorted_reachable (cfg : Config) (transport : Transport)
    (sched : list Choice) (s : State) :
  1 <= batchSize cfg ->
  exec SortAtEnd cfg transport sched (init SortAtEnd cfg) = Some s ->
  running s = false ->
  StronglySorted (keyLe snd) (results (out s)).
Proof.
  intros Hbs.
  apply (reachable_ind SortAtEnd cfg transport
           (fun s => running s = false ->
                     StronglySorted (keyLe snd) (results (out s))) Hbs).
  - unfold init, loopTest.
    destruct (startTokenId cfg <=? endTokenId cfg);
      cbn [launch running out]; [discriminate|]. intros _. constructor.
  - intros c s0 s' _ _ Hstep. unfold step in Hstep.
    destruct (running s0); [|discriminate]. destruct c as [j|].
    + destruct (settle SortAtEnd transport j (batchPromises s0) (out s0))
        as [[b o]|]; [|discriminate].
      injection Hstep as <-. cbn [running]. discriminate.
    + destruct (forallb isResolved (batchPromises s0)); [|discriminate].
      injection Hstep as <-. unfold loopTest.
      destruct (loop_i s0 + batchSize cfg <=? endTokenId cfg);
        cbn [launch running out]; [discriminate|]. intros _.
      cbn [finish sortResults writeRecords results]. apply sort_sorted.
Qed.

(** After the loop of the sort-at-end script the array [results] itself is
    in ascending order of token id, whatever the completion order was, and
    the rows written to the table are the elements of the array, in its
    order. *)
Theorem results_sorted_in_place (cfg : Config) (transport : Transport)
    (sched : list Choice) (s : State) :
  wfConfig cfg ->
  exec SortAtEnd cfg transport sched (init SortAtEnd cfg) = Some s ->
  running s = false ->
  csv (out s) = results (out s) /\
  ascending (results (out s)) /\
  results (out s) =
  ownedRows cfg transport (JS.range (startTokenId cfg) (endTokenId cfg)).
Proof.
  intros [Hbs _] Hexec Hfin.
  pose proof (Inv_reachable _ _ _ _ _ Hbs Hexec) as HI.
  pose proof (inv_other _ _ _ _ HI) as Ho. cbn in Ho. rewrite Hfin in Ho.
  pose proof (results_sorted_reachable _ _ _ _ Hbs Hexec Hfin) as Hs.
  rewrite (sort_of_sorted snd _ Hs) in Ho.
  split; [exact Ho|]. rewrite <- Ho, (sorted_variant_csv _ _ _ HI Hfin).
  split; [apply ownedRows_ascending, range_sorted|reflexivity].
Qed.

Lemma results_sorted_in_place_witness :
  exists s,
    exec SortAtEnd pairConfig everyTokenOwned [Settle 2; Settle 1; Barrier]
         (init SortAtEnd pairConfig) = Some s /\
    map snd (results (out s)) = [1; 2] /\
    csv (out s) = results (out s).
Proof.
  eexists. split; [vm_compute; reflexivity|]. split; [reflexivity|].
  refine (proj1 (results_sorted_in_place pairConfig everyTokenOwned
                   [Settle 2; Settle 1; Barrier] _ _ _ _)).
  - split; [cbn; lia|reflexivity].
  - vm_compute. reflexivity.
  - reflexivity.
Defined.

(** ** Promises and the calls of [progressBar.increment()] *)

Lemma resolves_app (t1 t2 : list Event) :
  resolves (t1 ++ t2) = (resolves t1 + resolves t2)%nat.
Proof. unfold resolves. now rewrite filter_app, length_app. Qed.

Lemma resolvesOf_app (j : Z) (t1 t2 : list Event) :
  resolvesOf j (t1 ++ t2) = (resolvesOf j t1 + resolvesOf j t2)%nat.
Proof. unfold resolvesOf. now rewrite filter_app, length_app. Qed.

Lemma resolves_launch (l : list Z) :
  resolves (map (fun j => EvCall j 1) l) = 0%nat.
Proof. unfold resolves. induction l; cbn; auto. Qed.

Lemma resolvesOf_launch (j : Z) (l : list Z) :
  resolvesOf j (map (fun x => EvCall x 1) l) = 0%nat.
Proof. unfold resolvesOf. induction l; cbn; auto. Qed.

Lemma resolvesOf_absent (j : Z) (t : list Event) :
  ~ In (EvResolve j) t -> resolvesOf j t = 0%nat.
Proof.
  unfold resolvesOf. induction t as [|e t IH]; [reflexivity|].
  cbn [In filter]. intros H. destruct e as [| | |j']; try (apply IH; tauto).
  destruct (Z.eqb_spec j' j) as [->|]; [tauto|apply IH; tauto].
Qed.

Lemma TraceStep_resolves (j0 : Z) (it it' : Item) (es : list Event) :
  TraceStep j0 it it' es ->
  resolves es = (if isResolved it' then 1 else 0)%nat /\
  forall j, resolvesOf j es =
            if (j =? j0) && isResolved it' then 1%nat else 0%nat.
Proof.
  unfold TraceStep, isResolved.
  intros [(-> & Hp & _) | [(-> & Hp & _) | [(Hp & _ & t & ->) | (-> & Hp & _)]]];
    rewrite Hp; (split; [reflexivity|]); intros j;
    rewrite ?andb_false_r; try reflexivity.
  unfold resolvesOf. cbn [filter]. rewrite andb_true_r, (Z.eqb_sym j j0).
  now destruct (j0 =? j).
Qed.

Lemma resolvedOnce_reachable (v : Variant) (cfg : Config)
    (transport : Transport) (sched : list Choice) (s : State) :
  1 <= batchSize cfg ->
  exec v cfg transport sched (init v cfg) = Some s ->
  resolvedOnce s.
Proof.
  intros Hbs. revert sched s.
  apply (reachable_ind v cfg transport resolvedOnce Hbs).
  - destruct (init_facts v cfg) as (_ & Hp & _ & _ & [(_ & _ & _ & Ht) | (_ & _ & _ & Ht)]);
      unfold resolvedOnce; rewrite Hp, Ht.
    + rewrite resolves_launch. split; [reflexivity|]. intros j.
      rewrite resolvesOf_launch. lia.
    + split; [reflexivity|]. intros j. cbn. lia.
  - intros c s s' HI [Hp Hr] Hstep. destruct c as [j|].
    + destruct (settle_facts _ _ _ _ _ _ HI Hstep)
        as (it & it' & es & _ & _ & _ & _ & _ & _ & _ & Htr & Hts & Hprog & Hfresh & _).
      destruct (TraceStep_resolves _ _ _ _ Hts) as [He1 He2].
      unfold resolvedOnce. rewrite Htr, Hprog, resolves_app, He1, Hp.
      split; [reflexivity|]. intros j'. rewrite resolvesOf_app, He2.
      destruct (Z.eqb_spec j' j) as [->|_]; cbn [andb].
      * rewrite (resolvesOf_absent _ _ Hfresh). destruct (isResolved it'); lia.
      * specialize (Hr j'). lia.
    + destruct (barrier_facts _ _ _ _ _ Hstep)
        as (_ & _ & _ & Hprog & _ & [(_ & _ & _ & Htr) | (_ & _ & _ & Htr)]);
        unfold resolvedOnce; rewrite Hprog, Htr, resolves_app, Hp.
      * change (EvSleep (pacingDelay cfg) :: ?l)
          with ([EvSleep (pacingDelay cfg)] ++ l).
        rewrite (resolves_app [_]), resolves_launch. split; [cbn; lia|].
        intros j. rewrite resolvesOf_app.
        change (EvSleep (pacingDelay cfg)
                  :: map (fun j0 => EvCall j0 1) (window cfg (loop_i s')))
          with ([EvSleep (pacingDelay cfg)]
                  ++ map (fun j0 => EvCall j0 1) (window cfg (loop_i s'))).
        rewrite resolvesOf_app, resolvesOf_launch. specialize (Hr j).
        cbn. lia.
      * split; [cbn; lia|]. intros j. rewrite resolvesOf_app.
        specialize (Hr j). cbn. lia.
Qed.

(** At every point of a run the number of calls of
    [progressBar.increment()] made so far is the number of calls of
    [resolve()], no promise is resolved twice, only ids of the range are
    resolved, and [increment] was never called more often than the total
    given to [progressBar.start].  (What the bar displays is the business
    of the [cli-progress] package.) *)
Theorem promises_resolved_once (v : Variant) (cfg : Config)
    (transport : Transport) (sched : list Choice) (s : State) :
  wfConfig cfg ->
  exec v cfg transport sched (init v cfg) = Some s ->
  progress (out s) = resolves (trace (out s)) /\
  (forall j, (resolvesOf j (trace (out s)) <= 1)%nat) /\
  (forall j, In (EvResolve j) (trace (out s)) ->
             startTokenId cfg <= j <= endTokenId cfg) /\
  (progress (out s) <=
   List.length (JS.range (startTokenId cfg) (endTokenId cfg)))%nat.
Proof.
  intros [Hbs _] Hexec.
  destruct (resolvedOnce_reachable _ _ _ _ _ Hbs Hexec) as [Hp Hr].
  pose proof (Inv_reachable _ _ _ _ _ Hbs Hexec) as HI.
  pose proof (inv_ctrl _ _ _ _ HI) as Hc.
  pose proof (inv_start _ _ _ _ HI) as Hst.
  split; [exact Hp|]. split; [exact Hr|]. split.
  - intros j Hj. apply (inv_resolve _ _ _ _ HI) in Hj.
    destruct Hj as [Hj | (x & Hx & _)]; [apply past_spec in Hj; lia|].
    destruct (running s).
    + destruct Hc as [Hle Hwin]. apply lookup_ids in Hx. rewrite Hwin in Hx.
      apply range_In in Hx. lia.
    + destruct Hc as [_ Hb]. rewrite Hb in Hx. discriminate.
  - rewrite (inv_progress _ _ _ _ HI), range_length.
    pose proof (filter_length_le isResolved (batchPromises s)) as Hf.
    destruct (running s).
    + destruct Hc as [Hle Hwin].
      rewrite <- (length_map tokenId (batchPromises s)), Hwin in Hf.
      rewrite window_length in Hf by assumption. lia.
    + destruct Hc as [Hgt Hb]. rewrite Hb in *. cbn in *. lia.
Qed.

Lemma promises_resolved_once_witness :
  exists s,
    exec WriteImmediately sampleConfig sampleTransport
         [Settle 1; Settle 2; Settle 1]
         (init WriteImmediately sampleConfig) = Some s /\
    progress (out s) = 2%nat /\
    progress (out s) = resolves (trace (out s)).
Proof.
  eexists. split; [vm_compute; reflexivity|]. split; [reflexivity|].
  refine (proj1 (promises_resolved_once WriteImmediately sampleConfig
                   sampleTransport [Settle 1; Settle 2; Settle 1] _ _ _)).
  - split; [cbn; lia|reflexivity].
  - vm_compute. reflexivity.
Defined.

(** ** Calls and waits of a fetcher *)

Lemma attemptNumbers_app (j : Z) (t1 t2 : list Event) :
  attemptNumbers j (t1 ++ t2) = attemptNumbers j t1 ++ attemptNumbers j t2.
Proof. unfold attemptNumbers. apply flat_map_app. Qed.

Lemma backoffs_app (j : Z) (t1 t2 : list Event) :
  backoffs j (t1 ++ t2) = backoffs j t1 ++ backoffs j t2.
Proof. unfold backoffs. apply flat_map_app. Qed.

Lemma backoffs_launch (j : Z) (l : list Z) :
  backoffs j (map (fun x => EvCall x 1) l) = [].
Proof. unfold backoffs. induction l; cbn; auto. Qed.

Lemma attemptNumbers_launch (j : Z) (l : list Z) :
  NoDup l ->
  attemptNumbers j (map (fun x => EvCall x 1) l) =
  if in_dec Z.eq_dec j l then [1%nat] else [].
Proof.
  unfold attemptNumbers. induction 1 as [|x l Hx Hnd IH]; [reflexivity|].
  cbn [map flat_map]. rewrite IH.
  destruct (Z.eqb_spec x j) as [->|E].
  - destruct (in_dec Z.eq_dec j l) as [Hi|Hn]; [contradiction|].
    destruct (in_dec Z.eq_dec j (j :: l)) as [Hi'|Hn']; [reflexivity|].
    exfalso. apply Hn'. now left.
  - destruct (in_dec Z.eq_dec j l) as [Hi|Hn];
      destruct (in_dec Z.eq_dec j (x :: l)) as [Hi'|Hn']; try reflexivity.
    + exfalso. apply Hn'. now right.
    + destruct Hi'; contradiction.
Qed.

Lemma skipn_head (T : list Z) (m : nat) (t : Z) (ts : list Z) :
  skipn m T = t :: ts ->
  firstn (S m) T = firstn m T ++ [t] /\ skipn (S m) T = ts.
Proof.
  revert T. induction m as [|m IH]; intros T H.
  - cbn in H. subst T. auto.
  - destruct T as [|x T]; [discriminate|]. cbn [skipn] in H.
    destruct (IH T H) as [H1 H2]. split; [|exact H2].
    change (firstn (S (S m)) (x :: T)) with (x :: firstn (S m) T).
    now rewrite H1.
Qed.

(** The three kinds of callback of a fetcher. *)
Lemma onEvent_paced (v : Variant) (transport : Transport) (it it' : Item)
    (o o' : Sinks) :
  onEvent v transport it o = (it', o') ->
  phase it <> Resolved ->
  let j := tokenId it in
  let a := Retry._attempts (operation it) in
  let ts := Retry._timeouts (operation it) in
  (phase it = Calling /\ phase it' = Waiting /\
   Retry._attempts (operation it') = a /\
   exists t, ts = t :: Retry._timeouts (operation it') /\
             trace o' = trace o ++ [EvBackoff j t]) \/
  (phase it = Waiting /\ phase it' = Calling /\
   Retry._attempts (operation it') = S a /\
   Retry._timeouts (operation it') = ts /\
   trace o' = trace o ++ [EvCall j (S a)]) \/
  (phase it <> Waiting /\ phase it' <> Waiting /\
   Retry._attempts (operation it') = a /\
   Retry._timeouts (operation it') = ts /\
   exists es, trace o' = trace o ++ es /\
              forall j', attemptNumbers j' es = [] /\ backoffs j' es = [] /\
                         calls j' es = 0%nat).
Proof.
  unfold onEvent. intros H Hnr. destruct it as [j [ts a] ph].
  cbn [tokenId operation phase Retry._attempts Retry._timeouts] in *.
  destruct ph; [| | |contradiction].
  - destruct (transport j a) as [owner|e].
    + right. right. destruct v; injection H as <- <-;
        cbn [setPhase phase operation Retry._attempts Retry._timeouts];
        (split; [discriminate|]); (split; [discriminate|]);
        (split; [reflexivity|]); (split; [reflexivity|]).
      * exists []. cbn. now rewrite app_nil_r.
      * exists [EvResolve j]. cbn. auto.
    + destruct (invalidTokenId e).
      * right. right. injection H as <- <-.
        cbn [setPhase phase operation Retry._attempts Retry._timeouts].
        split; [discriminate|]. split; [discriminate|].
        split; [reflexivity|]. split; [reflexivity|].
        exists [EvResolve j]. cbn. auto.
      * unfold Retry.retry in H. cbn [Retry._timeouts Retry._attempts] in H.
        destruct ts as [|t ts]; injection H as <- <-.
        -- right. right.
           cbn [setPhase phase operation Retry._attempts Retry._timeouts].
           split; [discriminate|]. split; [discriminate|].
           split; [reflexivity|]. split; [reflexivity|].
           exists [EvResolve j]. cbn. auto.
        -- left. cbn [phase operation Retry._attempts Retry._timeouts].
           split; [reflexivity|]. split; [reflexivity|].
           split; [reflexivity|]. exists t. auto.
  - right. left. injection H as <- <-.
    cbn [phase operation Retry.fire Retry._attempts Retry._timeouts].
    auto 6.
  - right. right. injection H as <- <-.
    cbn [setPhase phase operation Retry._attempts Retry._timeouts].
    split; [discriminate|]. split; [discriminate|].
    split; [reflexivity|]. split; [reflexivity|].
    exists [EvResolve j]. cbn. auto.
Qed.

(** The state after a batch is launched, or after the loop is left (no
    id), from a trace [t] in which no fetcher is at work. *)
Lemma Paced_launch (cfg : Config) (s' : State) (t pre : list Event)
    (w : list Z) :
  NoDup w ->
  batchPromises s' = map (newItem cfg) w ->
  trace (out s') = t ++ pre ++ map (fun j => EvCall j 1) w ->
  (forall j, attemptNumbers j pre = [] /\ backoffs j pre = [] /\
             calls j pre = 0%nat) ->
  (forall j, attemptNumbers j t = seq 1 (calls j t) /\
             backoffs j t =
               firstn (calls j t - 1) (Retry.timeouts (retryOptions cfg))) ->
  (forall j, In j w -> calls j t = 0%nat) ->
  Paced cfg s'.
Proof.
  intros Hnd Hb Ht Hpre Hold Hnew j. unfold waiting. rewrite Hb, Ht.
  rewrite !calls_app, !attemptNumbers_app, !backoffs_app.
  destruct (Hpre j) as (-> & -> & ->). destruct (Hold j) as [Ha Hbk].
  rewrite calls_launch, attemptNumbers_launch, backoffs_launch by exact Hnd.
  rewrite (lookup_new _ _ _ (newItem_tokenId cfg)).
  cbn [app]. rewrite app_nil_r, Nat.add_0_l.
  destruct (in_dec Z.eq_dec j w) as [Hin|Hout].
  - rewrite (Hnew j Hin) in *. cbn [newItem phase]. cbn in Ha, Hbk.
    rewrite Ha, Hbk. cbn. split; [reflexivity|]. split; [reflexivity|].
    intros it Hit. injection Hit as <-. cbn. auto.
  - rewrite !Nat.add_0_r, app_nil_r. split; [exact Ha|]. split; [exact Hbk|].
    discriminate.
Qed.

Lemma Paced_reachable (v : Variant) (cfg : Config) (transport : Transport)
    (sched : list Choice) (s : State) :
  1 <= batchSize cfg ->
  exec v cfg transport sched (init v cfg) = Some s ->
  Paced cfg s.
Proof.
  intros Hbs. revert sched s.
  apply (reachable_ind v cfg transport (Paced cfg) Hbs).
  - (* the first batch *)
    destruct (init_facts v cfg)
      as (_ & _ & _ & _ & [(_ & _ & Hb & Ht) | (_ & _ & Hb & Ht)]).
    + apply (Paced_launch cfg _ [] [] (window cfg (startTokenId cfg)));
        [apply range_NoDup|exact Hb|exact Ht| | |]; intros; cbn; auto.
    + apply (Paced_launch cfg _ [] [] []);
        [constructor|exact Hb|exact Ht| | |]; intros; cbn; auto.
  - intros c s s' HI HP Hstep. destruct c as [j0|].
    + (* a callback of the fetcher of [j0] *)
      destruct (settle_facts _ _ _ _ _ _ HI Hstep)
        as (it & it' & es & Hl & Hnr & Hev & _ & _ & _ & Hlk & _ & _ & _ & _ & Hcalls).
      destruct (lookup_Some _ _ _ Hl) as [Hj _].
      pose proof (onEvent_paced _ _ _ _ _ _ Hev Hnr) as Hcase.
      cbn zeta in Hcase. rewrite Hj in Hcase.
      intros j. unfold waiting. rewrite Hlk.
      destruct (Z.eqb_spec j j0) as [->|Hne].
      * destruct (HP j0) as (Ha & Hbk & Hit). unfold waiting in Ha, Hbk, Hit.
        rewrite Hl in Hbk, Hit. destruct (Hit it eq_refl) as [Hpos Hts].
        rewrite Hcalls in *.
        destruct Hcase as [(Hp & Hp' & Ha' & t & Hts' & Htr)
                          | [(Hp & Hp' & Ha' & Hts' & Htr)
                            | (Hp & Hp' & Ha' & Hts' & es' & Htr & Hes)]].
        -- assert (He : calls j0 [EvBackoff j0 t] = 0%nat /\
                        attemptNumbers j0 [EvBackoff j0 t] = [] /\
                        backoffs j0 [EvBackoff j0 t] = [t]).
           { unfold calls, attemptNumbers, backoffs. cbn.
             now rewrite Z.eqb_refl. }
           destruct He as (He1 & He2 & He3).
           rewrite Htr, Hp', !calls_app, attemptNumbers_app, backoffs_app.
           rewrite He1, He2, He3, Hcalls, !Nat.add_0_r, app_nil_r.
           rewrite Hp in Hbk, Hts. rewrite Hts' in Hts.
           rewrite Nat.add_0_r in Hbk, Hts.
           destruct (skipn_head _ _ _ _ (eq_sym Hts)) as [Hf Hs].
           replace (Retry._attempts (operation it) - 1 + 1)%nat
             with (S (Retry._attempts (operation it) - 1)) by lia.
           rewrite Hf, <- Hbk. split; [exact Ha|]. split; [reflexivity|].
           intros x Hx. injection Hx as <-. auto.
        -- assert (He : calls j0 [EvCall j0 (S (Retry._attempts (operation it)))]
                          = 1%nat /\
                        attemptNumbers j0
                          [EvCall j0 (S (Retry._attempts (operation it)))]
                          = [S (Retry._attempts (operation it))] /\
                        backoffs j0
                          [EvCall j0 (S (Retry._attempts (operation it)))]
                          = []).
           { unfold calls, attemptNumbers, backoffs. cbn.
             now rewrite Z.eqb_refl. }
           destruct He as (He1 & He2 & He3).
           rewrite Htr, Hp', !calls_app, attemptNumbers_app, backoffs_app.
           rewrite He1, He2, He3, Hcalls, app_nil_r, Ha.
           rewrite Hp in Hbk, Hts.
           replace (Retry._attempts (operation it) + 1 - 1 + 0)%nat
             with (Retry._attempts (operation it) - 1 + 1)%nat by lia.
           split.
           { replace (Retry._attempts (operation it) + 1)%nat
               with (S (Retry._attempts (operation it))) by lia.
             rewrite seq_S. reflexivity. }
           split; [exact Hbk|]. intros x Hx. injection Hx as <-.
           split; [lia|]. now rewrite Hts'.
        -- rewrite Htr, !calls_app, attemptNumbers_app, backoffs_app.
           destruct (Hes j0) as (-> & -> & ->).
           rewrite Hcalls, !app_nil_r, !Nat.add_0_r.
           assert (Hw : match phase it with Waiting => 1%nat | _ => 0%nat end
                        = match phase it' with Waiting => 1%nat | _ => 0%nat end).
           { destruct (phase it), (phase it'); try reflexivity;
               contradiction. }
           rewrite <- Hw. split; [exact Ha|]. split; [exact Hbk|].
           intros x Hx. injection Hx as <-. split; [exact Hpos|].
           now rewrite Hts'.
      * destruct (HP j) as (Ha & Hbk & Hit). unfold waiting in Ha, Hbk, Hit.
        assert (Hsame : attemptNumbers j (trace (out s')) =
                          attemptNumbers j (trace (out s)) /\
                        backoffs j (trace (out s')) =
                          backoffs j (trace (out s)) /\
                        calls j (trace (out s')) = calls j (trace (out s))).
        { destruct Hcase as [(_ & _ & _ & t & _ & Htr)
                            | [(_ & _ & _ & _ & Htr)
                              | (_ & _ & _ & _ & es' & Htr & Hes)]];
            rewrite Htr, calls_app, attemptNumbers_app, backoffs_app.
          - unfold calls at 2. unfold attemptNumbers at 2.
            unfold backoffs at 2. cbn [filter flat_map List.length app].
            destruct (Z.eqb_spec j0 j); [congruence|].
            now rewrite !app_nil_r, Nat.add_0_r.
          - unfold calls at 2. unfold attemptNumbers at 2.
            unfold backoffs at 2. cbn [filter flat_map List.length app].
            destruct (Z.eqb_spec j0 j); [congruence|].
            now rewrite !app_nil_r, Nat.add_0_r.
          - destruct (Hes j) as (-> & -> & ->).
            now rewrite !app_nil_r, Nat.add_0_r. }
        destruct Hsame as (-> & -> & ->). auto.
    + (* the barrier *)
      destruct (barrier_facts _ _ _ _ _ Hstep)
        as (Hrun & Hall & Hi & _ & _ & Hcase).
      pose proof (inv_ctrl _ _ _ _ HI) as Hc. rewrite Hrun in Hc.
      destruct Hc as [Hle Hwin].
      assert (Hold : forall j,
        attemptNumbers j (trace (out s)) = seq 1 (calls j (trace (out s))) /\
        backoffs j (trace (out s)) =
          firstn (calls j (trace (out s)) - 1)
                 (Retry.timeouts (retryOptions cfg))).
      { intros j. destruct (HP j) as (Ha & Hbk & _). split; [exact Ha|].
        rewrite Hbk. unfold waiting.
        destruct (lookup j (batchPromises s)) as [x|] eqn:Hx;
          [|now rewrite Nat.add_0_r].
        rewrite (all_resolved_lookup _ _ _ Hall Hx). now rewrite Nat.add_0_r. }
      assert (Hpre : forall j,
        attemptNumbers j [EvSleep (pacingDelay cfg)] = [] /\
        backoffs j [EvSleep (pacingDelay cfg)] = [] /\
        calls j [EvSleep (pacingDelay cfg)] = 0%nat) by (intros; cbn; auto).
      destruct Hcase as [(Hle' & _ & Hb & Ht) | (_ & _ & Hb & Ht)].
      * apply (Paced_launch cfg s' (trace (out s))
                 [EvSleep (pacingDelay cfg)] (window cfg (loop_i s')));
          [apply range_NoDup|exact Hb|exact Ht|exact Hpre|exact Hold|].
        intros j Hj. apply range_In in Hj.
        rewrite (inv_calls _ _ _ _ HI). unfold expectedCalls.
        replace (lookup j (batchPromises s)) with (@None Item).
        -- replace (past cfg (loop_i s) j) with false; [reflexivity|].
           symmetry. apply past_false. lia.
        -- symmetry. apply lookup_None. rewrite Hwin. unfold window.
           rewrite range_In. lia.
      * apply (Paced_launch cfg s' (trace (out s))
                 [EvSleep (pacingDelay cfg)] []);
          [constructor|exact Hb|now rewrite Ht|exact Hpre|exact Hold|].
        intros j [].
Qed.

Lemma waiting_when_done (v : Variant) (cfg : Config) (transport : Transport)
    (s : State) (j : Z) :
  Inv v cfg transport s -> done cfg s j -> waiting s j = 0%nat.
Proof.
  intros HI Hd. unfold waiting, done in *.
  destruct (lookup j (batchPromises s)) as [x|] eqn:Hx; [|reflexivity].
  destruct Hd as [Hp | (y & Hy & Hp)].
  - exfalso. apply past_spec in Hp. pose proof (inv_ctrl _ _ _ _ HI) as Hc.
    destruct (running s).
    + destruct Hc as [_ Hwin]. apply lookup_ids in Hx. rewrite Hwin in Hx.
      apply range_In in Hx. lia.
    + destruct Hc as [_ Hb]. rewrite Hb in Hx. discriminate.
  - injection Hy as <-. now rewrite Hp.
Qed.

(** The calls made for an id carry the attempt numbers 1, 2, 3, ... in
    this order: the counter of the retry operation is the number of calls
    made, no attempt is skipped and none is made twice. *)
Theorem calls_numbered_in_order (v : Variant) (cfg : Config)
    (transport : Transport) (sched : list Choice) (s : State) (j : Z) :
  wfConfig cfg ->
  exec v cfg transport sched (init v cfg) = Some s ->
  attemptNumbers j (trace (out s)) = seq 1 (calls j (trace (out s))).
Proof.
  intros [Hbs _] Hexec.
  now destruct (Paced_reachable _ _ _ _ _ Hbs Hexec j) as (H & _).
Qed.

Lemma calls_numbered_in_order_witness :
  exists s,
    exec SortAtEnd sampleConfig sampleTransport
         [Settle 3; Settle 3; Settle 3; Settle 3]
         (init SortAtEnd sampleConfig) = Some s /\
    attemptNumbers 3 (trace (out s)) = [1; 2; 3]%nat /\
    attemptNumbers 3 (trace (out s)) = seq 1 (calls 3 (trace (out s))).
Proof.
  eexists. split; [vm_compute; reflexivity|]. split; [reflexivity|].
  apply (calls_numbered_in_order SortAtEnd sampleConfig sampleTransport
           [Settle 3; Settle 3; Settle 3; Settle 3]).
  - split; [cbn; lia|reflexivity].
  - vm_compute. reflexivity.
Defined.

(** The delays a fetcher waits are those of the retry policy, from the
    first on: the wait that follows the failed attempt [k] is
    [min (minTimeout * factor^(k-1)) maxTimeout], and a resolved id has
    waited once less than it was called. *)
Theorem waits_follow_policy (v : Variant) (cfg : Config)
    (transport : Transport) (sched : list Choice) (s : State) (j : Z) :
  wfConfig cfg ->
  1 <= Retry.minTimeout (retryOptions cfg) ->
  1 <= Retry.factor (retryOptions cfg) ->
  exec v cfg transport sched (init v cfg) = Some s ->
  backoffs j (trace (out s)) =
    firstn (calls j (trace (out s)) - 1 + waiting s j)
           (Retry.timeouts (retryOptions cfg)) /\
  (forall k d,
     nth_error (backoffs j (trace (out s))) k = Some d ->
     d = Retry.nextDelay (Retry.minTimeout (retryOptions cfg))
           (Retry.factor (retryOptions cfg))
           (Retry.maxTimeout (retryOptions cfg)) (S k)) /\
  (In (EvResolve j) (trace (out s)) ->
   List.length (backoffs j (trace (out s))) =
   (calls j (trace (out s)) - 1)%nat).
Proof.
  intros [Hbs _] Hmin Hfac Hexec.
  destruct (Paced_reachable _ _ _ _ _ Hbs Hexec j) as (_ & Hbk & _).
  pose proof (Inv_reachable _ _ _ _ _ Hbs Hexec) as HI.
  split; [exact Hbk|]. split.
  - intros k d Hk. rewrite Hbk, nth_error_firstn in Hk.
    destruct (k <? _)%nat; [|discriminate].
    rewrite timeouts_in_order, nth_error_map, nth_error_seq in Hk
      by exact Hfac.
    destruct (k <? _)%nat; [|discriminate]. cbn [option_map] in Hk.
    injection Hk as <-. unfold Retry.nextDelay, Retry.createTimeout.
    rewrite Z.max_l by lia. do 3 f_equal. lia.
  - intros Hres. apply (inv_resolve _ _ _ _ HI) in Hres.
    rewrite Hbk, (waiting_when_done _ _ _ _ _ HI Hres), Nat.add_0_r.
    rewrite length_firstn, timeouts_length.
    rewrite (calls_when_done _ _ _ _ _ HI Hres).
    pose proof (fetch_bounds cfg transport j). lia.
Qed.

Lemma waits_follow_policy_witness :
  exists s,
    exec SortAtEnd sampleConfig sampleTransport sampleSchedule
         (init SortAtEnd sampleConfig) = Some s /\
    backoffs 3 (trace (out s)) =
      [1000; 2000; 4000; 8000; 8000; 8000; 8000; 8000; 8000; 8000] /\
    (In (EvResolve 3) (trace (out s)) ->
     List.length (backoffs 3 (trace (out s))) =
     (calls 3 (trace (out s)) - 1)%nat).
Proof.
  eexists. split; [vm_compute; reflexivity|]. split; [reflexivity|].
  refine (proj2 (proj2 (waits_follow_policy SortAtEnd sampleConfig
                          sampleTransport sampleSchedule _ 3 _ _ _ _))).
  - split; [cbn; lia|reflexivity].
  - cbn. lia.
  - cbn. lia.
  - vm_compute. reflexivity.
Defined.

(** ** What a completed run has done, whatever the schedule *)

Lemma fetch_same_options (cfg1 cfg2 : Config) (transport : Transport) (j : Z) :
  retryOptions cfg1 = retryOptions cfg2 ->
  fetch cfg1 transport j = fetch cfg2 transport j.
Proof. intros H. unfold fetch. now rewrite H. Qed.

(** Two completed runs over the same range with the same retry options and
    the same responses, of either script, with any batch sizes, pacing
    delays and completion orders, produce the same table rows, the same
    warnings and the same error-log entries up to their order. *)
Theorem outputs_same_up_to_order (v1 v2 : Variant) (cfg1 cfg2 : Config)
    (transport : Transport) (sched1 sched2 : list Choice) (s1 s2 : State) :
  wfConfig cfg1 -> wfConfig cfg2 ->
  startTokenId cfg1 = startTokenId cfg2 ->
  endTokenId cfg1 = endTokenId cfg2 ->
  retryOptions cfg1 = retryOptions cfg2 ->
  exec v1 cfg1 transport sched1 (init v1 cfg1) = Some s1 ->
  running s1 = false ->
  exec v2 cfg2 transport sched2 (init v2 cfg2) = Some s2 ->
  running s2 = false ->
  Permutation (csv (out s1)) (csv (out s2)) /\
  Permutation (warned (out s1)) (warned (out s2)) /\
  Permutation (errorLog (out s1)) (errorLog (out s2)) /\
  progress (out s1) = progress (out s2).
Proof.
  intros Hwf1 Hwf2 Hs He Hr Hx1 Hf1 Hx2 Hf2.
  destruct (finished_outcomes _ _ _ _ _ Hwf1 Hx1 Hf1)
    as (_ & _ & Hw1 & He1 & Hp1).
  destruct (finished_outcomes _ _ _ _ _ Hwf2 Hx2 Hf2)
    as (_ & _ & Hw2 & He2 & Hp2).
  pose proof (Inv_reachable _ _ _ _ _ (proj1 Hwf1) Hx1) as HI1.
  pose proof (Inv_reachable _ _ _ _ _ (proj1 Hwf2) Hx2) as HI2.
  split; [|split; [|split]].
  - rewrite (finished_csv _ _ _ _ HI1 Hf1), (finished_csv _ _ _ _ HI2 Hf2).
    unfold ownedRows, fetch. now rewrite Hs, He, Hr.
  - apply NoDup_Permutation.
    + destruct (inv_warned _ _ _ _ HI1) as [Hnd _]. now rewrite map_id in Hnd.
    + destruct (inv_warned _ _ _ _ HI2) as [Hnd _]. now rewrite map_id in Hnd.
    + intros j. now rewrite Hw1, Hw2, Hs, He, (fetch_same_options _ _ _ _ Hr).
  - apply NoDup_Permutation.
    + eapply NoDup_map_inv, (inv_errorLog _ _ _ _ HI1).
    + eapply NoDup_map_inv, (inv_errorLog _ _ _ _ HI2).
    + intros [j msg].
      now rewrite He1, He2, Hs, He, (fetch_same_options _ _ _ _ Hr).
  - now rewrite Hp1, Hp2, Hs, He.
Qed.

Lemma outputs_same_up_to_order_witness :
  exists s1 s2,
    exec SortAtEnd sampleConfig sampleTransport sampleSchedule
         (init SortAtEnd sampleConfig) = Some s1 /\
    exec WriteImmediately sampleConfig sampleTransport
         sampleScheduleImmediate (init WriteImmediately sampleConfig)
      = Some s2 /\
    Permutation (csv (out s1)) (csv (out s2)).
Proof.
  eexists. eexists. split; [vm_compute; reflexivity|].
  split; [vm_compute; reflexivity|].
  refine (proj1 (outputs_same_up_to_order SortAtEnd WriteImmediately
                   sampleConfig sampleConfig sampleTransport sampleSchedule
                   sampleScheduleImmediate _ _ _ _ _ _ _ _ _ _ _)).
  - split; [cbn; lia|reflexivity].
  - split; [cbn; lia|reflexivity].
  - reflexivity.
  - reflexivity.
  - reflexivity.
  - vm_compute. reflexivity.
  - reflexivity.
  - vm_compute. reflexivity.
  - reflexivity.
Defined.

(** ** Load on the remote endpoint *)

Lemma list_sum_zero {A : Type} (l : list A) :
  list_sum (map (fun _ => 0%nat) l) = 0%nat.
Proof. induction l; cbn; auto. Qed.

Lemma list_sum_cons (x : nat) (l : list nat) :
  list_sum (x :: l) = (x + list_sum l)%nat.
Proof. reflexivity. Qed.

Lemma list_sum_indicator (j : Z) (l : list Z) :
  NoDup l -> In j l ->
  list_sum (map (fun x => if j =? x then 1%nat else 0%nat) l) = 1%nat.
Proof.
  induction 1 as [|x l Hx Hnd IH]; [contradiction|]. cbn [map].
  rewrite list_sum_cons. intros [->|Hin].
  - rewrite Z.eqb_refl.
    replace (map (fun x => if j =? x then 1%nat else 0%nat) l)
      with (map (fun _ : Z => 0%nat) l); [now rewrite list_sum_zero|].
    apply map_ext_in. intros y Hy.
    destruct (Z.eqb_spec j y) as [->|]; [contradiction|reflexivity].
  - destruct (Z.eqb_spec j x) as [->|]; [contradiction|].
    now rewrite IH.
Qed.

Lemma list_sum_add {A : Type} (f g : A -> nat) (l : list A) :
  list_sum (map (fun x => (f x + g x)%nat) l) =
  (list_sum (map f l) + list_sum (map g l))%nat.
Proof.
  induction l as [|x l IH]; [reflexivity|]. cbn [map].
  rewrite !list_sum_cons, IH. lia.
Qed.

Lemma totalCalls_sum (t : list Event) (l : list Z) :
  NoDup l ->
  (forall j a, In (EvCall j a) t -> In j l) ->
  totalCalls t = list_sum (map (fun j => calls j t) l).
Proof.
  intros Hnd. induction t as [|e t IH]; intros Hin.
  - cbn. now rewrite list_sum_zero.
  - assert (IH' : totalCalls t = list_sum (map (fun j => calls j t) l)).
    { apply IH. intros j a H. apply (Hin j a). now right. }
    destruct e as [j a|j ms|ms|j]; try exact IH'.
    change (totalCalls (EvCall j a :: t)) with (S (totalCalls t)).
    rewrite IH'.
    rewrite (map_ext (fun x => calls x (EvCall j a :: t))
               (fun x => Nat.add (if (j =? x)%Z then 1%nat else 0%nat)
                                 (calls x t))).
    + rewrite list_sum_add, list_sum_indicator; [reflexivity|exact Hnd|].
      apply (Hin j a). now left.
    + intros x. unfold calls. cbn [filter]. now destruct (j =? x).
Qed.

Lemma call_counted (j : Z) (a : nat) (t : list Event) :
  In (EvCall j a) t -> (1 <= calls j t)%nat.
Proof.
  unfold calls. induction t as [|e t IH]; [contradiction|].
  intros [->|Hin]; cbn [filter].
  - rewrite Z.eqb_refl. cbn. lia.
  - specialize (IH Hin). destruct e; try exact IH.
    destruct (_ =? _); cbn; lia.
Qed.

Lemma list_sum_bounds (f : Z -> nat) (lo hi : nat) (l : list Z) :
  (forall x, lo <= f x <= hi)%nat ->
  (List.length l * lo <= list_sum (map f l) <= List.length l * hi)%nat.
Proof.
  intros H. induction l as [|x l IH]; [cbn; lia|].
  cbn [List.length map]. rewrite list_sum_cons. specialize (H x). lia.
Qed.

(** The number of remote calls of a completed run is the sum, over the
    ids of the range, of the calls the fetcher of each id needs on its
    own: it does not depend on the batch size or on the completion order,
    it is at least one call per id and at most [retries + 1]. *)
Theorem remote_calls_of_a_run (v : Variant) (cfg : Config)
    (transport : Transport) (sched : list Choice) (s : State) :
  wfConfig cfg ->
  exec v cfg transport sched (init v cfg) = Some s ->
  running s = false ->
  totalCalls (trace (out s)) =
    list_sum (map (fun j => snd (fetch cfg transport j))
                  (JS.range (startTokenId cfg) (endTokenId cfg))) /\
  (List.length (JS.range (startTokenId cfg) (endTokenId cfg))
   <= totalCalls (trace (out s))
   <= List.length (JS.range (startTokenId cfg) (endTokenId cfg))
      * S (Retry.retries (retryOptions cfg)))%nat.
Proof.
  intros [Hbs _] Hexec Hfin.
  pose proof (Inv_reachable _ _ _ _ _ Hbs Hexec) as HI.
  assert (Hsum : totalCalls (trace (out s)) =
    list_sum (map (fun j => snd (fetch cfg transport j))
                  (JS.range (startTokenId cfg) (endTokenId cfg)))).
  { rewrite (totalCalls_sum _ (JS.range (startTokenId cfg) (endTokenId cfg))).
    - f_equal. apply map_ext_in. intros j Hj. apply range_In in Hj.
      now apply (calls_of_done _ _ _ _ HI Hfin).
    - apply range_NoDup.
    - intros j a Hin. apply call_counted in Hin.
      rewrite (inv_calls _ _ _ _ HI) in Hin. unfold expectedCalls in Hin.
      pose proof (inv_ctrl _ _ _ _ HI) as Hc. rewrite Hfin in Hc.
      destruct Hc as [_ Hb]. rewrite Hb in Hin. cbn [lookup find] in Hin.
      destruct (past cfg (loop_i s) j) eqn:Hp; [|lia].
      apply past_spec in Hp. apply range_In. lia. }
  split; [exact Hsum|]. rewrite Hsum.
  pose proof (list_sum_bounds (fun j => snd (fetch cfg transport j)) 1
                (S (Retry.retries (retryOptions cfg)))
                (JS.range (startTokenId cfg) (endTokenId cfg))
                (fetch_bounds cfg transport)) as H.
  lia.
Qed.

Lemma remote_calls_of_a_run_witness :
  exists s,
    exec SortAtEnd sampleConfig sampleTransport sampleSchedule
         (init SortAtEnd sampleConfig) = Some s /\
    totalCalls (trace (out s)) = 14%nat /\
    totalCalls (trace (out s)) =
      list_sum (map (fun j => snd (fetch sampleConfig sampleTransport j))
                    (JS.range 1 4)).
Proof.
  eexists. split; [vm_compute; reflexivity|]. split; [reflexivity|].
  refine (proj1 (remote_calls_of_a_run SortAtEnd sampleConfig sampleTransport
                   sampleSchedule _ _ _ _)).
  - split; [cbn; lia|reflexivity].
  - vm_compute. reflexivity.
  - reflexivity.
Defined.

(** ** Pacing *)

Lemma afterBatch_reachable (v : Variant) (cfg : Config) (transport : Transport)
    (sched : list Choice) (s : State) :
  1 <= batchSize cfg ->
  exec v cfg transport sched (init v cfg) = Some s ->
  afterBatch cfg s.
Proof.
  intros Hbs. revert sched s.
  apply (reachable_ind v cfg transport (afterBatch cfg) Hbs).
  - left. apply init_facts.
  - intros c s s' HI HP Hstep. destruct c as [j|].
    + destruct (settle_facts _ _ _ _ _ _ HI Hstep)
        as (_ & _ & _ & _ & _ & _ & Hi & _).
      unfold afterBatch. now rewrite Hi.
    + destruct (barrier_facts _ _ _ _ _ Hstep) as (Hrun & _ & Hi & _).
      pose proof (inv_ctrl _ _ _ _ HI) as Hc. rewrite Hrun in Hc.
      right. rewrite Hi. lia.
Qed.

(** The run sleeps the pacing delay once per batch, also after the last
    one: while the loop runs the number of sleeps so far is the index of
    the batch in flight, and a completed run has slept as many times as
    the range has batches. *)
Theorem one_sleep_per_batch (v : Variant) (cfg : Config)
    (transport : Transport) (sched : list Choice) (s : State) :
  wfConfig cfg ->
  exec v cfg transport sched (init v cfg) = Some s ->
  (running s = true ->
   nth_error (allBatches cfg) (sleeps (trace (out s))) =
   Some (map tokenId (batchPromises s))) /\
  (running s = false ->
   sleeps (trace (out s)) = List.length (allBatches cfg)).
Proof.
  intros [Hbs _] Hexec.
  pose proof (Inv_reachable _ _ _ _ _ Hbs Hexec) as HI.
  pose proof (afterBatch_reachable _ _ _ _ _ Hbs Hexec) as Ha.
  destruct (inv_iter _ _ _ _ HI) as (k & Hk & Hsl).
  pose proof (inv_ctrl _ _ _ _ HI) as Hc. rewrite Hsl.
  assert (Hnth : forall n : nat,
    nth_error (allBatches cfg) n =
    if startTokenId cfg + Z.of_nat n * batchSize cfg <=? endTokenId cfg
    then Some (window cfg (startTokenId cfg + Z.of_nat n * batchSize cfg))
    else None).
  { intros n. apply batches_nth; [exact Hbs|lia]. }
  split; intros Hrun; rewrite Hrun in Hc.
  - destruct Hc as [Hle Hwin]. rewrite Hnth, <- Hk, Hwin.
    destruct (Z.leb_spec (loop_i s) (endTokenId cfg)); [reflexivity|lia].
  - destruct Hc as [Hgt _].
    assert (Hlen : (List.length (allBatches cfg) <= k)%nat).
    { apply nth_error_None. rewrite Hnth, <- Hk.
      destruct (Z.leb_spec (loop_i s) (endTokenId cfg)); [lia|reflexivity]. }
    destruct k as [|k]; [lia|].
    assert (Hprev : (k < List.length (allBatches cfg))%nat); [|lia].
    apply nth_error_Some. rewrite Hnth.
    destruct (Z.leb_spec (startTokenId cfg + Z.of_nat k * batchSize cfg)
                (endTokenId cfg)); [discriminate|].
    exfalso. unfold afterBatch in Ha. nia.
Qed.

Lemma one_sleep_per_batch_witness :
  exists s,
    exec SortAtEnd sampleConfig sampleTransport sampleSchedule
         (init SortAtEnd sampleConfig) = Some s /\
    sleeps (trace (out s)) = 2%nat /\
    (running s = false ->
     sleeps (trace (out s)) = List.length (allBatches sampleConfig)).
Proof.
  eexists. split; [vm_compute; reflexivity|]. split; [reflexivity|].
  refine (proj2 (one_sleep_per_batch SortAtEnd sampleConfig sampleTransport
                   sampleSchedule _ _ _)).
  - split; [cbn; lia|reflexivity].
  - vm_compute. reflexivity.
Defined.

(** ** Recovery after transient errors *)




(** ** The header of the CSV file *)

Section CsvFileProofs.

Variable stringifyRecords : list Row -> string.

Lemma append_empty (a b : string) :
  (a ++ b)%string = EmptyString -> a = EmptyString.
Proof. destruct a; [reflexivity|discriminate]. Qed.

Lemma string_app_assoc (a b c : string) :
  ((a ++ b) ++ c)%string = (a ++ (b ++ c))%string.
Proof. induction a as [|x a IH]; cbn; [reflexivity|]. now rewrite IH. Qed.

Lemma string_app_nil (a : string) : (a ++ EmptyString)%string = a.
Proof. induction a as [|x a IH]; cbn; [reflexivity|]. now rewrite IH. Qed.

Lemma appendWrites_app (w1 w2 : list (list Row)) (text : string) :
  appendWrites stringifyRecords (w1 ++ w2) text =
  appendWrites stringifyRecords w2 (appendWrites stringifyRecords w1 text).
Proof. unfold appendWrites. apply fold_left_app. Qed.

Lemma appendWrites_prefix (w : list (list Row)) (text : string) :
  exists rest, appendWrites stringifyRecords w text = (text ++ rest)%string.
Proof.
  revert text. induction w as [|rs w IH]; intros text.
  - exists EmptyString. cbn. now rewrite string_app_nil.
  - cbn [appendWrites fold_left].
    destruct (IH (text ++ stringifyRecords rs)%string) as [rest Hr].
    exists (stringifyRecords rs ++ rest)%string.
    unfold appendWrites in Hr. now rewrite Hr, string_app_assoc.
Qed.

Lemma appendWrites_not_empty (w : list (list Row)) (text : string) :
  text <> EmptyString ->
  appendWrites stringifyRecords w text <> EmptyString.
Proof.
  intros Hne H. destruct (appendWrites_prefix w text) as [rest Hr].
  rewrite Hr in H. now apply append_empty in H.
Qed.

Lemma ensureHeader_not_empty (file : option string) :
  ensureHeader file <> EmptyString.
Proof.
  unfold ensureHeader. destruct file as [text|]; [|discriminate].
  destruct (String.eqb_spec text EmptyString); [discriminate|assumption].
Qed.

Lemma ensureHeader_kept (text : string) :
  text <> EmptyString -> ensureHeader (Some text) = text.
Proof.
  intros H. unfold ensureHeader.
  now destruct (String.eqb_spec text EmptyString).
Qed.

(** Running the scripts again and again on the same file is the same as
    one run making all the writes: the header check adds the header only
    before the first run, and only if the file is missing or empty;
    afterwards what the file held is kept at its start and every run only
    appends. *)
Theorem header_written_once (file : option string)
    (runs : list (list (list Row))) :
  runs <> [] ->
  runsOnFile stringifyRecords file runs =
    Some (appendWrites stringifyRecords (List.concat runs)
            (ensureHeader file)) /\
  (exists rest,
     runsOnFile stringifyRecords file runs =
     Some (ensureHeader file ++ rest)%string) /\
  (forall text, file = Some text -> text <> EmptyString ->
     exists rest,
       runsOnFile stringifyRecords file runs = Some (text ++ rest)%string).
Proof.
  intros Hne.
  assert (Hall : runsOnFile stringifyRecords file runs =
            Some (appendWrites stringifyRecords (List.concat runs)
                    (ensureHeader file))).
  { revert file. induction runs as [|w rs IH]; intros file; [contradiction|].
    unfold runsOnFile. cbn [fold_left List.concat].
    destruct rs as [|w' rs].
    - cbn [fold_left List.concat]. now rewrite app_nil_r.
    - fold (runsOnFile stringifyRecords
              (runOnFile stringifyRecords file w) (w' :: rs)).
      rewrite IH by discriminate. unfold runOnFile.
      rewrite ensureHeader_kept, appendWrites_app; [reflexivity|].
      apply appendWrites_not_empty, ensureHeader_not_empty. }
  split; [exact Hall|]. split.
  - destruct (appendWrites_prefix (List.concat runs) (ensureHeader file))
      as [rest Hr].
    exists rest. now rewrite Hall, Hr.
  - intros text -> Htext. rewrite Hall, (ensureHeader_kept _ Htext).
    destruct (appendWrites_prefix (List.concat runs) text) as [rest Hr].
    exists rest. now rewrite Hr.
Qed.

End CsvFileProofs.

Lemma header_written_once_witness :
  runsOnFile plainRecords None
    [[[(ownerOf 1, 1)]; [(ownerOf 2, 2)]]; [[(ownerOf 1, 1); (ownerOf 2, 2)]]]
  = Some ("Owner Address,Token ID" ++ String "010" EmptyString
          ++ "0x1,1" ++ String "010" EmptyString
          ++ "0x2,2" ++ String "010" EmptyString
          ++ "0x1,1" ++ String "010" EmptyString
          ++ "0x2,2" ++ String "010" EmptyString)%string.
Proof.
  rewrite (proj1 (header_written_once plainRecords None
                    [[[(ownerOf 1, 1)]; [(ownerOf 2, 2)]];
                     [[(ownerOf 1, 1); (ownerOf 2, 2)]]]
                    ltac:(discriminate))).
  reflexivity.
Defined.

(** ** The table during the run *)

(** At every point of a run, not only at its end, the table holds at most
    one row per token id, only for ids of the range, and each row carries
    the owner that the fetcher of its id obtains. *)
Theorem table_rows_at_any_time (v : Variant) (cfg : Config)
    (transport : Transport) (sched : list Choice) (s : State) :
  wfConfig cfg ->
  exec v cfg transport sched (init v cfg) = Some s ->
  NoDup (map snd (csv (out s))) /\
  forall owner j,
    In (owner, j) (csv (out s)) ->
    startTokenId cfg <= j <= endTokenId cfg /\
    fst (fetch cfg transport j) = Owned owner.
Proof.
  intros [Hbs _] Hexec.
  pose proof (Inv_reachable _ _ _ _ _ Hbs Hexec) as HI.
  destruct (inv_rows _ _ _ _ HI) as [Hnd Hin].
  pose proof (inv_other _ _ _ _ HI) as Ho.
  pose proof (inv_ctrl _ _ _ _ HI) as Hc.
  pose proof (inv_start _ _ _ _ HI) as Hst.
  assert (Hrange : forall j, written cfg s j ->
                             startTokenId cfg <= j <= endTokenId cfg).
  { intros j Hw.
    assert (Hin' : past cfg (loop_i s) j = true \/
                   exists x, lookup j (batchPromises s) = Some x).
    { destruct Hw as [[Hp | (x & Hx & _)] | (x & Hx & _)]; eauto. }
    destruct Hin' as [Hp | (x & Hx)]; [apply past_spec in Hp; lia|].
    destruct (running s).
    - destruct Hc as [Hle Hwin]. apply lookup_ids in Hx. rewrite Hwin in Hx.
      apply range_In in Hx. lia.
    - destruct Hc as [_ Hb]. rewrite Hb in Hx. discriminate. }
  assert (Hsink : forall owner j,
            In (owner, j) (rowSink v (out s)) ->
            startTokenId cfg <= j <= endTokenId cfg /\
            fst (fetch cfg transport j) = Owned owner).
  { intros owner j H. apply Hin in H. destruct H as [Hw Hsel].
    split; [exact (Hrange _ Hw)|exact Hsel]. }
  destruct v; cbn [rowSink] in *; [auto|].
  rewrite Ho. destruct (running s); [split; [constructor|contradiction]|].
  split.
  - eapply Permutation_NoDup; [|exact Hnd].
    apply Permutation_map. symmetry. apply sort_perm.
  - intros owner j H. apply Hsink.
    eapply Permutation_in; [apply sort_perm|exact H].
Qed.

Lemma table_rows_at_any_time_witness :
  exists s,
    exec WriteImmediately sampleConfig sampleTransport [Settle 1; Settle 3]
         (init WriteImmediately sampleConfig) = Some s /\
    csv (out s) = [(ownerOf 1, 1)] /\
    NoDup (map snd (csv (out s))).
Proof.
  eexists. split; [vm_compute; reflexivity|]. split; [reflexivity|].
  refine (proj1 (table_rows_at_any_time WriteImmediately sampleConfig
                   sampleTransport [Settle 1; Settle 3] _ _ _)).
  - split; [cbn; lia|reflexivity].
  - vm_compute. reflexivity.
Defined.
